(** * ProjectDumper: the selection tree and the dump generator of [main.py]

    A shallow embedding of the tri-state checkbox tree
    ([ProjectDumperApp.populate_tree], [on_tree_open], [toggle_check],
    [_update_children_state], [_update_parent_state], [_is_path_selected]),
    of the path filter ([_is_path_ignored]) and of the dump generator
    ([_generate_file_tree_string], [process_files], [_is_binary_file]),
    followed by the properties the specification states about them.

    Conventions of the embedding.
    - A path is the list of its components below the filesystem anchor, root
      first; [os.path.join p name] is [p ++ [name]] and [os.path.dirname]
      drops the last component ([dirname [] = []], as [dirname "/" = "/"]).
      Paths are absolute and normalised and the snapshot holds no symbolic
      link, so [os.path.normpath] and [Path.resolve] leave them unchanged.
    - The filesystem snapshot is the tree below the source directory.
    - The [ttk.Treeview] is a tree of rows.  A row is addressed by its item
      id; the id of a row is the index of the row among its siblings, consed
      on the id of its parent, and the root row has id [[]].
    - [path_to_id_map] holds one entry per row made by [_add_node_to_tree],
      keyed by the row's full path; the row of a path is found by following
      the names of the path below the source directory
      ([path_to_id_fullpath]: the row found has that full path).
    - [toggle_check] and [_update_children_state] call each other, and every
      call ends with [_update_parent_state].  [toggle_check] below gives the
      tree these calls leave; [toggle_check_calls] makes the calls one by
      one, and [toggle_check_calls_eq] proves that both give the same tree.
    - The library functions that work on the text of Unicode ([str.lower],
      [str.strip], and [chardet.detect] with [bytes.decode]) are arguments
      [lower], [strip] and [decode] of the functions that call them, and
      nothing is assumed of them; [ascii_lower], [ascii_strip] and
      [ascii_decode] are what they do on texts of ASCII characters, for the
      examples.
    - What the surroundings answer during a run of [process_files] is the
      record [effects]: every step of the run that can raise is a field of
      it, and the snapshot the run finds once the output file is open is
      [opened]. *)

From Stdlib Require Import List String Ascii Strings.Byte Bool Arith ZArith Lia QArith.
Import ListNotations.

Set Warnings "-register-all".

Local Close Scope Q_scope.
Local Open Scope string_scope.
Local Open Scope list_scope.
Local Open Scope nat_scope.

(** ** Paths *)

Definition path := list string.

Definition join (p : path) (name : string) : path := p ++ [name].

Definition dirname (p : path) : path := removelast p.

Definition basename (p : path) : string := last p "".

Definition resolve (p : path) : path := p.

Fixpoint path_eqb (p q : path) : bool :=
  match p, q with
  | [], [] => true
  | a :: p', b :: q' => String.eqb a b && path_eqb p' q'
  | _, _ => false
  end.

Definition mem_path (p : path) (ps : list path) : bool := existsb (path_eqb p) ps.

Definition mem_string (s : string) (l : list string) : bool := existsb (String.eqb s) l.

(** [strip_prefix src p] is [Some rel] when [p = src ++ rel]. *)
Fixpoint strip_prefix (src p : path) : option path :=
  match src, p with
  | [], _ => Some p
  | a :: src', b :: p' => if String.eqb a b then strip_prefix src' p' else None
  | _ :: _, [] => None
  end.

(** ** Strings: [str.lower] and [os.path.splitext] *)

(** A string holds the UTF-8 bytes of a text.  [str.lower] folds every cased
    letter of Unicode; the functions that call it take it as their first
    argument [lower], a function on strings of which nothing is assumed, so
    that what is proved of them holds of [str.lower].  A path is lowered
    component by component: the separator is no cased letter and stands
    between the words that [str.lower] looks at. *)

(** [str.lower] on the texts of ASCII characters, on which it folds the
    letters [A] to [Z]: the instance on which the examples are evaluated. *)
Definition lower_ascii (c : ascii) : ascii :=
  let n := nat_of_ascii c in
  if ((65 <=? n) && (n <=? 90))%nat then ascii_of_nat (n + 32) else c.

Fixpoint ascii_lower (s : string) : string :=
  match s with
  | EmptyString => EmptyString
  | String c s' => String (lower_ascii c) (ascii_lower s')
  end.

Definition is_dot (c : ascii) : bool := Ascii.eqb c "."%char.

(** The characters after the last dot of a reversed name, still reversed, and
    the reversed characters before that dot. *)
Fixpoint split_last_dot (rev_name : list ascii) : option (list ascii * list ascii) :=
  match rev_name with
  | [] => None
  | c :: rest =>
      if is_dot c then Some ([], rest)
      else match split_last_dot rest with
           | Some (suffix, front) => Some (c :: suffix, front)
           | None => None
           end
  end.

(** [os.path.splitext(name)[1]]: the extension starts at the last dot of the
    base name, and a name made of leading dots only has no extension. *)
Definition splitext_ext (name : string) : string :=
  match split_last_dot (rev (list_ascii_of_string name)) with
  | Some (rsuffix, rfront) =>
      if existsb (fun c => negb (is_dot c)) rfront
      then string_of_list_ascii ("."%char :: rev rsuffix)
      else ""
  | None => ""
  end.

(** ** PathFilter: [_is_path_ignored] *)

Definition anchor : string := "/".

(** [Path(p).parts]: the anchor, then the components; the parts of the
    lowered path are the lowered parts of the path. *)
Definition parts (p : path) : list string := anchor :: p.

Record filter_config := {
  ignored_dirs : list string;
  ignored_exts : list string
}.

Definition _is_path_ignored (lower : string -> string) (cfg : filter_config) (p : path)
  : bool :=
  let path_lower := map lower p in
  let dirs := map lower (ignored_dirs cfg) in
  let exts := map lower (ignored_exts cfg) in
  if existsb (fun part => mem_string part dirs) (map lower (parts p)) then true
  else if mem_string (splitext_ext (basename path_lower)) exts then true
  else false.

Definition default_filter : filter_config :=
  {| ignored_dirs := ["__pycache__"; ".git"; ".idea"; ".vscode"; "node_modules";
                      "dist"; "build"; "venv"; "target"];
     ignored_exts := [".pyc"; ".pyd"; ".so"; ".dll"; ".exe"; ".jpg"; ".png"; ".gif";
                      ".zip"; ".rar"; ".pdf"; ".db"; ".lock"; ".log"] |}.

(** ** The filesystem snapshot *)

(** A file carries what the three accesses of [process_files] return:
    [os.path.getsize], the first [read(1024)] of [_is_binary_file], and the
    full read; [None] is a raised exception.  [Locked] is a directory whose
    listing raises [OSError]. *)
Inductive fsnode :=
  | File (size : option Z) (probe : option (list byte)) (data : option (list byte))
  | Dir (entries : list (string * fsnode))
  | Locked.

Fixpoint assoc (name : string) (es : list (string * fsnode)) : option fsnode :=
  match es with
  | [] => None
  | (n, c) :: es' => if String.eqb name n then Some c else assoc name es'
  end.

Fixpoint fs_find (n : fsnode) (rel : path) : option fsnode :=
  match rel with
  | [] => Some n
  | name :: rest =>
      match n with
      | Dir es => match assoc name es with
                  | Some c => fs_find c rest
                  | None => None
                  end
      | _ => None
      end
  end.

Definition fs_is_dir (n : fsnode) : bool :=
  match n with
  | File _ _ _ => false
  | _ => true
  end.

(** [sorted]: insertion sort on the names, ordered by [String.leb]. *)
Fixpoint insert_by {A} (key : A -> string) (x : A) (l : list A) : list A :=
  match l with
  | [] => [x]
  | y :: l' => if String.leb (key x) (key y) then x :: l else y :: insert_by key x l'
  end.

Definition sort_by {A} (key : A -> string) (l : list A) : list A :=
  fold_right (insert_by key) [] l.

Definition sorted (l : list string) : list string := sort_by (fun name => name) l.

Section Filesystem.

(** The snapshot below the source directory [src]. *)
Variable fs : fsnode.
Variable src : path.

Definition fs_at (p : path) : option fsnode :=
  match strip_prefix src p with
  | Some rel => fs_find fs rel
  | None => None
  end.

Definition isdir (p : path) : bool :=
  match fs_at p with
  | Some n => fs_is_dir n
  | None => false
  end.

(** [os.listdir]: [None] stands for [OSError]. *)
Definition listdir (p : path) : option (list string) :=
  match fs_at p with
  | Some (Dir es) => Some (map fst es)
  | _ => None
  end.

End Filesystem.

(** ** SelectionTree: the rows of the Treeview *)

(** The "state" column: ["unchecked"], ["checked"], ["tristate"], and the
    empty string a row without values answers. *)
Inductive state := Unchecked | Checked | Tristate | NoState.

Definition state_eqb (a b : state) : bool :=
  match a, b with
  | Unchecked, Unchecked | Checked, Checked | Tristate, Tristate | NoState, NoState => true
  | _, _ => false
  end.

Definition state_eq_dec (a b : state) : {a = b} + {a <> b}.
Proof. decide equality. Defined.

(** [Node]: a row made by [_add_node_to_tree], with its name, its state and
    its child rows; its full path is the path of its parent joined with its
    name.  [Loading]: the ["loading..."] row.  [ErrorEntry]: a row without a
    path whose text is not ["loading..."] (the ["无法访问"] row). *)
Inductive item :=
  | Node (name : string) (st : state) (kids : list item)
  | Loading
  | ErrorEntry (st : state).

Definition iid := list nat.

Definition item_state (it : item) : state :=
  match it with
  | Node _ s _ => s
  | Loading => NoState
  | ErrorEntry s => s
  end.

Definition is_loading (it : item) : bool :=
  match it with
  | Loading => true
  | _ => false
  end.

Definition get_children (it : item) : list item :=
  match it with
  | Node _ _ kids => kids
  | _ => []
  end.

Fixpoint get_at (t : item) (pos : list nat) : option item :=
  match pos with
  | [] => Some t
  | k :: rest =>
      match nth_error (get_children t) k with
      | Some c => get_at c rest
      | None => None
      end
  end.

(** The row of an item id ([None]: [tree.exists] is false). *)
Definition get_item (t : item) (i : iid) : option item := get_at t (rev i).

Fixpoint list_update {A} (k : nat) (f : A -> A) (l : list A) : list A :=
  match l, k with
  | [], _ => []
  | x :: l', O => f x :: l'
  | x :: l', S k' => x :: list_update k' f l'
  end.

Fixpoint set_at (t : item) (pos : list nat) (new : item) : item :=
  match pos with
  | [] => new
  | k :: rest =>
      match t with
      | Node n s kids => Node n s (list_update k (fun c => set_at c rest new) kids)
      | _ => t
      end
  end.

Definition set_item (i : iid) (new : item) (t : item) : item := set_at t (rev i) new.

(** [tree.set(item_id, "state", st)] together with the new text; a
    ["loading..."] row so written no longer reads ["loading..."]. *)
Definition set_state (st : state) (it : item) : item :=
  match it with
  | Node n _ kids => Node n st kids
  | Loading => ErrorEntry st
  | ErrorEntry _ => ErrorEntry st
  end.

(** The children that are not the ["loading..."] row. *)
Definition loaded_children (kids : list item) : list item :=
  filter (fun c => negb (is_loading c)) kids.

(** The set [child_states] of [_update_parent_state]. *)
Definition child_states (kids : list item) : list state :=
  nodup state_eq_dec (map item_state (loaded_children kids)).

Definition parent_state_of (kids : list item) : state :=
  match child_states kids with
  | [s] => s
  | _ => Tristate
  end.

(** [_update_parent_state]: from the parent of [item_id] up to the root, each
    row takes the state its children determine. *)
Fixpoint _update_parent_state (item_id : iid) (t : item) : item :=
  match item_id with
  | [] => t
  | _ :: parent_id =>
      match get_item t parent_id with
      | Some (Node n _ ((_ :: _) as kids)) =>
          _update_parent_state parent_id
            (set_item parent_id (Node n (parent_state_of kids) kids) t)
      | _ => t
      end
  end.

(** What [toggle_check] leaves below a row: the row and every row under it
    that is reached without crossing a ["loading..."] row take [st]. *)
Fixpoint toggle_item (st : state) (it : item) : item :=
  match it with
  | Node n _ kids =>
      Node n st (map (fun c => if is_loading c then c else toggle_item st c) kids)
  | Loading => ErrorEntry st
  | ErrorEntry _ => ErrorEntry st
  end.

(** [_update_children_state]: every child that is not ["loading..."] is
    toggled; each such [toggle_check] ends with [_update_parent_state] of the
    child, so the row itself and its ancestors are recomputed as soon as one
    child was toggled ([_update_parent_state] reads only the parent of its
    argument, so child [0] stands for the child toggled last).
    [update_children_state_calls_eq] relates it to the loop of calls. *)
Definition _update_children_state (item_id : iid) (st : state) (t : item) : item :=
  match get_item t item_id with
  | Some (Node n s kids) =>
      let kids' := map (fun c => if is_loading c then c else toggle_item st c) kids in
      if existsb (fun c => negb (is_loading c)) kids
      then _update_parent_state (0 :: item_id)
             (set_item item_id (Node n s kids') t)
      else t
  | _ => t
  end.

(** [toggle_check] with [propagate=True]. *)
Definition toggle_check (item_id : iid) (st : state) (t : item) : item :=
  match get_item t item_id with
  | None => t
  | Some it =>
      let t1 := set_item item_id (set_state st it) t in
      let t2 := _update_children_state item_id st t1 in
      _update_parent_state item_id t2
  end.

(** The calls of [toggle_check] and [_update_children_state] one by one:
    the row is written, then every child that is not ["loading..."] is
    toggled in turn, each of these calls ending with its own
    [_update_parent_state], and [_update_parent_state] of the row comes last.
    [fuel] bounds the depth of the calls; [toggle_check_calls_eq] shows that
    with fuel above the height of the row the result is [toggle_check]. *)
Fixpoint toggle_check_calls (fuel : nat) (item_id : iid) (st : state) (t : item) : item :=
  match fuel with
  | O => t
  | S fuel' =>
      match get_item t item_id with
      | None => t
      | Some it =>
          let t1 := set_item item_id (set_state st it) t in
          let t2 :=
            fold_left
              (fun acc k =>
                 match get_item acc (k :: item_id) with
                 | Some c =>
                     if is_loading c then acc
                     else toggle_check_calls fuel' (k :: item_id) st acc
                 | None => acc
                 end)
              (seq 0 (List.length (get_children it))) t1 in
          _update_parent_state item_id t2
      end
  end.

Definition update_children_state_calls (fuel : nat) (item_id : iid) (st : state)
           (t : item) : item :=
  match get_item t item_id with
  | None => t
  | Some it =>
      fold_left
        (fun acc k =>
           match get_item acc (k :: item_id) with
           | Some c =>
               if is_loading c then acc
               else toggle_check_calls fuel (k :: item_id) st acc
           | None => acc
           end)
        (seq 0 (List.length (get_children it))) t
  end.

Fixpoint height (it : item) : nat :=
  match it with
  | Node _ _ kids => S (fold_right (fun c m => Nat.max (height c) m) 0 kids)
  | _ => 0
  end.

(** [current_state -> new_state] of [on_single_click]. *)
Definition click_state (current_state : state) : state :=
  if state_eqb current_state Checked then Unchecked else Checked.

(** The names of the rows from the root down to a position; [None] when the
    position is missing or crosses a row without a path. *)
Fixpoint names_at (t : item) (pos : list nat) : option path :=
  match pos with
  | [] => Some []
  | k :: rest =>
      match nth_error (get_children t) k with
      | Some (Node m _ _ as c) => option_map (cons m) (names_at c rest)
      | _ => None
      end
  end.

Fixpoint find_child (name : string) (kids : list item) : option (nat * item) :=
  match kids with
  | [] => None
  | c :: kids' =>
      match c with
      | Node m _ _ =>
          if String.eqb name m then Some (0, c)
          else option_map (fun r => (S (fst r), snd r)) (find_child name kids')
      | _ => option_map (fun r => (S (fst r), snd r)) (find_child name kids')
      end
  end.

Fixpoint pos_of_names (t : item) (rel : path) : option (list nat) :=
  match rel with
  | [] => Some []
  | name :: rest =>
      match find_child name (get_children t) with
      | Some (k, c) => option_map (cons k) (pos_of_names c rest)
      | None => None
      end
  end.

(** The entries of [path_to_id_map], listed in the order of the rows.  The
    dict holds them in the order in which the rows were made; the two orders
    list the same entries, and only membership is read from this list. *)
Fixpoint map_items (p : path) (it : item) : list (path * state) :=
  match it with
  | Node _ s kids =>
      (p, s) :: flat_map (fun c => match c with
                                   | Node m _ _ => map_items (join p m) c
                                   | _ => []
                                   end) kids
  | _ => []
  end.

Section SelectionTree.

Variable fs : fsnode.
Variable source_dir : path.

(** [self.tree.set(item_id, "fullpath")] for a row with a path. *)
Definition fullpath (t : item) (i : iid) : option path :=
  option_map (app source_dir) (names_at t (rev i)).

(** [self.path_to_id_map.get(p)]. *)
Definition path_to_id (t : item) (p : path) : option iid :=
  match strip_prefix source_dir p with
  | Some rel => option_map (@rev nat) (pos_of_names t rel)
  | None => None
  end.

(** The state of the row mapped for [p], when [p] is mapped. *)
Definition mapped_state (t : item) (p : path) : option state :=
  match path_to_id t p with
  | Some i => option_map item_state (get_item t i)
  | None => None
  end.

(** The loop of [_is_path_selected]; [rcur] is [current_path] with its last
    component first, so that [os.path.dirname] is the tail. *)
Fixpoint is_path_selected_from (t : item) (rcur : list string) : bool :=
  let current_path := rev rcur in
  match mapped_state t current_path with
  | Some Checked => true
  | Some Unchecked => false
  | _ =>
      if path_eqb current_path source_dir then
        match mapped_state t source_dir with
        | Some s => negb (state_eqb s Unchecked)
        | None => false
        end
      else
        match rcur with
        | [] => false
        | _ :: rparent => is_path_selected_from t rparent
        end
  end.

Definition _is_path_selected (t : item) (file_path : path) : bool :=
  is_path_selected_from t (rev file_path).

(** [_add_node_to_tree] for a row that is not the root. *)
Definition _add_node_to_tree (checked_paths : list path) (p : path) : item :=
  let name := basename p in
  let is_dir := isdir fs source_dir p in
  let st := if mem_path (resolve p) checked_paths then Checked else Unchecked in
  let placeholder :=
    if is_dir then
      match listdir fs source_dir p with
      | Some (_ :: _) => [Loading]
      | _ => []
      end
    else [] in
  Node name st placeholder.

Definition root_name : string :=
  match basename source_dir with
  | EmptyString => anchor
  | name => name
  end.

(** [populate_tree] for a set source directory. *)
Definition populate_tree (checked_paths : list path) : item :=
  let checked_paths_resolved := map resolve checked_paths in
  let root_state :=
    if mem_path (resolve source_dir) checked_paths_resolved then Checked else Unchecked in
  let kids :=
    match listdir fs source_dir source_dir with
    | Some names =>
        map (fun item => _add_node_to_tree checked_paths_resolved (join source_dir item))
            (sorted names)
    | None => [ErrorEntry NoState]
    end in
  let t := Node root_name root_state kids in
  match kids with
  | [] => t
  | _ :: _ => _update_parent_state [List.length kids - 1] t
  end.

(** [on_tree_open] for the row [item_id]; [saved] is the [checked_paths] of
    the stored project settings. *)
Definition on_tree_open (saved : list path) (item_id : iid) (t : item) : item :=
  match get_item t item_id, fullpath t item_id with
  | Some (Node n parent_state (Loading :: rest)), Some p =>
      let checked_paths_resolved := map resolve saved in
      match listdir fs source_dir p with
      | Some names =>
          let new :=
            map (fun item_name => _add_node_to_tree checked_paths_resolved (join p item_name))
                (sorted names) in
          let t1 := set_item item_id (Node n parent_state (rest ++ new)) t in
          if negb (state_eqb parent_state Unchecked)
          then _update_children_state item_id parent_state t1
          else t1
      | None =>
          set_item item_id (Node n parent_state (rest ++ [ErrorEntry NoState])) t
      end
  | _, _ => t
  end.

(** The [checked_paths] that [_save_settings_for_current_project] stores. *)
Definition _save_settings_for_current_project (t : item) : list path :=
  map (fun e => resolve (fst e))
      (filter (fun e => negb (state_eqb (snd e) Unchecked)) (map_items source_dir t)).

(** The application state the selection model reads and writes: the rows
    and the [checked_paths] of the stored settings. *)
Record app := {
  tree : item;
  stored : list path
}.

(** [on_single_click] on the checkbox of the row [item_id]. *)
Definition on_single_click (item_id : iid) (a : app) : app :=
  match get_item (tree a) item_id with
  | None => a
  | Some it =>
      let new_state := click_state (item_state it) in
      let t := toggle_check item_id new_state (tree a) in
      {| tree := t; stored := _save_settings_for_current_project t |}
  end.

(** [_set_source_directory]: the stored settings are read and the tree is
    built from them. *)
Definition _set_source_directory (stored_paths : list path) : app :=
  {| tree := populate_tree stored_paths; stored := stored_paths |}.

(** [_refresh_tree_view]: save, read back, rebuild. *)
Definition _refresh_tree_view (a : app) : app :=
  _set_source_directory (_save_settings_for_current_project (tree a)).

(** The events that change the selection model or the stored paths: a
    directory is opened, a checkbox is clicked, the settings are saved (an
    edit of the ignore lists, the start of a generation), the tree is
    refreshed. *)
Inductive event :=
  | Open (item_id : iid)
  | Click (item_id : iid)
  | Save
  | Refresh.

Definition handle (e : event) (a : app) : app :=
  match e with
  | Open i => {| tree := on_tree_open (stored a) i (tree a); stored := stored a |}
  | Click i => on_single_click i a
  | Save => {| tree := tree a; stored := _save_settings_for_current_project (tree a) |}
  | Refresh => _refresh_tree_view a
  end.

Definition run_events (es : list event) (a : app) : app :=
  fold_left (fun a e => handle e a) es a.

End SelectionTree.

(** ** TreeRenderer and DumpGenerator *)

(** What one directory entry contributes to the listing: its name, whether it
    is a directory, and the lines below it as a function of their prefix. *)
Definition rendered := (string * (bool * (string -> list (path * string))))%type.

Inductive log_entry :=
  | FileError (filepath : path)
  | CriticalError.

(** What the interactive context is told when the run ends:
    [on_generation_complete(count)], or the error box. *)
Inductive notice :=
  | Complete (count : nat)
  | Failure.

(** The result of the loop body of [process_files] for one file: skipped
    without a trace; written, with the text decoded from its content; or
    failed and logged, with the writes of its block that were made before
    the failure. *)
Inductive file_result :=
  | Skipped
  | Written (content : string)
  | Failed (partial : list string).

(** What a run leaves: the terminal notification that reached the
    interactive context ([None] when posting it raised); the log entries;
    the texts written to the output file, in order, when the file was
    written to its end and closed ([None] when the run stopped before: the
    file, if it was opened, then holds a part of them); and the files whose
    block was written whole. *)
Record run := {
  notified : option notice;
  logged : list log_entry;
  document : option (list string);
  written_files : list path
}.

Fixpoint times (n : nat) (s : string) : string :=
  match n with
  | O => ""
  | S n' => (s ++ times n' s)%string
  end.

Definition newline : string := String (ascii_of_nat 10) "".

Section TreeRenderer.

Variable lower : string -> string.
Variable fs : fsnode.
Variable source_dir : path.
Variable cfg : filter_config.
Variable t : item.

(** The loop of [recurse_tree] over the sorted entries of [p]; each line is
    paired with the path of its entry. *)
Fixpoint emit_entries (full_tree : bool) (p : path) (prefix : string)
         (entries : list rendered) : list (path * string) :=
  match entries with
  | [] => []
  | (name, (is_dir, below)) :: rest =>
      let is_last := match rest with [] => true | _ => false end in
      let connector := if is_last then "└─ " else "├─ " in
      let child_path := join p name in
      if negb full_tree && _is_path_ignored lower cfg child_path
      then emit_entries full_tree p prefix rest
      else if negb full_tree && negb (_is_path_selected source_dir t child_path)
      then emit_entries full_tree p prefix rest
      else
        ((child_path, (prefix ++ connector ++ name)%string)
           :: (if is_dir
               then below (prefix ++ (if is_last then "    " else "│   "))%string
               else []))
          ++ emit_entries full_tree p prefix rest
  end.

(** [recurse_tree] on the directory [n] found at [p]. *)
Fixpoint recurse_tree (full_tree : bool) (n : fsnode) (p : path) (prefix : string)
  : list (path * string) :=
  match n with
  | Dir es =>
      let below :=
        (fix each (es : list (string * fsnode)) : list rendered :=
           match es with
           | [] => []
           | (name, c) :: es' =>
               (name, (fs_is_dir c, recurse_tree full_tree c (join p name))) :: each es'
           end) es in
      emit_entries full_tree p prefix (sort_by fst below)
  | _ => []
  end.

Definition file_tree_entries (full_tree : bool) : list (path * string) :=
  recurse_tree full_tree fs source_dir "".

Definition _generate_file_tree_string (full_tree : bool) : string :=
  String.concat newline (root_name source_dir :: map snd (file_tree_entries full_tree)).

(** The collection loop over [os.walk(source_dir, topdown=True)]: the files
    of a directory first, then its directories that are not ignored, each in
    the order of the listing. *)
Fixpoint walk (n : fsnode) (dirpath : path) : list path :=
  match n with
  | Dir es =>
      let filenames := map fst (filter (fun e => negb (fs_is_dir (snd e))) es) in
      filter (fun filepath =>
                negb (_is_path_ignored lower cfg filepath)
                && _is_path_selected source_dir t filepath)
             (map (join dirpath) filenames)
      ++ (fix subdirs (es : list (string * fsnode)) : list path :=
            match es with
            | [] => []
            | (d, c) :: es' =>
                (if fs_is_dir c && negb (_is_path_ignored lower cfg (join dirpath d))
                 then walk c (join dirpath d)
                 else [])
                ++ subdirs es'
            end) es
  | _ => []
  end.

Definition files_to_process : list path := walk fs source_dir.

Definition getsize (p : path) : option Z :=
  match fs_at fs source_dir p with
  | Some (File size _ _) => size
  | _ => None
  end.

Definition is_nul (b : byte) : bool := Byte.eqb b x00.

(** [_is_binary_file]. *)
Definition _is_binary_file (p : path) : bool :=
  match fs_at fs source_dir p with
  | Some (File _ (Some head) _) => existsb is_nul (firstn 1024 head)
  | _ => true
  end.

Definition read_all (p : path) : option (list byte) :=
  match fs_at fs source_dir p with
  | Some (File _ _ data) => data
  | _ => None
  end.

Definition relative_path (filepath : path) : string :=
  match strip_prefix source_dir filepath with
  | Some rel => String.concat "/" rel
  | None => String.concat "/" filepath
  end.

(** The three writes of the block of a file. *)
Definition block (filepath : path) (content : string) : list string :=
  [("--- START OF FILE: " ++ relative_path filepath ++ " ---" ++ newline ++ newline)%string;
   content;
   (newline ++ newline ++ "--- END OF FILE: " ++ relative_path filepath ++ " ---"
    ++ newline ++ newline)%string].

(** The writes of the banners and of the listings. *)
Definition header (include_full_tree : bool) : list string :=
  (if include_full_tree
   then [(times 40 "=" ++ " 完整项目结构 " ++ times 40 "=" ++ newline ++ newline)%string;
         _generate_file_tree_string true;
         (newline ++ newline ++ times 90 "=" ++ newline ++ newline)%string]
   else [])
  ++ [(times 40 "=" ++ " 已选文件结构概览 " ++ times 40 "=" ++ newline ++ newline)%string;
      _generate_file_tree_string false;
      (newline ++ newline ++ times 40 "=" ++ " 文件内容详情 " ++ times 40 "="
       ++ newline ++ newline)%string].

End TreeRenderer.

(** [_set_source_directory]: the output file it proposes lies in the source
    directory. *)
Definition default_output_file (source_dir : path) : path :=
  join source_dir (basename source_dir ++ "_dump.txt")%string.

(** [open(self.output_file, "w")] creates the file, or empties the one that
    is there: [put_entry] and [fs_put] give the snapshot with the node [new]
    at the position [rel], when the directory that is to hold it exists. *)
Fixpoint put_entry (name : string) (new : fsnode) (es : list (string * fsnode))
  : list (string * fsnode) :=
  match es with
  | [] => [(name, new)]
  | (n, c) :: es' =>
      if String.eqb name n then (n, new) :: es' else (n, c) :: put_entry name new es'
  end.

Fixpoint fs_put (rel : path) (new : fsnode) (n : fsnode) : fsnode :=
  match rel with
  | [] => n
  | name :: rest =>
      match n with
      | Dir es =>
          match rest with
          | [] => Dir (put_entry name new es)
          | _ :: _ =>
              Dir (map (fun e => if String.eqb name (fst e)
                                 then (fst e, fs_put rest new (snd e))
                                 else e) es)
          end
      | _ => n
      end
  end.

(** The snapshot below the source directory once the output file is open;
    [seen] is the output file as the later accesses of the run find it. *)
Definition after_open (fs : fsnode) (source_dir output_file : path) (seen : fsnode)
  : fsnode :=
  match strip_prefix source_dir output_file with
  | Some rel => fs_put rel seen fs
  | None => fs
  end.

(** The messages [process_files] hands to [self.after]. *)
Inductive message :=
  | Collecting
  | FullTreeStatus
  | SelectedTreeStatus
  | Processing (filepath : path)
  | GenerationComplete (count : nat)
  | ErrorBox
  | EnableButton.

(** What the surroundings answer during one run of [process_files].  Every
    step named here can raise; a step that raises outside the [try] of one
    file ends the run in the handler of line 627. *)
Record effects := {
  (** [float(self.max_size_var.get())]; [None]: it raises *)
  max_size_read : option Q;
  (** whether [self.after(0, ...)] with the message returns *)
  post : message -> bool;
  (** whether the loop of lines 587-593 returns: the widgets that
      [_is_path_ignored] and [_is_path_selected] read answer *)
  files_collected : bool;
  (** whether [open(self.output_file, "w")] returns *)
  output_opens : bool;
  (** the output file as the run finds it once it is open *)
  seen_output : fsnode;
  (** [self.include_full_tree_var.get()]; [None]: it raises *)
  include_full_tree_read : option bool;
  (** whether lines 597-600 return: the full listing is made and the three
      writes return *)
  full_tree_written : bool;
  (** whether lines 602-605 return: the selected listing is made and the
      three writes return *)
  selected_tree_written : bool;
  (** how many of the three writes of the block of a file return, three or
      more when all do *)
  block_writes : path -> nat;
  (** whether the output file is flushed and closed when the [with] ends *)
  output_closes : bool
}.

Section DumpGenerator.

Variable lower : string -> string.

(** [chardet.detect] and [bytes.decode(encoding, errors='ignore')] on the
    bytes read: the text, or [None] when they raise (a codec that Python
    does not know). *)
Variable decode : list byte -> option string.

Variable fs : fsnode.
Variable source_dir : path.
Variable cfg : filter_config.
Variable t : item.
Variable e : effects.
Variable output_file : path.

(** The snapshot that the listings and the accesses to the files find. *)
Definition opened : fsnode := after_open fs source_dir output_file (seen_output e).

(** The body of the loop over [files_to_process], after the status is
    posted. *)
Definition process_one (max_size : Q) (filepath : path) : file_result :=
  match getsize opened source_dir filepath with
  | None => Skipped
  | Some size =>
      if negb (Qle_bool (inject_Z size) max_size) then Skipped
      else if _is_binary_file opened source_dir filepath then Skipped
      else match read_all opened source_dir filepath with
           | None => Failed []
           | Some raw_data =>
               match decode raw_data with
               | None => Failed []
               | Some content =>
                   if 3 <=? block_writes e filepath then Written content
                   else Failed (firstn (block_writes e filepath)
                                       (block source_dir filepath content))
               end
           end
  end.

(** The loop over [files_to_process]: the results of the files reached, and
    whether the loop came to its end; it stops at the first file whose
    status cannot be posted. *)
Fixpoint process_loop (max_size : Q) (files : list path)
  : list (path * file_result) * bool :=
  match files with
  | [] => ([], true)
  | filepath :: rest =>
      if post e (Processing filepath) then
        let (results, finished) := process_loop max_size rest in
        ((filepath, process_one max_size filepath) :: results, finished)
      else ([], false)
  end.

Definition pieces_of (filepath : path) (r : file_result) : list string :=
  match r with
  | Skipped => []
  | Written content => block source_dir filepath content
  | Failed partial => partial
  end.

Definition log_of (filepath : path) (r : file_result) : list log_entry :=
  match r with
  | Failed _ => [FileError filepath]
  | _ => []
  end.

Definition is_written (r : file_result) : bool :=
  match r with
  | Written _ => true
  | _ => false
  end.

(** The handler of line 627: the error is logged, then the error box is
    posted. *)
Definition critical (errors : list log_entry) (doc : option (list string))
           (written : list path) : run :=
  {| notified := if post e ErrorBox then Some Failure else None;
     logged := errors ++ [CriticalError];
     document := doc;
     written_files := written |}.

(** [process_files]. *)
Definition process_files : run :=
  match max_size_read e with
  | None => critical [] None []
  | Some mb =>
      let max_size := (mb * 1024 * 1024)%Q in
      if negb (post e Collecting && files_collected e) then critical [] None []
      else
        let files := files_to_process lower fs source_dir cfg t in
        if negb (output_opens e) then critical [] None []
        else
          match include_full_tree_read e with
          | None => critical [] None []
          | Some include_full_tree =>
              if include_full_tree
                 && negb (post e FullTreeStatus && full_tree_written e)
              then critical [] None []
              else if negb (post e SelectedTreeStatus && selected_tree_written e)
              then critical [] None []
              else
                let (results, finished) := process_loop max_size files in
                let errors := flat_map (fun r => log_of (fst r) (snd r)) results in
                let written := map fst (filter (fun r => is_written (snd r)) results) in
                let doc :=
                  if finished && output_closes e
                  then Some (header lower opened source_dir cfg t include_full_tree
                             ++ flat_map (fun r => pieces_of (fst r) (snd r)) results)
                  else None in
                if finished && output_closes e
                   && post e (GenerationComplete (List.length files))
                then {| notified := Some (Complete (List.length files));
                        logged := errors;
                        document := doc;
                        written_files := written |}
                else critical errors doc written
          end
  end.

End DumpGenerator.

(** ** Auxiliary definitions used by the proofs *)

(** The row [new] put at position [pos] (root first), every row on the way
    taking the state its children determine: what [_update_parent_state]
    leaves after a row was replaced. *)
Fixpoint rebuild (t : item) (pos : list nat) (new : item) : item :=
  match pos with
  | [] => new
  | k :: rest =>
      match t with
      | Node n _ kids =>
          let kids' := list_update k (fun c => rebuild c rest new) kids in
          Node n (parent_state_of kids') kids'
      | _ => t
      end
  end.

(** The row reached from [t] by following names. *)
Fixpoint find_node (t : item) (rel : path) : option item :=
  match rel with
  | [] => Some t
  | name :: rest =>
      match find_child name (get_children t) with
      | Some (_, c) => find_node c rest
      | None => None
      end
  end.

(** A state a click can give. *)
Definition explicit (s : state) : Prop := s = Checked \/ s = Unchecked.

(** Every row below [it] that is reached without crossing a ["loading..."]
    row has state [st]. *)
Fixpoint all_loaded_are (st : state) (it : item) : Prop :=
  match it with
  | Node _ s kids =>
      s = st /\
      (fix each (l : list item) : Prop :=
         match l with
         | [] => True
         | c :: l' => (is_loading c = true \/ all_loaded_are st c) /\ each l'
         end) kids
  | Loading => True
  | ErrorEntry s => s = st
  end.

(** The children of a row after [_update_children_state]. *)
Definition toggle_kids (st : state) (kids : list item) : list item :=
  map (fun c => if is_loading c then c else toggle_item st c) kids.

(** [a] is the id of a row strictly above the row [i]. *)
Definition strict_ancestor (a i : iid) : Prop :=
  exists b, b <> [] /\ i = b ++ a.

(** The states a directory can take from its children. *)
Definition tri (s : state) : Prop := s = Checked \/ s = Unchecked \/ s = Tristate.

(** The name of a row made by [_add_node_to_tree]. *)
Definition name_of (it : item) : option string :=
  match it with
  | Node n _ _ => Some n
  | _ => None
  end.

(** ** A snapshot used in the examples

    [proj/{sub/{b.py, c.bin}, a.txt, node_modules/x.js, gone.txt}]:
    [c.bin] holds a NUL byte, and the size of [gone.txt] cannot be read. *)
Definition demo_src : path := ["home"; "proj"].

Definition demo_fs : fsnode :=
  Dir [("sub", Dir [("b.py", File (Some 3%Z) (Some [x70; x72; x0a]) (Some [x70; x72; x0a]));
                    ("c.bin", File (Some 2%Z) (Some [x00; x01]) (Some [x00; x01]))]);
       ("a.txt", File (Some 1%Z) (Some [x61]) (Some [x61]));
       ("node_modules", Dir [("x.js", File (Some 1%Z) (Some [x78]) (Some [x78]))]);
       ("gone.txt", File None None None)].

(** The rows after the project is loaded with nothing stored, [sub] is
    opened and [b.py] is clicked: [sub] and the root are [Tristate]. *)
Definition demo_app : app :=
  run_events demo_fs demo_src [Open [3]; Click [0; 3]] (_set_source_directory demo_fs demo_src []).

(** The whole project checked by a click on the root row. *)
Definition demo_all : app :=
  run_events demo_fs demo_src [Click []] (_set_source_directory demo_fs demo_src []).

(** What the listing of the selected tree may hold: entries that are not
    ignored and are effectively selected. *)
Definition listed_ok (lower : string -> string) (source_dir : path) (cfg : filter_config)
           (t : item) (e : path * string) : Prop :=
  _is_path_ignored lower cfg (fst e) = false /\
  _is_path_selected source_dir t (fst e) = true.

Definition below_ok (lower : string -> string) (source_dir : path) (cfg : filter_config)
           (t : item) (r : rendered) : Prop :=
  forall prefix, Forall (listed_ok lower source_dir cfg t) (snd (snd r) prefix).

(** The row [new] put at position [pos], the state of every row on the way
    given by [g] from its old state and its new children: [set_at] keeps the
    state, [rebuild] takes the state the children determine. *)
Fixpoint replace_at (g : state -> list item -> state) (t : item) (pos : list nat)
         (new : item) : item :=
  match pos with
  | [] => new
  | k :: rest =>
      match t with
      | Node n s kids =>
          let kids' := list_update k (fun c => replace_at g c rest new) kids in
          Node n (g s kids') kids'
      | _ => t
      end
  end.

(** The full path of the row at [pos] below the row [t] of path [p]. *)
Fixpoint path_at (p : path) (t : item) (pos : list nat) : path :=
  match pos with
  | [] => p
  | k :: rest =>
      match nth_error (get_children t) k with
      | Some (Node m _ _ as c) => path_at (join p m) c rest
      | _ => p
      end
  end.

(** The invariant of the rows below a source directory: a row that still
    holds its ["loading..."] row holds nothing else and is [Checked] or
    [Unchecked]; so is a row without children; and only the row of a
    directory has children. *)
Fixpoint well_formed (fs : fsnode) (source_dir : path) (p : path) (it : item) : Prop :=
  match it with
  | Node _ s kids =>
      ((kids = [Loading] /\ explicit s) \/
       (Forall (fun c => is_loading c = false) kids /\ (kids = [] -> explicit s))) /\
      (kids <> [] -> isdir fs source_dir p = true) /\
      (fix each (l : list item) : Prop :=
         match l with
         | [] => True
         | c :: l' =>
             match c with
             | Node m _ _ => well_formed fs source_dir (join p m) c
             | _ => True
             end /\ each l'
         end) kids
  | _ => True
  end.

Definition well_formed_child (fs : fsnode) (source_dir : path) (p : path) (c : item) : Prop :=
  match c with
  | Node m _ _ => well_formed fs source_dir (join p m) c
  | _ => True
  end.

(** The states of the application: a project is loaded with any stored
    settings, and any events follow. *)
Definition reachable (fs : fsnode) (source_dir : path) (a : app) : Prop :=
  exists stored_paths es,
    a = run_events fs source_dir es (_set_source_directory fs source_dir stored_paths).

(** The whole project checked, then [sub] opened: its rows arrive checked. *)
Definition demo_all_opened : app :=
  run_events demo_fs demo_src [Click []; Open [3]] (_set_source_directory demo_fs demo_src []).

(** ** Definitions for the round trip of the settings *)

(** The names [populate_tree] lists below the source directory. *)
Definition root_listing (fs : fsnode) : list string :=
  match fs with
  | Dir es => sorted (map fst es)
  | _ => []
  end.

(** The root row holds one row per listed name, and has the state its
    children determine. *)
Definition root_ok (fs : fsnode) (t : item) : Prop :=
  exists rn rs kids,
    t = Node rn rs kids /\
    map name_of kids = map Some (root_listing fs) /\
    (kids <> [] -> rs = parent_state_of kids) /\
    (kids = [] -> explicit rs).

(** Every row made by [_add_node_to_tree] at or below [it] has state [s]. *)
Fixpoint all_rows_are (s : state) (it : item) : bool :=
  match it with
  | Node _ s' kids => state_eqb s' s && forallb (all_rows_are s) kids
  | _ => true
  end.

(** Below the root, every row has the state of the child of the root it
    lies under, and that state is [Checked] or [Unchecked]. *)
Definition uniform_below_root (t : item) : bool :=
  forallb (fun c => (state_eqb (item_state c) Checked || state_eqb (item_state c) Unchecked)
                    && all_rows_are (item_state c) c)
          (get_children t).

(** The row [populate_tree] makes for a name of the source directory. *)
Definition fresh_row (fs : fsnode) (source_dir : path) (checked : list path)
           (name : string) : item :=
  _add_node_to_tree fs source_dir checked (join source_dir name).

(** Save, then load and rebuild. *)
Definition reload (fs : fsnode) (source_dir : path) (t : item) : item :=
  populate_tree fs source_dir (_save_settings_for_current_project source_dir t).

(** The children of a row when the first [j] of them have been toggled. *)
Fixpoint toggle_first (st : state) (j : nat) (kids : list item) : list item :=
  match j, kids with
  | S j', c :: l => (if is_loading c then c else toggle_item st c) :: toggle_first st j' l
  | _, _ => kids
  end.

(** The tree [acc] that the loop of [_update_children_state] over the
    children of the row [item_id] holds after [j] children, when the loop
    started from the tree [start]: nothing has changed as long as only
    ["loading..."] rows were met, and otherwise the last [toggle_check] has
    recomputed the row and the rows above it. *)
Definition after_children (st : state) (start : item) (item_id : iid) (n : string)
           (s0 : state) (kids : list item) (j : nat) (acc : item) : Prop :=
  if existsb (fun c => negb (is_loading c)) (firstn j kids)
  then acc = rebuild start (rev item_id)
                     (Node n (parent_state_of (toggle_first st j kids))
                           (toggle_first st j kids))
  else acc = start /\ toggle_first st j kids = kids.

(** ** Definitions for the further properties of the selection tree *)

(** Two item ids neither of which is the other or above the other: their
    positions leave a common row through different children. *)
Definition apart (i j : iid) : Prop :=
  exists c a b r1 r2, a <> b /\ rev i = c ++ a :: r1 /\ rev j = c ++ b :: r2.

(** The entries of every directory of the snapshot have distinct names. *)
Fixpoint fs_distinct (n : fsnode) : Prop :=
  match n with
  | Dir es =>
      NoDup (map fst es) /\
      (fix each (es : list (string * fsnode)) : Prop :=
         match es with
         | [] => True
         | (_, c) :: es' => fs_distinct c /\ each es'
         end) es
  | _ => True
  end.

(** The names of the rows made by [_add_node_to_tree] among [kids]. *)
Fixpoint row_names (kids : list item) : list string :=
  match kids with
  | [] => []
  | Node m _ _ :: kids' => m :: row_names kids'
  | _ :: kids' => row_names kids'
  end.

(** No two sibling rows have the same name, anywhere in the tree. *)
Fixpoint distinct_names (it : item) : Prop :=
  match it with
  | Node _ _ kids =>
      NoDup (row_names kids) /\
      (fix each (l : list item) : Prop :=
         match l with
         | [] => True
         | c :: l' => distinct_names c /\ each l'
         end) kids
  | _ => True
  end.

(** ** ConfigManager *)

(** A [dict] as the list of its items in insertion order; a key is looked
    up from the front. *)
Section Dict.

Context {K V : Type}.
Variable eqb : K -> K -> bool.

(** [d.get(k)] *)
Fixpoint dict_get (k : K) (d : list (K * V)) : option V :=
  match d with
  | [] => None
  | (k', v) :: d' => if eqb k k' then Some v else dict_get k d'
  end.

(** [d[k] = v] *)
Fixpoint dict_set (k : K) (v : V) (d : list (K * V)) : list (K * V) :=
  match d with
  | [] => [(k, v)]
  | (k', v') :: d' => if eqb k k' then (k', v) :: d' else (k', v') :: dict_set k v d'
  end.

(** [d.pop(k, None)]: the value and the dict that is left. *)
Definition dict_pop (k : K) (d : list (K * V)) : option V * list (K * V) :=
  (dict_get k d, filter (fun e => negb (eqb k (fst e))) d).

(** [d.update(other)] *)
Definition dict_update (d other : list (K * V)) : list (K * V) :=
  fold_left (fun acc e => dict_set (fst e) (snd e) acc) other d.

End Dict.

(** A value of a settings dict, of one of the types the application
    writes. *)
Inductive value :=
  | VBool (b : bool)
  | VNumber (q : Q)
  | VStrings (l : list string)
  | VPaths (l : list path).

Definition settings := list (string * value).

Definition default_settings : settings :=
  [("ignored_dirs", VStrings ["__pycache__"; ".git"; ".idea"; ".vscode"; "node_modules";
                              "dist"; "build"; "venv"; "target"]);
   ("ignored_exts", VStrings [".pyc"; ".pyd"; ".so"; ".dll"; ".exe"; ".jpg"; ".png"; ".gif";
                              ".zip"; ".rar"; ".pdf"; ".db"; ".lock"; ".log"]);
   ("max_size_mb", VNumber (inject_Z 5));
   ("include_full_tree", VBool true);
   ("checked_paths", VPaths [])].

(** [config_data]: a dict that may hold ["projects"], a dict from resolved
    project paths to settings dicts, and ["last_used_project"]. *)
Record config := {
  projects : option (list (path * settings));
  last_used_project : option path
}.

(** [{"projects": {}, "last_used_project": ""}] *)
Definition empty_config : config :=
  {| projects := Some []; last_used_project := Some [] |}.

(** The config file as [load_config] finds it: absent
    ([FileNotFoundError]); text that is not JSON ([json.JSONDecodeError]);
    a file that cannot be opened or whose bytes are not UTF-8 (another
    exception); or the JSON of a config. *)
Inductive stored_file :=
  | Missing
  | NotJson
  | Unreadable
  | Holds (c : config).

Record manager := {
  config_data : config;
  config_file : stored_file
}.

(** [load_config]; [None] when it raises: only the first two failures are
    caught. *)
Definition load_config (m : manager) : option manager :=
  match config_file m with
  | Holds c => Some {| config_data := c; config_file := config_file m |}
  | Missing | NotJson => Some {| config_data := empty_config; config_file := config_file m |}
  | Unreadable => None
  end.

(** [save_config]; [opens] tells whether the file opens for writing, and a
    failure is logged and swallowed. *)
Definition save_config (opens : bool) (m : manager) : manager :=
  if opens then {| config_data := config_data m; config_file := Holds (config_data m) |}
  else m.

(** [ConfigManager.__init__] over the config file found at the start;
    [None] when [load_config] raises. *)
Definition ConfigManager_init (opens : bool) (file : stored_file) : option manager :=
  let m := {| config_data := {| projects := None; last_used_project := None |};
              config_file := file |} in
  let m1 := match file with
            | Missing => save_config opens m
            | _ => m
            end in
  load_config m1.

Definition get_project_settings (c : config) (project_path : path) : settings :=
  let project_path_str := resolve project_path in
  let project_settings := default_settings in
  match dict_get path_eqb project_path_str
                 (match projects c with Some ps => ps | None => [] end) with
  | Some ((_ :: _) as project_settings_saved) =>
      dict_update String.eqb project_settings project_settings_saved
  | _ => project_settings
  end.

Definition save_project_settings (opens : bool) (project_path : path) (s : settings)
           (m : manager) : manager :=
  match project_path with
  | [] => m
  | _ =>
      let project_path_str := resolve project_path in
      let ps := match projects (config_data m) with Some ps => ps | None => [] end in
      save_config opens
        {| config_data := {| projects := Some (dict_set path_eqb project_path_str s ps);
                             last_used_project := Some project_path_str |};
           config_file := config_file m |}
  end.

(** [reset_project_to_default]: the manager it leaves and the value it
    returns. *)
Definition reset_project_to_default (opens : bool) (project_path : path) (m : manager)
  : manager * bool :=
  match project_path with
  | [] => (m, false)
  | _ =>
      let project_path_str := resolve project_path in
      match projects (config_data m) with
      | None => (m, false)
      | Some ps =>
          let (popped, ps') := dict_pop path_eqb project_path_str ps in
          let m' := {| config_data :=
                         {| projects := Some ps';
                            last_used_project := last_used_project (config_data m) |};
                       config_file := config_file m |} in
          match popped with
          | Some (_ :: _) => (save_config opens m', true)
          | _ => (m', false)
          end
      end
  end.

Definition clear_all_configs (opens : bool) (m : manager) : manager :=
  save_config opens {| config_data := empty_config; config_file := config_file m |}.

(** ** The settings of the current project *)

(** The widgets that hold the settings: the two lists, the size field (the
    number [float] reads in it, [None] when it rejects the text) and the
    check box. *)
Record controls := {
  ignored_dirs_list : list string;
  ignored_exts_list : list string;
  max_size_var : option Q;
  include_full_tree_var : bool
}.

Module Settings.

(** [_save_settings_for_current_project], with the settings dict it
    stores. *)
Definition _save_settings_for_current_project
           (opens : bool) (source_dir : path) (t : item) (ui : controls) (m : manager)
  : manager :=
  match source_dir with
  | [] => m
  | _ =>
      let checked_paths := _save_settings_for_current_project source_dir t in
      let max_size_val := match max_size_var ui with
                          | Some q => q
                          | None => inject_Z 5
                          end in
      save_project_settings opens source_dir
        [("ignored_dirs", VStrings (ignored_dirs_list ui));
         ("ignored_exts", VStrings (ignored_exts_list ui));
         ("max_size_mb", VNumber max_size_val);
         ("include_full_tree", VBool (include_full_tree_var ui));
         ("checked_paths", VPaths checked_paths)] m
  end.

(** [_load_settings_for_current_project]: the widgets as it leaves them and
    the settings it returns; [None] when a stored value is not of the type
    the application writes for its key. *)
Definition _load_settings_for_current_project
           (source_dir : path) (ui : controls) (m : manager) : option (controls * settings) :=
  match source_dir with
  | [] => Some (ui, [])
  | _ =>
      let s := get_project_settings (config_data m) source_dir in
      match dict_get String.eqb "ignored_dirs" s, dict_get String.eqb "ignored_exts" s,
            dict_get String.eqb "max_size_mb" s, dict_get String.eqb "include_full_tree" s with
      | Some (VStrings dirs), Some (VStrings exts), Some (VNumber mb), Some (VBool full) =>
          Some ({| ignored_dirs_list := dirs;
                   ignored_exts_list := exts;
                   max_size_var := Some mb;
                   include_full_tree_var := full |}, s)
      | _, _, _, _ => None
      end
  end.

(** [settings.get('checked_paths', [])] *)
Definition checked_paths_of (s : settings) : list path :=
  match dict_get String.eqb "checked_paths" s with
  | Some (VPaths l) => l
  | _ => []
  end.

End Settings.

(** ** EditableListbox *)

(** [str.strip] removes the white space of Unicode at both ends; the
    functions that call it take it as their first argument [strip], a
    function on strings of which nothing is assumed. *)

(** [str.strip] on the texts of ASCII characters: the instance on which the
    examples are evaluated. *)
Definition is_space (c : ascii) : bool :=
  let n := nat_of_ascii c in
  ((9 <=? n) && (n <=? 13) || (28 <=? n) && (n <=? 32))%nat.

Fixpoint lstrip (l : list ascii) : list ascii :=
  match l with
  | c :: l' => if is_space c then lstrip l' else l
  | [] => []
  end.

Definition ascii_strip (s : string) : string :=
  string_of_list_ascii (rev (lstrip (rev (lstrip (list_ascii_of_string s))))).

(** The rows of the list, each with its item id and its text, the next id
    the widget gives, and the edit in progress: the edited item, and the
    text of the edit entry when there is one. *)
Record listbox := {
  rows : list (nat * string);
  next_id : nat;
  edit_item : option nat;
  edit_entry : option string
}.

Definition get_all_items (lb : listbox) : list string := map snd (rows lb).

Definition add_item_to_tree (text : string) (lb : listbox) : listbox :=
  {| rows := rows lb ++ [(next_id lb, text)];
     next_id := S (next_id lb);
     edit_item := edit_item lb;
     edit_entry := edit_entry lb |}.

Definition set_items (items : list string) (lb : listbox) : listbox :=
  fold_left (fun acc item => add_item_to_tree item acc) items
            {| rows := []; next_id := next_id lb;
               edit_item := edit_item lb; edit_entry := edit_entry lb |}.

(** [add_item] with the text of the entry; the boolean tells whether
    [on_change_callback] is called. *)
Definition add_item (strip : string -> string) (entry_text : string) (lb : listbox)
  : listbox * bool :=
  let text := strip entry_text in
  if negb (String.eqb text "") && negb (mem_string text (get_all_items lb))
  then (add_item_to_tree text lb, true)
  else (lb, false).

Definition cleanup_edit (lb : listbox) : listbox :=
  {| rows := rows lb; next_id := next_id lb; edit_item := None; edit_entry := None |}.

(** [finish_edit]; when the edited item is no longer in the list, setting
    its text raises and nothing changes. *)
Definition finish_edit (strip : string -> string) (lb : listbox) : listbox * bool :=
  match edit_item lb, edit_entry lb with
  | Some item, Some entry_text =>
      let new_text := strip entry_text in
      let others :=
        map snd (filter (fun r => negb (Nat.eqb (fst r) item)) (rows lb)) in
      if negb (String.eqb new_text "") && negb (mem_string new_text others)
      then
        if existsb (fun r => Nat.eqb (fst r) item) (rows lb)
        then (cleanup_edit
                {| rows := map (fun r => if Nat.eqb (fst r) item then (fst r, new_text) else r)
                               (rows lb);
                   next_id := next_id lb;
                   edit_item := edit_item lb;
                   edit_entry := edit_entry lb |}, true)
        else (lb, false)
      else (cleanup_edit lb, false)
  | _, _ => (lb, false)
  end.

(** [delete_item]; [confirmed] is the answer to the question asked. *)
Definition delete_item (confirmed : bool) (item : nat) (lb : listbox) : listbox * bool :=
  if existsb (fun r => Nat.eqb (fst r) item) (rows lb) && confirmed
  then ({| rows := filter (fun r => negb (Nat.eqb (fst r) item)) (rows lb);
           next_id := next_id lb;
           edit_item := edit_item lb;
           edit_entry := edit_entry lb |}, true)
  else (lb, false).

(** The list holds no empty text and no text twice, and its item ids are
    distinct and below the next id. *)
Definition tidy (lb : listbox) : Prop :=
  NoDup (get_all_items lb) /\ ~ In ""%string (get_all_items lb) /\
  NoDup (map fst (rows lb)) /\ Forall (fun r => fst r < next_id lb) (rows lb).

(** ** The surroundings of the examples *)

(** The bytes of a text of ASCII characters, decoded. *)
Definition ascii_decode (raw : list byte) : option string :=
  Some (string_of_list_byte raw).

(** An output file outside the demo project. *)
Definition demo_output : path := ["home"; "out"; "dump.txt"].

(** Surroundings in which every step of a run returns. *)
Definition all_well (mb : Q) (include_full_tree : bool) : effects :=
  {| max_size_read := Some mb;
     post := fun _ => true;
     files_collected := true;
     output_opens := true;
     seen_output := File (Some 0%Z) (Some []) (Some []);
     include_full_tree_read := Some include_full_tree;
     full_tree_written := true;
     selected_tree_written := true;
     block_writes := fun _ => 3;
     output_closes := true |}.

(** The files that the loop of [process_files] reaches: those before the
    first file whose status cannot be posted. *)
Fixpoint reached (e : effects) (files : list path) : list path :=
  match files with
  | [] => []
  | filepath :: rest =>
      if post e (Processing filepath) then filepath :: reached e rest else []
  end.

(** * Properties *)

(** ** The definitions on the demo snapshot *)

Example ignored_segment :
  _is_path_ignored ascii_lower default_filter ["home"; "u"; "proj"; "Node_Modules"; "x.js"] = true.
Proof. reflexivity. Qed.

Example ignored_extension :
  _is_path_ignored ascii_lower default_filter ["home"; "u"; "proj"; "a.PNG"] = true.
Proof. reflexivity. Qed.

Example dotfile_has_no_extension :
  splitext_ext ".lock" = "" /\ _is_path_ignored ascii_lower default_filter ["home"; "u"; ".lock"] = false.
Proof. split; reflexivity. Qed.

Example demo_loaded :
  tree (_set_source_directory demo_fs demo_src []) =
  Node "proj" Unchecked
       [Node "a.txt" Unchecked []; Node "gone.txt" Unchecked [];
        Node "node_modules" Unchecked [Loading]; Node "sub" Unchecked [Loading]].
Proof. reflexivity. Qed.

Example demo_app_tree :
  tree demo_app =
  Node "proj" Tristate
       [Node "a.txt" Unchecked []; Node "gone.txt" Unchecked [];
        Node "node_modules" Unchecked [Loading];
        Node "sub" Tristate [Node "b.py" Checked []; Node "c.bin" Unchecked []]].
Proof. reflexivity. Qed.

Example demo_all_opened_tree :
  tree demo_all_opened =
  Node "proj" Checked
       [Node "a.txt" Checked []; Node "gone.txt" Checked [];
        Node "node_modules" Checked [Loading];
        Node "sub" Checked [Node "b.py" Checked []; Node "c.bin" Checked []]].
Proof. reflexivity. Qed.

Example demo_calls_agree :
  toggle_check_calls 3 [3] Checked (tree demo_app) = toggle_check [3] Checked (tree demo_app).
Proof. reflexivity. Qed.

Example demo_selected_listing :
  map snd (file_tree_entries ascii_lower demo_fs demo_src default_filter (tree demo_app) false)
  = ["└─ sub"; "    ├─ b.py"].
Proof. reflexivity. Qed.

Example demo_collected :
  files_to_process ascii_lower demo_fs demo_src default_filter (tree demo_all)
  = [demo_src ++ ["a.txt"]; demo_src ++ ["gone.txt"];
     demo_src ++ ["sub"; "b.py"]; demo_src ++ ["sub"; "c.bin"]].
Proof. reflexivity. Qed.

Example read_failure_is_logged :
  let fs := Dir [("x.txt", File (Some 1%Z) (Some [x61]) None)] in
  let t := tree (run_events fs demo_src [Click []] (_set_source_directory fs demo_src [])) in
  let r := process_files ascii_lower ascii_decode fs demo_src default_filter t
                         (all_well 5%Q false) demo_output in
  logged r = [FileError (demo_src ++ ["x.txt"])] /\ written_files r = [] /\
  notified r = Some (Complete 1).
Proof. vm_compute. repeat split. Qed.

(** ** Lists, paths and positions *)

Lemma path_eqb_eq (p q : path) : path_eqb p q = true <-> p = q.
Proof.
  revert q; induction p as [|a p IH]; intros [|b q]; simpl; split; try congruence; intro H.
  - apply andb_true_iff in H as [Hab Hpq].
    apply String.eqb_eq in Hab. apply IH in Hpq. congruence.
  - injection H as -> ->. apply andb_true_iff; split.
    + apply String.eqb_refl.
    + now apply IH.
Qed.

Lemma path_eqb_refl (p : path) : path_eqb p p = true.
Proof. now apply path_eqb_eq. Qed.

Lemma mem_path_In (p : path) (ps : list path) : mem_path p ps = true <-> In p ps.
Proof.
  unfold mem_path. rewrite existsb_exists. split.
  - intros (q & Hq & Heq). apply path_eqb_eq in Heq. now subst.
  - intro H. exists p. split; [assumption | apply path_eqb_refl].
Qed.

Lemma strip_prefix_app (src rel : path) : strip_prefix src (src ++ rel) = Some rel.
Proof.
  induction src as [|a src IH]; simpl; [reflexivity|].
  now rewrite String.eqb_refl.
Qed.

Lemma strip_prefix_Some (src p rel : path) :
  strip_prefix src p = Some rel -> p = src ++ rel.
Proof.
  revert p; induction src as [|a src IH]; intros [|b p]; simpl; try congruence.
  destruct (String.eqb a b) eqn:E; [|discriminate].
  apply String.eqb_eq in E. subst b. intro H. f_equal. now apply IH.
Qed.

Lemma nth_error_list_update {A} (f : A -> A) (l : list A) (k j : nat) :
  nth_error (list_update k f l) j =
  if Nat.eqb j k then option_map f (nth_error l j) else nth_error l j.
Proof.
  revert k j; induction l as [|x l IH]; intros [|k] [|j]; simpl; try reflexivity.
  - now destruct (Nat.eqb j k).
  - apply IH.
Qed.

Lemma list_update_length {A} (f : A -> A) (l : list A) (k : nat) :
  List.length (list_update k f l) = List.length l.
Proof.
  revert k; induction l as [|x l IH]; intros [|k]; simpl; auto.
Qed.

Lemma list_update_ext {A} (f g : A -> A) (l : list A) (k : nat) :
  (forall x, nth_error l k = Some x -> f x = g x) ->
  list_update k f l = list_update k g l.
Proof.
  revert k; induction l as [|x l IH]; intros [|k] H; simpl; try reflexivity.
  - f_equal. now apply H.
  - f_equal. apply IH. exact H.
Qed.

Lemma list_update_twice {A} (f g : A -> A) (l : list A) (k : nat) :
  list_update k f (list_update k g l) = list_update k (fun x => f (g x)) l.
Proof.
  revert k; induction l as [|x l IH]; intros [|k]; simpl; try reflexivity.
  f_equal. apply IH.
Qed.

Lemma list_update_id {A} (f : A -> A) (l : list A) (k : nat) :
  (forall x, nth_error l k = Some x -> f x = x) ->
  list_update k f l = l.
Proof.
  revert k; induction l as [|x l IH]; intros [|k] H; simpl; try reflexivity.
  - f_equal. now apply H.
  - f_equal. apply IH. exact H.
Qed.

(** ** Rows and positions *)

Lemma get_at_app (t : item) (a b : list nat) :
  get_at t (a ++ b) = match get_at t a with
                      | Some c => get_at c b
                      | None => None
                      end.
Proof.
  revert t; induction a as [|k a IH]; intro t; simpl; [reflexivity|].
  destruct (nth_error (get_children t) k); [apply IH | reflexivity].
Qed.

Lemma get_at_snoc (t c : item) (pp : list nat) (k : nat) :
  get_at t (pp ++ [k]) = Some c ->
  exists n s kids, get_at t pp = Some (Node n s kids) /\ nth_error kids k = Some c.
Proof.
  rewrite get_at_app. destruct (get_at t pp) as [p|]; [|discriminate].
  simpl. destruct p as [n s kids| |]; simpl.
  - destruct (nth_error kids k) eqn:E; [|discriminate].
    intro H; injection H as ->. now exists n, s, kids.
  - destruct k; discriminate.
  - destruct k; discriminate.
Qed.

Lemma get_at_set_at_same (t x new : item) (pos : list nat) :
  get_at t pos = Some x -> get_at (set_at t pos new) pos = Some new.
Proof.
  revert t; induction pos as [|k pos IH]; intro t; simpl; [reflexivity|].
  destruct t as [n s kids| |]; simpl; try (destruct k; discriminate).
  rewrite nth_error_list_update, Nat.eqb_refl.
  destruct (nth_error kids k); simpl; [apply IH | discriminate].
Qed.

Lemma set_at_above (t x y : item) (a b : list nat) :
  set_at (set_at t (a ++ b) x) a y = set_at t a y.
Proof.
  revert t; induction a as [|k a IH]; intro t; simpl; [reflexivity|].
  destruct t as [n s kids| |]; simpl; try reflexivity.
  f_equal. rewrite list_update_twice. apply list_update_ext. intros; apply IH.
Qed.

Lemma set_at_twice (t x y : item) (a : list nat) :
  set_at (set_at t a x) a y = set_at t a y.
Proof.
  pose proof (set_at_above t x y a []) as H. now rewrite app_nil_r in H.
Qed.

Lemma set_at_get_id (t it : item) (pos : list nat) :
  get_at t pos = Some it -> set_at t pos it = t.
Proof.
  revert t; induction pos as [|k pos IH]; intro t; simpl.
  - congruence.
  - destruct t as [n s kids| |]; simpl; try reflexivity.
    intro H. f_equal. apply list_update_id. intros x Hx. rewrite Hx in H. now apply IH.
Qed.

Lemma set_at_snoc (t new : item) (pp : list nat) (k : nat) n s kids :
  get_at t pp = Some (Node n s kids) ->
  set_at t (pp ++ [k]) new = set_at t pp (Node n s (list_update k (fun _ => new) kids)).
Proof.
  revert t; induction pp as [|j pp IH]; intro t; simpl.
  - intro H; injection H as ->. reflexivity.
  - destruct t as [m r ks| |]; simpl; try (destruct j; discriminate).
    intro H. f_equal. apply list_update_ext. intros x Hx. rewrite Hx in H. now apply IH.
Qed.

Lemma rebuild_snoc (t new : item) (pp : list nat) (k : nat) n s kids :
  get_at t pp = Some (Node n s kids) ->
  rebuild t (pp ++ [k]) new =
  rebuild t pp (Node n (parent_state_of (list_update k (fun _ => new) kids))
                     (list_update k (fun _ => new) kids)).
Proof.
  revert t; induction pp as [|j pp IH]; intro t; simpl.
  - intro H; injection H as ->. reflexivity.
  - destruct t as [m r ks| |]; simpl; try (destruct j; discriminate).
    intro H.
    assert (E : list_update j (fun c => rebuild c (pp ++ [k]) new) ks =
                list_update j (fun c => rebuild c pp
                   (Node n (parent_state_of (list_update k (fun _ => new) kids))
                         (list_update k (fun _ => new) kids))) ks).
    { apply list_update_ext. intros x Hx. rewrite Hx in H. now apply IH. }
    now rewrite E.
Qed.

(** [_update_parent_state], run after the row [item_id] was replaced, is
    [rebuild]. *)
Lemma update_parent_state_set (item_id : iid) (t it new : item) :
  get_item t item_id = Some it ->
  _update_parent_state item_id (set_item item_id new t) = rebuild t (rev item_id) new.
Proof.
  unfold get_item, set_item.
  revert it new; induction item_id as [|k parent IH]; intros it new H; simpl in *.
  - reflexivity.
  - destruct (get_at_snoc _ _ _ _ H) as (n & s & kids & Hp & Hk).
    unfold get_item, set_item.
    rewrite (set_at_snoc _ _ _ _ _ _ _ Hp), (rebuild_snoc _ _ _ _ _ _ _ Hp).
    rewrite (get_at_set_at_same _ _ _ _ Hp).
    rewrite <- (IH _ _ Hp).
    assert (Hlen : List.length (list_update k (fun _ => new) kids) = List.length kids)
      by apply list_update_length.
    assert (Hk' : k < List.length kids) by (apply nth_error_Some; congruence).
    destruct (list_update k (fun _ => new) kids) as [|c0 l0]; [simpl in Hlen; lia|].
    f_equal. unfold set_item. apply set_at_twice.
Qed.

Lemma update_parent_state_rebuild (item_id : iid) (t it : item) :
  get_item t item_id = Some it ->
  _update_parent_state item_id t = rebuild t (rev item_id) it.
Proof.
  intro H. rewrite <- (update_parent_state_set _ _ _ _ H).
  unfold set_item. now rewrite (set_at_get_id _ _ _ H).
Qed.

Lemma rebuild_set_at (t x y : item) (pos : list nat) :
  rebuild (set_at t pos x) pos y = rebuild t pos y.
Proof.
  revert t; induction pos as [|k pos IH]; intro t; simpl; [reflexivity|].
  destruct t as [n s kids| |]; simpl; try reflexivity.
  rewrite list_update_twice.
  rewrite (list_update_ext (fun c => rebuild (set_at c pos x) pos y)
                           (fun c => rebuild c pos y)); [reflexivity|].
  intros; apply IH.
Qed.

Lemma rebuild_rebuild (t x y : item) (pos : list nat) :
  rebuild (rebuild t pos x) pos y = rebuild t pos y.
Proof.
  revert t; induction pos as [|k pos IH]; intro t; simpl; [reflexivity|].
  destruct t as [n s kids| |]; simpl; try reflexivity.
  rewrite list_update_twice.
  rewrite (list_update_ext (fun c => rebuild (rebuild c pos x) pos y)
                           (fun c => rebuild c pos y)); [reflexivity|].
  intros; apply IH.
Qed.

Lemma get_at_rebuild_same (t x new : item) (pos : list nat) :
  get_at t pos = Some x -> get_at (rebuild t pos new) pos = Some new.
Proof.
  revert t; induction pos as [|k pos IH]; intro t; simpl; [reflexivity|].
  destruct t as [n s kids| |]; simpl; try (destruct k; discriminate).
  rewrite nth_error_list_update, Nat.eqb_refl.
  destruct (nth_error kids k); simpl; [apply IH | discriminate].
Qed.

(** ** The state the children determine *)

Lemma nodup_all_equal (st : state) (l : list state) :
  l <> [] -> (forall x, In x l -> x = st) -> nodup state_eq_dec l = [st].
Proof.
  induction l as [|x l IH]; intros Hne Hall; [congruence|].
  simpl. destruct l as [|y l].
  - simpl. f_equal. apply Hall. now left.
  - destruct (in_dec state_eq_dec x (y :: l)) as [Hin|Hout].
    + apply IH; [discriminate | intros; apply Hall; now right].
    + exfalso. apply Hout. left.
      rewrite (Hall x), (Hall y); simpl; auto.
Qed.

Lemma item_state_toggle_item (st : state) (it : item) :
  item_state (toggle_item st it) = st.
Proof. now destruct it. Qed.

Lemma is_loading_toggle_item (st : state) (it : item) :
  is_loading (toggle_item st it) = false.
Proof. now destruct it. Qed.

Lemma loaded_states_toggle_kids (st : state) (kids : list item) :
  forall x,
    In x (map item_state (filter (fun c => negb (is_loading c)) (toggle_kids st kids))) ->
    x = st.
Proof.
  induction kids as [|c kids IH]; simpl; [tauto|].
  intro x. destruct (is_loading c) eqn:E.
  - rewrite E. simpl. apply IH.
  - rewrite is_loading_toggle_item. simpl. intros [H|H].
    + now rewrite item_state_toggle_item in H.
    + now apply IH.
Qed.

Lemma loaded_toggle_kids_nonempty (st : state) (kids : list item) :
  existsb (fun c => negb (is_loading c)) kids = true ->
  map item_state (filter (fun c => negb (is_loading c)) (toggle_kids st kids)) <> [].
Proof.
  induction kids as [|c kids IH]; simpl; [discriminate|].
  destruct (is_loading c) eqn:E; simpl.
  - rewrite E. simpl. exact IH.
  - rewrite is_loading_toggle_item. simpl. discriminate.
Qed.

Lemma parent_state_of_toggle_kids (st : state) (kids : list item) :
  existsb (fun c => negb (is_loading c)) kids = true ->
  parent_state_of (toggle_kids st kids) = st.
Proof.
  intro H. unfold parent_state_of, child_states, loaded_children.
  rewrite (nodup_all_equal st); [reflexivity | |].
  - now apply loaded_toggle_kids_nonempty.
  - apply loaded_states_toggle_kids.
Qed.

Lemma toggle_kids_all_loading (st : state) (kids : list item) :
  existsb (fun c => negb (is_loading c)) kids = false ->
  toggle_kids st kids = kids.
Proof.
  induction kids as [|c kids IH]; simpl; [reflexivity|].
  destruct (is_loading c) eqn:E; simpl; [|discriminate].
  intro H. f_equal. now apply IH.
Qed.

Lemma toggle_item_Node (st : state) n s kids :
  toggle_item st (Node n s kids) = Node n st (toggle_kids st kids).
Proof. reflexivity. Qed.

(** [toggle_check] replaces the row by its toggled form and recomputes the
    rows above it. *)
Lemma toggle_check_rebuild (item_id : iid) (st : state) (t it : item) :
  get_item t item_id = Some it ->
  toggle_check item_id st t = rebuild t (rev item_id) (toggle_item st it).
Proof.
  intro H. unfold toggle_check. rewrite H. cbv zeta.
  unfold _update_children_state.
  assert (H1 : get_item (set_item item_id (set_state st it) t) item_id
               = Some (set_state st it)).
  { unfold get_item, set_item. exact (get_at_set_at_same _ _ _ _ H). }
  rewrite H1.
  destruct it as [n s kids| |]; simpl set_state; cbv iota beta;
    try (now apply update_parent_state_set with (it := Loading));
    try (now apply update_parent_state_set with (it := ErrorEntry st0)).
  fold (toggle_kids st kids).
  destruct (existsb (fun c => negb (is_loading c)) kids) eqn:E.
  - assert (Hset : set_item item_id (Node n st (toggle_kids st kids))
                     (set_item item_id (Node n st kids) t)
                   = set_item item_id (Node n st (toggle_kids st kids)) t).
    { unfold set_item. apply set_at_twice. }
    rewrite Hset.
    assert (Hg : get_item (set_item item_id (Node n st (toggle_kids st kids)) t) item_id
                 = Some (Node n st (toggle_kids st kids))).
    { unfold get_item, set_item. exact (get_at_set_at_same _ _ _ _ H). }
    destruct (toggle_kids st kids) as [|c0 l0] eqn:Ek.
    { destruct kids; simpl in *; discriminate. }
    assert (Hc : get_item (set_item item_id (Node n st (c0 :: l0)) t) (0 :: item_id)
                 = Some c0).
    { unfold get_item in *. simpl rev. rewrite get_at_app, Hg. reflexivity. }
    rewrite (update_parent_state_rebuild _ _ _ Hc). simpl rev.
    unfold get_item in Hg. rewrite (rebuild_snoc _ _ _ _ _ _ _ Hg). simpl list_update.
    unfold set_item. rewrite rebuild_set_at.
    assert (Hr : get_item (rebuild t (rev item_id)
                    (Node n (parent_state_of (c0 :: l0)) (c0 :: l0))) item_id
                 = Some (Node n (parent_state_of (c0 :: l0)) (c0 :: l0))).
    { unfold get_item. exact (get_at_rebuild_same _ _ _ _ H). }
    rewrite (update_parent_state_rebuild _ _ _ Hr), rebuild_rebuild.
    rewrite toggle_item_Node, Ek, <- Ek, (parent_state_of_toggle_kids _ _ E).
    reflexivity.
  - rewrite toggle_item_Node, (toggle_kids_all_loading _ _ E).
    now apply update_parent_state_set with (it := Node n s kids).
Qed.

(** Induction on rows, with the hypothesis for every child. *)
Lemma item_nested_ind (P : item -> Prop) :
  (forall n s kids, Forall P kids -> P (Node n s kids)) ->
  P Loading ->
  (forall s, P (ErrorEntry s)) ->
  forall it, P it.
Proof.
  intros HN HL HE.
  fix IH 1. intros [n s kids| |s].
  - apply HN. induction kids as [|c kids IHk]; constructor; [apply IH | exact IHk].
  - exact HL.
  - apply HE.
Qed.

Lemma all_loaded_are_toggle_item (st : state) (it : item) :
  all_loaded_are st (toggle_item st it).
Proof.
  induction it as [n s kids IH| |s] using item_nested_ind; simpl; auto.
  split; [reflexivity|].
  induction kids as [|c kids IHk]; simpl; [exact I|].
  inversion IH as [|? ? Hc Hk]; subst. split.
  - destruct (is_loading c) eqn:E; [left; exact E | right; exact Hc].
  - now apply IHk.
Qed.

(** ** The state a parent takes from its children *)

Lemma parent_state_of_In (kids : list item) (s : state) :
  child_states kids = [s] ->
  forall c, In c (loaded_children kids) -> item_state c = s.
Proof.
  unfold child_states. intros H c Hc.
  assert (Hin : In (item_state c) (nodup state_eq_dec (map item_state (loaded_children kids)))).
  { apply nodup_In. now apply in_map. }
  rewrite H in Hin. destruct Hin as [Hin|[]]. now symmetry.
Qed.

Lemma parent_state_of_all (kids : list item) (s : state) :
  loaded_children kids <> [] ->
  (forall c, In c (loaded_children kids) -> item_state c = s) ->
  parent_state_of kids = s.
Proof.
  intros Hne Hall. unfold parent_state_of, child_states.
  rewrite (nodup_all_equal s); [reflexivity | |].
  - destruct (loaded_children kids); [congruence | discriminate].
  - intros x Hx. apply in_map_iff in Hx as (c & <- & Hc). now apply Hall.
Qed.

Lemma parent_state_of_inv (kids : list item) (s : state) :
  parent_state_of kids = s -> s <> Tristate ->
  forall c, In c (loaded_children kids) -> item_state c = s.
Proof.
  unfold parent_state_of. intros H Hs.
  destruct (child_states kids) as [|x [|y l]] eqn:E; try congruence.
  subst x. now apply parent_state_of_In.
Qed.

(** The tristate rule: with a loaded child whose state is one of the three,
    the state the children determine is [Checked] (resp. [Unchecked]) exactly
    when every loaded child has it, and [Tristate] otherwise. *)
Lemma parent_state_of_rule (kids : list item) (c0 : item) :
  In c0 (loaded_children kids) -> tri (item_state c0) ->
  let s := parent_state_of kids in
  (s = Checked <-> forall c, In c (loaded_children kids) -> item_state c = Checked) /\
  (s = Unchecked <-> forall c, In c (loaded_children kids) -> item_state c = Unchecked) /\
  (s = Tristate <->
     ~ (forall c, In c (loaded_children kids) -> item_state c = Checked) /\
     ~ (forall c, In c (loaded_children kids) -> item_state c = Unchecked)) /\
  tri s.
Proof.
  intros Hin Htri s.
  assert (Hne : loaded_children kids <> []) by (intro E; rewrite E in Hin; exact Hin).
  assert (HC : s = Checked <-> forall c, In c (loaded_children kids) -> item_state c = Checked).
  { split; intro H;
      [apply parent_state_of_inv; [exact H | discriminate] | now apply parent_state_of_all]. }
  assert (HU : s = Unchecked <-> forall c, In c (loaded_children kids) -> item_state c = Unchecked).
  { split; intro H;
      [apply parent_state_of_inv; [exact H | discriminate] | now apply parent_state_of_all]. }
  assert (HT : tri s).
  { unfold s, parent_state_of.
    destruct (child_states kids) as [|x [|y l]] eqn:E; try (right; right; reflexivity).
    rewrite <- (parent_state_of_In _ _ E c0 Hin). exact Htri. }
  split; [exact HC|]. split; [exact HU|]. split; [|exact HT].
  split.
  - intro H. split; intro Hall; [apply HC in Hall | apply HU in Hall]; congruence.
  - intros [H1 H2]. destruct HT as [H|[H|H]]; tauto.
Qed.

Lemma get_at_cons_Node (t x : item) (k : nat) (rest : list nat) :
  get_at t (k :: rest) = Some x ->
  exists n s kids c, t = Node n s kids /\ nth_error kids k = Some c /\ get_at c rest = Some x.
Proof.
  simpl. destruct t as [n s kids| |]; simpl; try (destruct k; discriminate).
  destruct (nth_error kids k) as [c|] eqn:E; [|discriminate].
  intro H. now exists n, s, kids, c.
Qed.

Lemma In_loaded_children (kids : list item) (c : item) (k : nat) :
  nth_error kids k = Some c -> is_loading c = false -> In c (loaded_children kids).
Proof.
  intros Hk Hl. apply filter_In. split.
  - eapply nth_error_In; eassumption.
  - now rewrite Hl.
Qed.

Lemma rebuild_root_ok (pos : list nat) (t x new : item) :
  get_at t pos = Some x -> is_loading new = false -> tri (item_state new) ->
  is_loading (rebuild t pos new) = false /\ tri (item_state (rebuild t pos new)).
Proof.
  revert t; induction pos as [|k rest IH]; intros t H Hl Ht; [now split|].
  destruct (get_at_cons_Node _ _ _ _ H) as (n & s & kids & c & -> & Hk & Hc).
  simpl. split; [reflexivity|].
  destruct (IH _ Hc Hl Ht) as [Hl' Ht'].
  eapply parent_state_of_rule; [|exact Ht'].
  apply In_loaded_children with (k := k); [|exact Hl'].
  now rewrite nth_error_list_update, Nat.eqb_refl, Hk.
Qed.

Lemma rebuild_ancestor (a b : list nat) (t x new : item) :
  get_at t (a ++ b) = Some x -> b <> [] ->
  is_loading new = false -> tri (item_state new) ->
  exists n kids c0,
    get_at (rebuild t (a ++ b) new) a = Some (Node n (parent_state_of kids) kids) /\
    In c0 (loaded_children kids) /\ tri (item_state c0).
Proof.
  revert t; induction a as [|j a IH]; intros t H Hb Hl Ht.
  - destruct b as [|k rest]; [congruence|]. cbn [List.app] in *.
    destruct (get_at_cons_Node _ _ _ _ H) as (n & s & kids & c & -> & Hk & Hc).
    destruct (rebuild_root_ok _ _ _ _ Hc Hl Ht) as [Hl' Ht'].
    exists n, (list_update k (fun c => rebuild c rest new) kids), (rebuild c rest new).
    split; [reflexivity|]. split; [|exact Ht'].
    apply In_loaded_children with (k := k); [|exact Hl'].
    now rewrite nth_error_list_update, Nat.eqb_refl, Hk.
  - cbn [List.app] in *.
    destruct (get_at_cons_Node _ _ _ _ H) as (n & s & kids & c & -> & Hk & Hc).
    destruct (IH _ Hc Hb Hl Ht) as (n' & kids' & c0 & Hg & Hin & Htri).
    exists n', kids', c0. split; [|now split].
    simpl. rewrite nth_error_list_update, Nat.eqb_refl, Hk. simpl. exact Hg.
Qed.

(** ** C6: after a toggle, the rows above the toggled row follow the tristate rule *)

(** C6.  After [toggle_check] of an existing row with [Checked] or
    [Unchecked], every row strictly above it, up to the root, is [Checked]
    (resp. [Unchecked]) exactly when all its children other than the
    ["loading..."] row are, and [Tristate] otherwise. *)
Theorem toggle_recomputes_ancestors (t it : item) (item_id a : iid) (st : state) :
  get_item t item_id = Some it ->
  explicit st ->
  strict_ancestor a item_id ->
  exists n s kids,
    get_item (toggle_check item_id st t) a = Some (Node n s kids) /\
    (s = Checked <-> forall c, In c (loaded_children kids) -> item_state c = Checked) /\
    (s = Unchecked <-> forall c, In c (loaded_children kids) -> item_state c = Unchecked) /\
    (s = Tristate <->
       ~ (forall c, In c (loaded_children kids) -> item_state c = Checked) /\
       ~ (forall c, In c (loaded_children kids) -> item_state c = Unchecked)).
Proof.
  intros H Hst (b & Hb & ->).
  rewrite (toggle_check_rebuild _ _ _ _ H).
  unfold get_item in *. rewrite rev_app_distr in *.
  assert (Hrb : rev b <> []).
  { intro E. apply Hb. rewrite <- (rev_involutive b), E. reflexivity. }
  assert (Htri : tri (item_state (toggle_item st it))).
  { rewrite item_state_toggle_item. destruct Hst as [->| ->]; red; auto. }
  destruct (rebuild_ancestor _ _ _ _ _ H Hrb (is_loading_toggle_item st it) Htri)
    as (n & kids & c0 & Hg & Hin & Hc0).
  exists n, (parent_state_of kids), kids. split; [exact Hg|].
  destruct (parent_state_of_rule kids c0 Hin Hc0) as (HC & HU & HT & _).
  auto.
Qed.

Lemma toggle_recomputes_ancestors_witness :
  let t := Node "proj" Unchecked
             [Node "a.txt" Unchecked [];
              Node "sub" Unchecked [Node "b.py" Unchecked []; Node "c.py" Unchecked []]] in
  get_item t [0; 1] = Some (Node "b.py" Unchecked []) /\
  explicit Checked /\
  strict_ancestor [1] [0; 1] /\
  exists n s kids,
    get_item (toggle_check [0; 1] Checked t) [1] = Some (Node n s kids) /\
    (s = Checked <-> forall c, In c (loaded_children kids) -> item_state c = Checked) /\
    (s = Unchecked <-> forall c, In c (loaded_children kids) -> item_state c = Unchecked) /\
    (s = Tristate <->
       ~ (forall c, In c (loaded_children kids) -> item_state c = Checked) /\
       ~ (forall c, In c (loaded_children kids) -> item_state c = Unchecked)).
Proof.
  intro t.
  assert (H1 : get_item t [0; 1] = Some (Node "b.py" Unchecked [])) by reflexivity.
  assert (H2 : explicit Checked) by (left; reflexivity).
  assert (H3 : strict_ancestor [1] [0; 1])
    by (exists [0]; split; [discriminate | reflexivity]).
  split; [exact H1|]. split; [exact H2|]. split; [exact H3|].
  exact (toggle_recomputes_ancestors t _ [0; 1] [1] Checked H1 H2 H3).
Defined.

(** ** C10: a click on a tristate row checks it *)

Lemma get_item_toggle_check (t it : item) (item_id : iid) (st : state) :
  get_item t item_id = Some it ->
  get_item (toggle_check item_id st t) item_id = Some (toggle_item st it).
Proof.
  intro H. rewrite (toggle_check_rebuild _ _ _ _ H).
  unfold get_item in *. exact (get_at_rebuild_same _ _ _ _ H).
Qed.

(** C10.  A click on the checkbox of a row whose state is [Tristate] leaves
    the row, and every row below it that is reached without crossing a
    ["loading..."] row, [Checked]; the handler maps [Checked] to [Unchecked]
    and both [Unchecked] and [Tristate] to [Checked]. *)
Theorem click_on_tristate_checks (source_dir : path) (a : app) (item_id : iid) (it : item) :
  get_item (tree a) item_id = Some it ->
  item_state it = Tristate ->
  (exists it',
      get_item (tree (on_single_click source_dir item_id a)) item_id = Some it' /\
      item_state it' = Checked /\
      all_loaded_are Checked it') /\
  click_state Checked = Unchecked /\
  click_state Unchecked = Checked /\
  click_state Tristate = Checked.
Proof.
  intros H Hs. split; [|repeat split].
  exists (toggle_item Checked it).
  unfold on_single_click. rewrite H, Hs. simpl tree.
  split; [now apply get_item_toggle_check|].
  split; [apply item_state_toggle_item | apply all_loaded_are_toggle_item].
Qed.

Lemma click_on_tristate_checks_witness :
  let a := {| tree := Node "proj" Tristate
                        [Node "a.txt" Checked [];
                         Node "sub" Tristate
                           [Node "b.py" Unchecked []; Node "c.py" Checked [];
                            Node "deep" Unchecked [Loading]]];
              stored := [] |} in
  let it := Node "sub" Tristate
              [Node "b.py" Unchecked []; Node "c.py" Checked [];
               Node "deep" Unchecked [Loading]] in
  get_item (tree a) [1] = Some it /\
  item_state it = Tristate /\
  (exists it',
      get_item (tree (on_single_click ["home"; "proj"] [1] a)) [1] = Some it' /\
      item_state it' = Checked /\
      all_loaded_are Checked it').
Proof.
  intros a it.
  assert (H1 : get_item (tree a) [1] = Some it) by reflexivity.
  assert (H2 : item_state it = Tristate) by reflexivity.
  split; [exact H1|]. split; [exact H2|].
  exact (proj1 (click_on_tristate_checks ["home"; "proj"] a [1] it H1 H2)).
Defined.

(** ** Rows found by name *)

Lemma find_child_Some (name : string) (kids : list item) (k : nat) (c : item) :
  find_child name kids = Some (k, c) ->
  nth_error kids k = Some c /\ name_of c = Some name.
Proof.
  revert k; induction kids as [|x kids IH]; intro k; simpl; [discriminate|].
  destruct x as [m s ks| |].
  - destruct (String.eqb name m) eqn:E.
    + intro H; injection H as <- <-. apply String.eqb_eq in E. subst m. now split.
    + destruct (find_child name kids) as [[k' c']|]; simpl; [|discriminate].
      intro H; injection H as <- <-. now apply IH.
  - destruct (find_child name kids) as [[k' c']|]; simpl; [|discriminate].
    intro H; injection H as <- <-. now apply IH.
  - destruct (find_child name kids) as [[k' c']|]; simpl; [|discriminate].
    intro H; injection H as <- <-. now apply IH.
Qed.

Lemma find_child_list_update (name : string) (kids : list item) (k : nat) (c : item)
      (f : item -> item) :
  find_child name kids = Some (k, c) ->
  name_of (f c) = Some name ->
  find_child name (list_update k f kids) = Some (k, f c).
Proof.
  revert k; induction kids as [|x kids IH]; intro k; simpl; [discriminate|].
  destruct x as [m s ks| |].
  - destruct (String.eqb name m) eqn:E.
    + intro H; injection H as <- <-. intro Hn. simpl.
      destruct (f (Node m s ks)) as [m' s' ks'| |]; simpl in Hn; try discriminate.
      injection Hn as ->. now rewrite String.eqb_refl.
    + destruct (find_child name kids) as [[k' c']|]; simpl; [|discriminate].
      intro H; injection H as <- <-. intro Hn. simpl. rewrite E.
      now rewrite (IH _ eq_refl Hn).
  - destruct (find_child name kids) as [[k' c']|]; simpl; [|discriminate].
    intro H; injection H as <- <-. intro Hn. simpl. now rewrite (IH _ eq_refl Hn).
  - destruct (find_child name kids) as [[k' c']|]; simpl; [|discriminate].
    intro H; injection H as <- <-. intro Hn. simpl. now rewrite (IH _ eq_refl Hn).
Qed.

Lemma pos_of_names_find (t : item) (rel : path) :
  match pos_of_names t rel with
  | Some pos => get_at t pos = find_node t rel /\ find_node t rel <> None
  | None => find_node t rel = None
  end.
Proof.
  revert t; induction rel as [|name rel IH]; intro t; simpl.
  - split; [reflexivity | discriminate].
  - destruct (find_child name (get_children t)) as [[k c]|] eqn:E; [|reflexivity].
    apply find_child_Some in E as [Hk _].
    specialize (IH c). destruct (pos_of_names c rel) as [pos|]; simpl.
    + now rewrite Hk.
    + exact IH.
Qed.

Lemma mapped_state_find (source_dir : path) (t : item) (p : path) :
  mapped_state source_dir t p =
  match strip_prefix source_dir p with
  | Some rel => option_map item_state (find_node t rel)
  | None => None
  end.
Proof.
  unfold mapped_state, path_to_id.
  destruct (strip_prefix source_dir p) as [rel|]; [|reflexivity].
  pose proof (pos_of_names_find t rel) as H.
  destruct (pos_of_names t rel) as [pos|]; simpl.
  - unfold get_item. rewrite rev_involutive. destruct H as [-> _]. reflexivity.
  - now rewrite H.
Qed.

Lemma find_node_app (t : item) (a b : path) :
  find_node t (a ++ b) = match find_node t a with
                         | Some c => find_node c b
                         | None => None
                         end.
Proof.
  revert t; induction a as [|name a IH]; intro t; simpl; [reflexivity|].
  destruct (find_child name (get_children t)) as [[k c]|]; [apply IH | reflexivity].
Qed.

Lemma name_of_rebuild (c it new : item) (pos : list nat) :
  get_at c pos = Some it -> name_of new = name_of it ->
  name_of (rebuild c pos new) = name_of c.
Proof.
  destruct pos as [|k pos]; simpl.
  - intros H; injection H as ->. auto.
  - destruct c; simpl; reflexivity.
Qed.

(** Replacing the row found for [rel] by a row of the same name leaves it
    found for [rel]. *)
Lemma find_node_rebuild (t it new : item) (rel rest : path) (pos : list nat) :
  pos_of_names t rel = Some pos ->
  get_at t pos = Some it ->
  name_of new = name_of it ->
  find_node (rebuild t pos new) (rel ++ rest) = find_node new rest.
Proof.
  revert t pos; induction rel as [|name rel IH]; intros t pos; simpl.
  - intro H; injection H as <-. reflexivity.
  - destruct (find_child name (get_children t)) as [[k c]|] eqn:E; [|discriminate].
    destruct (pos_of_names c rel) as [pos'|] eqn:Ep; simpl; [|discriminate].
    intro H; injection H as <-. intros Hg Hn.
    destruct (get_at_cons_Node _ _ _ _ Hg) as (n & s & kids & c' & -> & Hk & Hc).
    simpl in E. pose proof (find_child_Some _ _ _ _ E) as [Hk' Hname].
    assert (c' = c) by congruence. subst c'.
    simpl.
    rewrite (find_child_list_update _ _ _ _ (fun c => rebuild c pos' new) E).
    + now apply IH.
    + rewrite (name_of_rebuild _ _ _ _ Hc Hn). exact Hname.
Qed.

Lemma find_child_toggle_kids (st : state) (name : string) (kids : list item) (k : nat)
      (c : item) :
  find_child name (toggle_kids st kids) = Some (k, c) ->
  exists c0, c = toggle_item st c0.
Proof.
  intro H. apply find_child_Some in H as [Hk Hn].
  unfold toggle_kids in Hk. rewrite nth_error_map in Hk.
  destruct (nth_error kids k) as [c0|]; [|discriminate].
  simpl in Hk. injection Hk as <-.
  destruct (is_loading c0) eqn:E.
  - destruct c0; discriminate.
  - now exists c0.
Qed.

(** Below a toggled row, every row found by name has the new state. *)
Lemma find_node_toggle_item (st : state) (it c : item) (rest : path) :
  find_node (toggle_item st it) rest = Some c -> item_state c = st.
Proof.
  revert it; induction rest as [|name rest IH]; intro it; simpl.
  - intro H; injection H as <-. apply item_state_toggle_item.
  - destruct it as [n s kids| |]; simpl; try discriminate.
    fold (toggle_kids st kids).
    destruct (find_child name (toggle_kids st kids)) as [[k c1]|] eqn:E; [|discriminate].
    apply find_child_toggle_kids in E as [c0 ->]. apply IH.
Qed.

Lemma pos_of_names_names_at (t : item) (rel : path) (pos : list nat) :
  pos_of_names t rel = Some pos -> names_at t pos = Some rel.
Proof.
  revert t pos; induction rel as [|name rel IH]; intros t pos; simpl.
  - intro H; injection H as <-. reflexivity.
  - destruct (find_child name (get_children t)) as [[k c]|] eqn:E; [|discriminate].
    destruct (pos_of_names c rel) as [pos'|] eqn:Ep; simpl; [|discriminate].
    intro H; injection H as <-. simpl.
    apply find_child_Some in E as [Hk Hn]. rewrite Hk.
    destruct c as [m sc kc| |]; simpl in Hn; try discriminate.
    injection Hn as ->. now rewrite (IH _ _ Ep).
Qed.

(** The row found for a path is a row whose full path is that path. *)
Lemma path_to_id_fullpath (source_dir : path) (t : item) (p : path) (item_id : iid) :
  path_to_id source_dir t p = Some item_id -> fullpath source_dir t item_id = Some p.
Proof.
  unfold path_to_id, fullpath.
  destruct (strip_prefix source_dir p) as [rel|] eqn:E; [|discriminate].
  destruct (pos_of_names t rel) as [pos|] eqn:Ep; [|discriminate].
  simpl. intro H; injection H as <-. rewrite rev_involutive.
  rewrite (pos_of_names_names_at _ _ _ Ep). simpl.
  apply strip_prefix_Some in E. now subst p.
Qed.

(** ** Effective selection *)

Section Selection.

Variable source_dir : path.

Lemma is_path_selected_from_eq (t : item) (rcur : list string) :
  is_path_selected_from source_dir t rcur =
  match mapped_state source_dir t (rev rcur) with
  | Some Checked => true
  | Some Unchecked => false
  | _ =>
      if path_eqb (rev rcur) source_dir then
        match mapped_state source_dir t source_dir with
        | Some s => negb (state_eqb s Unchecked)
        | None => false
        end
      else
        match rcur with
        | [] => false
        | _ :: rparent => is_path_selected_from source_dir t rparent
        end
  end.
Proof. destruct rcur; reflexivity. Qed.

Lemma is_path_selected_snoc (t : item) (p : path) (x : string) :
  _is_path_selected source_dir t (p ++ [x]) =
  match mapped_state source_dir t (p ++ [x]) with
  | Some Checked => true
  | Some Unchecked => false
  | _ =>
      if path_eqb (p ++ [x]) source_dir then
        match mapped_state source_dir t source_dir with
        | Some s => negb (state_eqb s Unchecked)
        | None => false
        end
      else _is_path_selected source_dir t p
  end.
Proof.
  unfold _is_path_selected. rewrite is_path_selected_from_eq.
  rewrite rev_involutive, rev_app_distr. reflexivity.
Qed.

Lemma is_path_selected_explicit (t : item) (p : path) (s : state) :
  mapped_state source_dir t p = Some s -> explicit s ->
  _is_path_selected source_dir t p = state_eqb s Checked.
Proof.
  intros H Hs. unfold _is_path_selected.
  rewrite is_path_selected_from_eq, rev_involutive, H.
  now destruct Hs as [-> | ->].
Qed.

Lemma mapped_state_root (t : item) :
  mapped_state source_dir t source_dir = Some (item_state t).
Proof.
  rewrite mapped_state_find.
  rewrite <- (app_nil_r source_dir) at 2. now rewrite strip_prefix_app.
Qed.

Lemma mapped_state_under (t : item) (p : path) (s : state) :
  mapped_state source_dir t p = Some s -> exists rel, p = source_dir ++ rel.
Proof.
  rewrite mapped_state_find.
  destruct (strip_prefix source_dir p) as [rel|] eqn:E; [|discriminate].
  intros _. exists rel. now apply strip_prefix_Some.
Qed.

Lemma path_eqb_longer (rel : path) (x : string) :
  path_eqb ((source_dir ++ rel) ++ [x]) source_dir = false.
Proof.
  destruct (path_eqb ((source_dir ++ rel) ++ [x]) source_dir) eqn:E; [|reflexivity].
  apply path_eqb_eq in E. apply (f_equal (@List.length string)) in E.
  rewrite !length_app in E. simpl in E. lia.
Qed.

(** Below a mapped row with an explicit state under which every mapped row
    has that state, every path resolves to that state. *)
Lemma is_path_selected_under (t : item) (p : path) (st : state) :
  explicit st ->
  mapped_state source_dir t p = Some st ->
  (forall rest, mapped_state source_dir t (p ++ rest) = None \/
                mapped_state source_dir t (p ++ rest) = Some st) ->
  forall rest, _is_path_selected source_dir t (p ++ rest) = state_eqb st Checked.
Proof.
  intros Hst Hp Hall rest.
  induction rest as [|x rest IH] using rev_ind.
  - rewrite app_nil_r. now apply is_path_selected_explicit.
  - pose proof (Hall (rest ++ [x])) as Hx. rewrite app_assoc in Hx.
    rewrite app_assoc, is_path_selected_snoc.
    destruct Hx as [-> | ->].
    + destruct (mapped_state_under _ _ _ Hp) as [rel ->].
      rewrite <- (app_assoc source_dir rel rest), path_eqb_longer.
      rewrite app_assoc. exact IH.
    + now destruct Hst as [-> | ->].
Qed.

(** ** C7: a toggled directory decides for everything below it *)

Lemma path_to_id_inv (t : item) (p : path) (item_id : iid) :
  path_to_id source_dir t p = Some item_id ->
  exists rel it,
    p = source_dir ++ rel /\ pos_of_names t rel = Some (rev item_id) /\
    get_item t item_id = Some it /\ find_node t rel = Some it.
Proof.
  unfold path_to_id.
  destruct (strip_prefix source_dir p) as [rel|] eqn:E; [|discriminate].
  destruct (pos_of_names t rel) as [pos|] eqn:Ep; [|discriminate].
  simpl. intro H; injection H as <-.
  pose proof (pos_of_names_find t rel) as Hf. rewrite Ep in Hf. destruct Hf as [Hg Hne].
  destruct (find_node t rel) as [it|] eqn:Ef; [|congruence].
  exists rel, it. unfold get_item. rewrite rev_involutive.
  repeat split; auto using strip_prefix_Some.
Qed.

Lemma pos_of_names_rebuild (t it new : item) (rel : path) (pos : list nat) :
  pos_of_names t rel = Some pos ->
  get_at t pos = Some it ->
  name_of new = name_of it ->
  pos_of_names (rebuild t pos new) rel = Some pos.
Proof.
  revert t pos; induction rel as [|name rel IH]; intros t pos; simpl.
  - intro H; injection H as <-. reflexivity.
  - destruct (find_child name (get_children t)) as [[k c]|] eqn:E; [|discriminate].
    destruct (pos_of_names c rel) as [pos'|] eqn:Ep; simpl; [|discriminate].
    intro H; injection H as <-. intros Hg Hn.
    destruct (get_at_cons_Node _ _ _ _ Hg) as (n & s & kids & c' & -> & Hk & Hc).
    simpl in E. pose proof (find_child_Some _ _ _ _ E) as [Hk' Hname].
    assert (c' = c) by congruence. subst c'.
    simpl.
    rewrite (find_child_list_update _ _ _ _ (fun c => rebuild c pos' new) E).
    + now rewrite (IH _ _ Ep Hc Hn).
    + rewrite (name_of_rebuild _ _ _ _ Hc Hn). exact Hname.
Qed.

Lemma name_of_toggle_item (st : state) (it : item) :
  name_of (toggle_item st it) = name_of it.
Proof. now destruct it. Qed.

(** A toggle leaves every path mapped to the row it was mapped to. *)
Lemma path_to_id_toggle_check (t : item) (p : path) (item_id : iid) (st : state) :
  path_to_id source_dir t p = Some item_id ->
  path_to_id source_dir (toggle_check item_id st t) p = Some item_id.
Proof.
  intro H. destruct (path_to_id_inv _ _ _ H) as (rel & it & -> & Hpos & Hi & Hf).
  rewrite (toggle_check_rebuild _ _ _ _ Hi).
  unfold path_to_id. rewrite strip_prefix_app.
  rewrite (pos_of_names_rebuild _ it _ _ _ Hpos Hi (name_of_toggle_item st it)).
  simpl. now rewrite rev_involutive.
Qed.

Lemma mapped_state_toggle_check (t : item) (p rest : path) (item_id : iid) (st : state) :
  path_to_id source_dir t p = Some item_id ->
  mapped_state source_dir (toggle_check item_id st t) (p ++ rest) = None \/
  mapped_state source_dir (toggle_check item_id st t) (p ++ rest) = Some st.
Proof.
  intro H. destruct (path_to_id_inv _ _ _ H) as (rel & it & -> & Hpos & Hi & Hf).
  rewrite (toggle_check_rebuild _ _ _ _ Hi).
  rewrite mapped_state_find, <- app_assoc, strip_prefix_app.
  rewrite (find_node_rebuild t it _ rel rest _ Hpos Hi (name_of_toggle_item st it)).
  destruct (find_node (toggle_item st it) rest) as [c|] eqn:Ec; simpl; [|now left].
  right. f_equal. eapply find_node_toggle_item; eassumption.
Qed.

Lemma mapped_state_toggle_check_at (t : item) (p : path) (item_id : iid) (st : state) :
  path_to_id source_dir t p = Some item_id ->
  mapped_state source_dir (toggle_check item_id st t) p = Some st.
Proof.
  intro H. destruct (path_to_id_inv _ _ _ H) as (rel & it & -> & Hpos & Hi & Hf).
  rewrite (toggle_check_rebuild _ _ _ _ Hi).
  rewrite mapped_state_find, strip_prefix_app.
  rewrite <- (app_nil_r rel).
  rewrite (find_node_rebuild t it _ rel [] _ Hpos Hi (name_of_toggle_item st it)).
  simpl. now rewrite item_state_toggle_item.
Qed.

Lemma is_path_selected_toggle_check (t : item) (p rest : path) (item_id : iid) (st : state) :
  explicit st ->
  path_to_id source_dir t p = Some item_id ->
  _is_path_selected source_dir (toggle_check item_id st t) (p ++ rest) = state_eqb st Checked.
Proof.
  intros Hst H. apply is_path_selected_under; [exact Hst | |].
  - now apply mapped_state_toggle_check_at.
  - intro r. now apply mapped_state_toggle_check.
Qed.

(** C7.  After the row mapped for a path is toggled to [Checked], every path
    at or below that path is effectively selected, whether or not a row
    exists for it; after the same row is toggled to [Unchecked], none is. *)
Theorem toggled_directory_decides_descendants
        (t : item) (p rest : path) (item_id : iid) :
  path_to_id source_dir t p = Some item_id ->
  _is_path_selected source_dir (toggle_check item_id Checked t) (p ++ rest) = true /\
  _is_path_selected source_dir
    (toggle_check item_id Unchecked (toggle_check item_id Checked t)) (p ++ rest) = false /\
  _is_path_selected source_dir (toggle_check item_id Unchecked t) (p ++ rest) = false.
Proof.
  intro H.
  split; [apply (is_path_selected_toggle_check t p rest item_id Checked);
          [left; reflexivity | exact H]|].
  split; [|apply (is_path_selected_toggle_check t p rest item_id Unchecked);
           [right; reflexivity | exact H]].
  apply (is_path_selected_toggle_check _ p rest item_id Unchecked); [right; reflexivity|].
  now apply path_to_id_toggle_check.
Qed.

(** ** C3: the nearest explicit ancestor decides *)

Lemma is_path_selected_step (t : item) (p : path) (x : string) :
  (forall s, mapped_state source_dir t (p ++ [x]) = Some s -> ~ explicit s) ->
  path_eqb (p ++ [x]) source_dir = false ->
  _is_path_selected source_dir t (p ++ [x]) = _is_path_selected source_dir t p.
Proof.
  intros Hn He. rewrite is_path_selected_snoc, He.
  destruct (mapped_state source_dir t (p ++ [x])) as [[]|]; try reflexivity;
    exfalso; eapply Hn; try reflexivity; red; auto.
Qed.

Lemma strip_prefix_snoc_None (p : path) (x : string) :
  strip_prefix source_dir (p ++ [x]) = None -> strip_prefix source_dir p = None.
Proof.
  intro H. destruct (strip_prefix source_dir p) as [rel|] eqn:E; [|reflexivity].
  apply strip_prefix_Some in E. subst p.
  now rewrite <- app_assoc, strip_prefix_app in H.
Qed.

Lemma is_path_selected_outside (t : item) (p : path) :
  strip_prefix source_dir p = None -> _is_path_selected source_dir t p = false.
Proof.
  induction p as [|x p IH] using rev_ind; intro H.
  - unfold _is_path_selected. simpl. rewrite mapped_state_find. simpl rev. rewrite H.
    destruct source_dir; [discriminate | reflexivity].
  - rewrite is_path_selected_step.
    + apply IH. now apply strip_prefix_snoc_None with (x := x).
    + intros s Hs. rewrite mapped_state_find, H in Hs. discriminate.
    + destruct (path_eqb (p ++ [x]) source_dir) eqn:E; [|reflexivity].
      apply path_eqb_eq in E. rewrite E in H.
      rewrite <- (app_nil_r source_dir) in H at 2. now rewrite strip_prefix_app in H.
Qed.

(** C3.  (1) The mapped path nearest to the queried path, the path itself
    included, whose state is [Checked] or [Unchecked] decides: every mapped
    path between the two has another state, [Tristate] included, and is
    passed over.  (2) When no path from the queried path up to the source
    directory has such a state, the state of the root row decides: the
    path is selected unless that state is [Unchecked].  (3) A path that is
    not below the source directory is not selected. *)
Theorem nearest_explicit_ancestor_decides (t : item) :
  (forall (a rest : path) (s : state),
      mapped_state source_dir t a = Some s ->
      explicit s ->
      (forall r1 r2 s', rest = r1 ++ r2 -> r1 <> [] ->
                        mapped_state source_dir t (a ++ r1) = Some s' -> ~ explicit s') ->
      _is_path_selected source_dir t (a ++ rest) = state_eqb s Checked) /\
  (forall rel : path,
      (forall r1 r2 s', rel = r1 ++ r2 ->
                        mapped_state source_dir t (source_dir ++ r1) = Some s' ->
                        ~ explicit s') ->
      _is_path_selected source_dir t (source_dir ++ rel)
      = negb (state_eqb (item_state t) Unchecked)) /\
  (forall p : path,
      strip_prefix source_dir p = None ->
      _is_path_selected source_dir t p = false).
Proof.
  split; [|split].
  - intros a rest s Ha Hs. induction rest as [|x rest IH] using rev_ind; intro Hbetween.
    + rewrite app_nil_r. now apply is_path_selected_explicit.
    + rewrite app_assoc, is_path_selected_step.
      * apply IH. intros r1 r2 s' -> Hr1. apply (Hbetween r1 (r2 ++ [x])); auto.
        now rewrite app_assoc.
      * intros s' Hs'. rewrite <- app_assoc in Hs'.
        apply (Hbetween (rest ++ [x]) [] s'); auto.
        -- now rewrite app_nil_r.
        -- destruct rest; discriminate.
      * destruct (mapped_state_under _ _ _ Ha) as [rel ->].
        rewrite <- (app_assoc source_dir rel rest). apply path_eqb_longer.
  - intro rel. induction rel as [|x rel IH] using rev_ind; intro Hnone.
    + rewrite app_nil_r. unfold _is_path_selected.
      rewrite is_path_selected_from_eq, rev_involutive, mapped_state_root, path_eqb_refl.
      assert (Hr : ~ explicit (item_state t)).
      { apply (Hnone [] [] (item_state t)); [reflexivity|].
        rewrite app_nil_r. apply mapped_state_root. }
      destruct (item_state t); try reflexivity; exfalso; apply Hr; red; auto.
    + rewrite app_assoc, is_path_selected_step.
      * apply IH. intros r1 r2 s' ->. apply (Hnone r1 (r2 ++ [x])).
        now rewrite app_assoc.
      * intros s' Hs'. rewrite <- app_assoc in Hs'.
        apply (Hnone (rel ++ [x]) [] s'); auto. now rewrite app_nil_r.
      * apply path_eqb_longer.
  - intros p Hp. now apply is_path_selected_outside.
Qed.

End Selection.

Lemma toggled_directory_decides_descendants_witness :
  let source_dir := ["home"; "proj"] in
  let t := Node "proj" Unchecked [Node "a.txt" Unchecked []; Node "sub" Unchecked [Loading]] in
  let p := ["home"; "proj"; "sub"] in
  let rest := ["deep"; "x.py"] in
  path_to_id source_dir t p = Some [1] /\
  _is_path_selected source_dir (toggle_check [1] Checked t) (p ++ rest) = true /\
  _is_path_selected source_dir
    (toggle_check [1] Unchecked (toggle_check [1] Checked t)) (p ++ rest) = false /\
  _is_path_selected source_dir (toggle_check [1] Unchecked t) (p ++ rest) = false.
Proof.
  intros source_dir t p rest.
  assert (H : path_to_id source_dir t p = Some [1]) by reflexivity.
  split; [exact H|].
  exact (toggled_directory_decides_descendants source_dir t p rest [1] H).
Defined.

Lemma nearest_explicit_ancestor_decides_witness :
  let source_dir := ["home"; "proj"] in
  let mixed := Node "sub" Tristate [Node "b.py" Unchecked []; Node "c.py" Checked []] in
  let t1 := Node "proj" Checked [mixed] in
  let t2 := Node "proj" Tristate [Node "a.txt" Checked []; mixed] in
  (mapped_state source_dir t1 source_dir = Some Checked /\
   mapped_state source_dir t1 (source_dir ++ ["sub"]) = Some Tristate /\
   _is_path_selected source_dir t1 (source_dir ++ ["sub"; "new.py"]) = state_eqb Checked Checked) /\
  _is_path_selected source_dir t2 (source_dir ++ ["sub"; "new.py"])
  = negb (state_eqb (item_state t2) Unchecked) /\
  (strip_prefix source_dir ["home"; "other"; "f.py"] = None /\
   _is_path_selected source_dir t2 ["home"; "other"; "f.py"] = false).
Proof.
  intros source_dir mixed t1 t2.
  split; [|split].
  - split; [reflexivity|]. split; [reflexivity|].
    apply (proj1 (nearest_explicit_ancestor_decides source_dir t1)
                 source_dir ["sub"; "new.py"] Checked).
    + reflexivity.
    + left; reflexivity.
    + intros r1 r2 s' E Hr1 Hm [-> | ->];
        destruct r1 as [|x1 [|x2 [|x3 r1]]]; try congruence;
        simpl in E; injection E as <-; subst; try discriminate Hm.
  - apply (proj1 (proj2 (nearest_explicit_ancestor_decides source_dir t2)) ["sub"; "new.py"]).
    intros r1 r2 s' E Hm [-> | ->];
      destruct r1 as [|x1 [|x2 [|x3 r1]]];
      simpl in E; try injection E as <-; subst; try discriminate Hm.
    all: destruct r1; discriminate.
  - assert (H : strip_prefix source_dir ["home"; "other"; "f.py"] = None) by reflexivity.
    split; [exact H|].
    exact (proj2 (proj2 (nearest_explicit_ancestor_decides source_dir t2)) _ H).
Defined.

(** ** The path filter *)

Lemma fsnode_nested_ind (P : fsnode -> Prop) :
  (forall size probe data, P (File size probe data)) ->
  (forall es, Forall (fun e => P (snd e)) es -> P (Dir es)) ->
  P Locked ->
  forall n, P n.
Proof.
  intros HF HD HL.
  fix IH 1. intros [size probe data|es|].
  - apply HF.
  - apply HD. induction es as [|[name c] es IHes]; constructor; [apply IH | exact IHes].
  - exact HL.
Qed.

Lemma mem_string_In (s : string) (l : list string) : mem_string s l = true <-> In s l.
Proof.
  unfold mem_string. rewrite existsb_exists. split.
  - intros (x & Hx & E). apply String.eqb_eq in E. now subst.
  - intro H. exists s. split; [exact H | apply String.eqb_refl].
Qed.

(** A path that is not ignored has no component, and no anchor, whose lower
    case is the lower case of an ignored directory name. *)
Lemma not_ignored_segments (lower : string -> string) (cfg : filter_config) (p : path)
      (d seg : string) :
  _is_path_ignored lower cfg p = false ->
  In d (ignored_dirs cfg) -> In seg (parts p) -> lower seg <> lower d.
Proof.
  unfold _is_path_ignored. intros H Hd Hseg E.
  destruct (existsb (fun part => mem_string part (map lower (ignored_dirs cfg)))
                    (map lower (parts p))) eqn:Ex; [discriminate|].
  assert (Hex : existsb (fun part => mem_string part (map lower (ignored_dirs cfg)))
                        (map lower (parts p)) = true).
  { apply existsb_exists. exists (lower seg). split.
    - now apply in_map.
    - apply mem_string_In. rewrite E. now apply in_map. }
  congruence.
Qed.

Section Filtered.

Variable lower : string -> string.
Variable decode : list byte -> option string.
Variable fs : fsnode.
Variable source_dir : path.
Variable cfg : filter_config.
Variable t : item.

Local Abbreviation listed_ok := (listed_ok lower source_dir cfg t).
Local Abbreviation below_ok := (below_ok lower source_dir cfg t).

Lemma Forall_insert_by {A} (P : A -> Prop) (key : A -> string) (x : A) (l : list A) :
  P x -> Forall P l -> Forall P (insert_by key x l).
Proof.
  intros Hx Hl. induction l as [|y l IH]; simpl; [now constructor|].
  destruct (String.leb (key x) (key y)).
  - now constructor.
  - inversion Hl; subst. constructor; auto.
Qed.

Lemma Forall_sort_by {A} (P : A -> Prop) (key : A -> string) (l : list A) :
  Forall P l -> Forall P (sort_by key l).
Proof.
  induction 1 as [|x l Hx Hl IH]; simpl; [constructor|].
  now apply Forall_insert_by.
Qed.

Lemma emit_entries_selected (p : path) (prefix : string) (entries : list rendered) :
  Forall below_ok entries ->
  Forall listed_ok (emit_entries lower source_dir cfg t false p prefix entries).
Proof.
  induction 1 as [|[name [is_dir below]] rest Hb Hrest IH]; simpl; [constructor|].
  destruct (_is_path_ignored lower cfg (join p name)) eqn:Ei; simpl; [exact IH|].
  destruct (_is_path_selected source_dir t (join p name)) eqn:Es; simpl; [|exact IH].
  constructor; [now split|].
  apply Forall_app. split; [|exact IH].
  destruct is_dir; [apply Hb | constructor].
Qed.

Lemma recurse_tree_selected (n : fsnode) :
  forall p prefix, Forall listed_ok (recurse_tree lower source_dir cfg t false n p prefix).
Proof.
  induction n as [size probe data|es IH|] using fsnode_nested_ind; intros p prefix;
    simpl; try constructor.
  apply emit_entries_selected. apply Forall_sort_by.
  induction es as [|[name c] es IHes]; [constructor|].
  inversion IH as [|? ? Hc Hes]; subst.
  constructor; [|now apply IHes].
  intro prefix'. simpl. apply Hc.
Qed.

Lemma walk_collected (n : fsnode) :
  forall dirpath filepath,
    In filepath (walk lower source_dir cfg t n dirpath) ->
    _is_path_ignored lower cfg filepath = false /\
    _is_path_selected source_dir t filepath = true.
Proof.
  induction n as [size probe data|es IH|] using fsnode_nested_ind;
    intros dirpath filepath; simpl; try tauto.
  rewrite in_app_iff. intros [H|H].
  - apply filter_In in H as [_ H]. apply andb_true_iff in H as [H1 H2].
    split; [now apply negb_true_iff | exact H2].
  - induction es as [|[d c] es IHes]; [destruct H|].
    inversion IH as [|? ? Hc Hes]; subst.
    apply in_app_iff in H as [H|H]; [|now apply IHes].
    destruct (fs_is_dir c && negb (_is_path_ignored lower cfg (join dirpath d)));
      [|destruct H].
    now apply (Hc (join dirpath d)).
Qed.

(** *** The loop of [process_files] *)

Variable e : effects.
Variable output_file : path.

Local Abbreviation one := (process_one decode fs source_dir e output_file).
Local Abbreviation loop := (process_loop decode fs source_dir e output_file).
Local Abbreviation the_run :=
  (process_files lower decode fs source_dir cfg t e output_file).
Local Abbreviation files := (files_to_process lower fs source_dir cfg t).

Lemma process_loop_eq (max_size : Q) (l : list path) :
  loop max_size l
  = (map (fun f => (f, one max_size f)) (reached e l),
     forallb (fun f => post e (Processing f)) l).
Proof.
  induction l as [|f l IH]; simpl; [reflexivity|].
  destruct (post e (Processing f)); [|reflexivity].
  now rewrite IH.
Qed.

Lemma reached_all (l : list path) :
  forallb (fun f => post e (Processing f)) l = true -> reached e l = l.
Proof.
  induction l as [|f l IH]; simpl; [reflexivity|].
  destruct (post e (Processing f)); [|discriminate].
  intro H. now rewrite IH.
Qed.

Lemma In_reached (l : list path) (f : path) : In f (reached e l) -> In f l.
Proof.
  induction l as [|x l IH]; simpl; [tauto|].
  destruct (post e (Processing x)); [|contradiction].
  intros [H | H]; [now left | right; now apply IH].
Qed.

Lemma NoDup_reached (l : list path) : NoDup l -> NoDup (reached e l).
Proof.
  induction 1 as [|x l Hx Hl IH]; simpl; [constructor|].
  destruct (post e (Processing x)); [|constructor].
  constructor; [|exact IH]. intro H. apply Hx. now apply In_reached in H.
Qed.

Lemma written_of_results (max_size : Q) (l : list path) :
  map fst (filter (fun r => is_written (snd r))
                  (map (fun f => (f, one max_size f)) l))
  = filter (fun f => is_written (one max_size f)) l.
Proof.
  induction l as [|f l IH]; simpl; [reflexivity|].
  destruct (is_written (one max_size f)); simpl; now rewrite IH.
Qed.

(** The files written are among the files reached, whatever the run does. *)
Lemma written_files_reached :
  written_files the_run = [] \/
  exists max_size,
    written_files the_run
    = filter (fun f => is_written (one max_size f)) (reached e files).
Proof.
  unfold process_files, critical.
  destruct (max_size_read e) as [mb|]; [|now left].
  destruct (post e Collecting && files_collected e); [|now left].
  destruct (output_opens e); [|now left].
  destruct (include_full_tree_read e) as [full|]; [|now left].
  cbn [negb].
  destruct (full && negb (post e FullTreeStatus && full_tree_written e)); [now left|].
  destruct (negb (post e SelectedTreeStatus && selected_tree_written e)); [now left|].
  rewrite process_loop_eq.
  right. exists (mb * 1024 * 1024)%Q.
  destruct (_ && _ && _); cbn [written_files]; apply written_of_results.
Qed.

Lemma written_files_collected (filepath : path) :
  In filepath (written_files the_run) -> In filepath files.
Proof.
  destruct written_files_reached as [-> | [max_size ->]]; [intros []|].
  intro H. apply filter_In in H as [H _]. now apply In_reached in H.
Qed.

(** C8.  For every name of the ignore set, no entry of the listing of the
    selected tree, over whatever snapshot it is made (the run makes it over
    the one it finds once the output file is open), and no file written to
    the dump has a path with a component whose lower case, as [str.lower]
    gives it, is the lower case of that name, whatever the states of the
    rows and whatever happens during the run. *)
Theorem ignored_directory_never_dumped (d : string) :
  In d (ignored_dirs cfg) ->
  (forall snapshot p line seg,
      In (p, line) (file_tree_entries lower snapshot source_dir cfg t false) ->
      In seg (parts p) -> lower seg <> lower d) /\
  (forall p seg,
      In p (written_files the_run) ->
      In seg (parts p) -> lower seg <> lower d).
Proof.
  intro Hd. split.
  - intros snapshot p line seg Hin Hseg.
    pose proof (recurse_tree_selected snapshot source_dir "") as Hall.
    rewrite Forall_forall in Hall. destruct (Hall _ Hin) as [Hi _].
    exact (not_ignored_segments lower cfg p d seg Hi Hd Hseg).
  - intros p seg Hin Hseg.
    apply written_files_collected in Hin.
    destruct (walk_collected _ _ _ Hin) as [Hi _].
    exact (not_ignored_segments lower cfg p d seg Hi Hd Hseg).
Qed.

End Filtered.

Lemma ignored_directory_never_dumped_witness :
  let fs := Dir [("Node_Modules", Dir [("x.js", File (Some 1%Z) (Some [x61]) (Some [x61]))]);
                 ("a.txt", File (Some 1%Z) (Some [x61]) (Some [x61]))] in
  let t := tree (run_events fs demo_src [Click []; Open [0]]
                            (_set_source_directory fs demo_src [])) in
  let r := process_files ascii_lower ascii_decode fs demo_src default_filter t
                         (all_well 5%Q true) demo_output in
  let hidden := demo_src ++ ["Node_Modules"; "x.js"] in
  In "node_modules" (ignored_dirs default_filter) /\
  ascii_lower "Node_Modules" = ascii_lower "node_modules" /\
  _is_path_selected demo_src t hidden = true /\
  (forall line,
      ~ In (hidden, line)
           (file_tree_entries ascii_lower (opened fs demo_src (all_well 5%Q true) demo_output)
                              demo_src default_filter t false)) /\
  ~ In hidden (written_files r) /\
  written_files r = [demo_src ++ ["a.txt"]].
Proof.
  intros fs t r hidden.
  assert (Hd : In "node_modules" (ignored_dirs default_filter))
    by (vm_compute; tauto).
  assert (Hl : ascii_lower "Node_Modules" = ascii_lower "node_modules") by reflexivity.
  assert (Hseg : In "Node_Modules" (parts hidden)) by (vm_compute; tauto).
  pose proof (ignored_directory_never_dumped ascii_lower ascii_decode fs demo_src
                default_filter t (all_well 5%Q true) demo_output
                "node_modules" Hd) as [Ha Hb].
  split; [exact Hd|]. split; [exact Hl|]. split; [reflexivity|]. split; [|split].
  - intros line Hin. exact (Ha _ _ _ _ Hin Hseg Hl).
  - intro Hin. exact (Hb _ _ Hin Hseg Hl).
  - reflexivity.
Defined.

(** ** C2: the checked paths that are stored *)

(** C2, counterexample.  After [b.py] is clicked in the opened [sub], the
    rows of [sub] and of the root are [Tristate], and both paths are stored
    with the settings. *)
Lemma stored_paths_include_tristate_rows :
  stored demo_app = _save_settings_for_current_project demo_src (tree demo_app) /\
  mapped_state demo_src (tree demo_app) (demo_src ++ ["sub"]) = Some Tristate /\
  In (resolve (demo_src ++ ["sub"])) (stored demo_app) /\
  ~ (forall p, In (resolve p) (stored demo_app) <->
               mapped_state demo_src (tree demo_app) p = Some Checked).
Proof.
  assert (Hin : In (resolve (demo_src ++ ["sub"])) (stored demo_app))
    by (vm_compute; tauto).
  split; [reflexivity|]. split; [reflexivity|]. split; [exact Hin|].
  intro H. apply H in Hin. vm_compute in Hin. discriminate.
Qed.

Lemma find_node_map_items (t : item) (rel p : path) n s ks :
  name_of t <> None ->
  find_node t rel = Some (Node n s ks) ->
  In (p ++ rel, s) (map_items p t).
Proof.
  revert t p; induction rel as [|name rel IH]; intros t p Ht; simpl.
  - intro H; injection H as ->. rewrite app_nil_r. now left.
  - destruct t as [n0 s0 kids| |]; simpl; try discriminate.
    destruct (find_child name kids) as [[k c]|] eqn:E; [|discriminate].
    intro Hf. right. apply in_flat_map.
    apply find_child_Some in E as [Hk Hn].
    exists c. split; [eapply nth_error_In; eassumption|].
    destruct c as [m sc kc| |]; simpl in Hn; try discriminate.
    injection Hn as ->.
    replace (p ++ name :: rel) with (join p name ++ rel)
      by (unfold join; now rewrite <- app_assoc).
    apply IH; [discriminate | exact Hf].
Qed.

Lemma find_node_is_Node (t c : item) (rel : path) :
  name_of t <> None -> find_node t rel = Some c -> name_of c <> None.
Proof.
  destruct rel as [|name rel]; simpl.
  - intros Ht H; injection H as <-. exact Ht.
  - intros _. revert t name. induction rel as [|name' rel IH]; intros t name; simpl.
    + destruct (find_child name (get_children t)) as [[k c']|] eqn:E; [|discriminate].
      intro H; injection H as <-. apply find_child_Some in E as [_ ->]. discriminate.
    + destruct (find_child name (get_children t)) as [[k c']|] eqn:E; [|discriminate].
      apply IH.
Qed.

Lemma In_save_checked_paths (source_dir : path) (t : item) (p : path) :
  In p (_save_settings_for_current_project source_dir t) <->
  exists q s, p = resolve q /\ In (q, s) (map_items source_dir t) /\ s <> Unchecked.
Proof.
  unfold _save_settings_for_current_project. rewrite in_map_iff. split.
  - intros ([q s] & <- & H). apply filter_In in H as [Hin Hs].
    exists q, s. repeat split; auto. intros ->. discriminate.
  - intros (q & s & -> & Hin & Hs). exists (q, s). split; [reflexivity|].
    apply filter_In. split; [exact Hin|]. simpl. now destruct s.
Qed.

Lemma mapped_row_in_map_items (source_dir : path) (t : item) (p : path) (s : state) :
  name_of t <> None ->
  mapped_state source_dir t p = Some s ->
  In (p, s) (map_items source_dir t).
Proof.
  intros Ht Hm. rewrite mapped_state_find in Hm.
  destruct (strip_prefix source_dir p) as [rel|] eqn:E; [|discriminate].
  apply strip_prefix_Some in E. subst p.
  destruct (find_node t rel) as [c|] eqn:Ef; [|discriminate].
  pose proof (find_node_is_Node _ _ _ Ht Ef) as Hc.
  destruct c as [n sc kc| |]; try (exfalso; apply Hc; reflexivity).
  simpl in Hm. injection Hm as ->.
  exact (find_node_map_items _ _ _ _ _ _ Ht Ef).
Qed.

(** C2, amended.  A path is stored exactly when it is the resolved path of
    a row of the tree whose state is not [Unchecked]: the [Checked] rows and
    the [Tristate] rows are stored, the [Unchecked] rows are not; in
    particular the path of a mapped row whose state is not [Unchecked] is
    stored. *)
Theorem stored_paths_are_rows_not_unchecked (source_dir : path) (t : item) (p : path) :
  (In p (_save_settings_for_current_project source_dir t) <->
   exists q s, p = resolve q /\ In (q, s) (map_items source_dir t) /\ s <> Unchecked) /\
  (forall s, name_of t <> None ->
             mapped_state source_dir t p = Some s -> s <> Unchecked ->
             In (resolve p) (_save_settings_for_current_project source_dir t)).
Proof.
  split; [apply In_save_checked_paths|].
  intros s Ht Hm Hs. apply In_save_checked_paths. exists p, s.
  split; [reflexivity|]. split; [|exact Hs].
  now apply mapped_row_in_map_items.
Qed.

Lemma stored_paths_are_rows_not_unchecked_witness :
  let t := tree demo_app in
  let p := demo_src ++ ["sub"] in
  name_of t <> None /\
  mapped_state demo_src t p = Some Tristate /\
  Tristate <> Unchecked /\
  In (resolve p) (_save_settings_for_current_project demo_src t).
Proof.
  intros t p.
  assert (H1 : name_of t <> None) by (vm_compute; discriminate).
  assert (H2 : mapped_state demo_src t p = Some Tristate) by reflexivity.
  assert (H3 : Tristate <> Unchecked) by discriminate.
  split; [exact H1|]. split; [exact H2|]. split; [exact H3|].
  exact (proj2 (stored_paths_are_rows_not_unchecked demo_src t p) Tristate H1 H2 H3).
Defined.

(** ** C4: the states of file rows *)

Lemma set_at_replace_at (t new : item) (pos : list nat) :
  set_at t pos new = replace_at (fun s _ => s) t pos new.
Proof.
  revert t; induction pos as [|k pos IH]; intro t; simpl; [reflexivity|].
  destruct t as [n s kids| |]; try reflexivity.
  f_equal. apply list_update_ext. intros; apply IH.
Qed.

Lemma rebuild_replace_at (t new : item) (pos : list nat) :
  rebuild t pos new = replace_at (fun _ kids => parent_state_of kids) t pos new.
Proof.
  revert t; induction pos as [|k pos IH]; intro t; simpl; [reflexivity|].
  destruct t as [n s kids| |]; try reflexivity.
  rewrite (list_update_ext (fun c => rebuild c pos new)
             (fun c => replace_at (fun _ kids0 => parent_state_of kids0) c pos new));
    [reflexivity|].
  intros; apply IH.
Qed.

Lemma Forall_list_update {A} (P : A -> Prop) (f : A -> A) (l : list A) (k : nat) :
  Forall P l ->
  (forall x, nth_error l k = Some x -> P x -> P (f x)) ->
  Forall P (list_update k f l).
Proof.
  intro H. revert k. induction H as [|x l Hx Hl IH]; intros [|k] Hf; simpl;
    constructor; auto.
Qed.

Section Invariant.

Variable fs : fsnode.
Variable source_dir : path.

Local Abbreviation wf := (well_formed fs source_dir).
Local Abbreviation wf_child := (well_formed_child fs source_dir).

Lemma well_formed_Node (p : path) n s kids :
  wf p (Node n s kids) <->
  ((kids = [Loading] /\ explicit s) \/
   (Forall (fun c => is_loading c = false) kids /\ (kids = [] -> explicit s))) /\
  (kids <> [] -> isdir fs source_dir p = true) /\
  Forall (wf_child p) kids.
Proof.
  simpl.
  assert (E : (fix each (l : list item) : Prop :=
                 match l with
                 | [] => True
                 | c :: l' =>
                     match c with
                     | Node m _ _ => well_formed fs source_dir (join p m) c
                     | _ => True
                     end /\ each l'
                 end) kids <-> Forall (wf_child p) kids).
  { induction kids as [|c kids IH]; simpl.
    - split; [constructor | trivial].
    - split.
      + intros [Hc Hk]. constructor; [exact Hc | now apply IH].
      + intro H. inversion H; subst. split; [assumption | now apply IH]. }
  rewrite E. reflexivity.
Qed.

Lemma is_loading_replace_at g (c it new : item) (pos : list nat) :
  get_at c pos = Some it -> is_loading new = false ->
  is_loading (replace_at g c pos new) = false.
Proof.
  destruct pos as [|k pos]; simpl; [auto|].
  destruct c as [n s kids| |]; simpl; auto; destruct k; discriminate.
Qed.

Lemma name_of_replace_at g (c it new : item) (pos : list nat) :
  get_at c pos = Some it -> name_of new = name_of it ->
  name_of (replace_at g c pos new) = name_of c.
Proof.
  destruct pos as [|k pos]; simpl.
  - intros H; injection H as ->. auto.
  - destruct c; simpl; reflexivity.
Qed.

(** Replacing a row by a well-formed row of the same name that is not the
    ["loading..."] row keeps the rows well formed, whatever states the rows
    above it take. *)
Lemma well_formed_replace_at g (pos : list nat) :
  forall (t : item) (p : path) (it new : item),
    wf p t ->
    get_at t pos = Some it ->
    is_loading new = false ->
    name_of new = name_of it ->
    (wf (path_at p t pos) it -> wf (path_at p t pos) new) ->
    wf p (replace_at g t pos new).
Proof.
  induction pos as [|k rest IH]; intros t p it new Hwf Hg Hl Hn Hnew.
  - simpl in *. injection Hg as ->. auto.
  - destruct (get_at_cons_Node _ _ _ _ Hg) as (n & s & kids & c & -> & Hk & Hc).
    simpl replace_at. apply well_formed_Node in Hwf as (Hcond & Hdir & Hkids).
    assert (Hlen : List.length (list_update k (fun c => replace_at g c rest new) kids)
                   = List.length kids) by apply list_update_length.
    assert (Hklt : k < List.length kids) by (apply nth_error_Some; congruence).
    apply well_formed_Node. split; [|split].
    + right. split.
      * destruct Hcond as [[-> _] | [Hall _]].
        -- destruct k as [|k]; [|destruct k; discriminate].
           simpl in Hk. injection Hk as <-.
           destruct rest as [|j rest]; [|destruct j; discriminate].
           simpl. constructor; [exact Hl | constructor].
        -- apply Forall_list_update; [exact Hall|].
           intros x Hx _. assert (x = c) by congruence. subst x.
           eapply is_loading_replace_at; eassumption.
      * intro E. rewrite E in Hlen. simpl in Hlen. lia.
    + intros _. apply Hdir. destruct kids; [simpl in Hklt; lia | discriminate].
    + apply Forall_list_update; [exact Hkids|].
      intros x Hx Hwx. assert (x = c) by congruence. subst x.
      unfold well_formed_child in *.
      pose proof (name_of_replace_at g _ _ _ _ Hc Hn) as Hname.
      destruct c as [m sc kc| |].
      * destruct (replace_at g (Node m sc kc) rest new) as [m' s' k'| |] eqn:Er;
          simpl in Hname; try discriminate.
        injection Hname as ->. rewrite <- Er.
        apply (IH _ _ it); auto.
        simpl in Hnew. rewrite Hk in Hnew. exact Hnew.
      * destruct (replace_at g Loading rest new); simpl in Hname; try discriminate; exact I.
      * destruct (replace_at g (ErrorEntry st) rest new); simpl in Hname;
          try discriminate; exact I.
Qed.

Lemma well_formed_toggle_item (st : state) (it : item) :
  explicit st -> forall p, wf p it -> wf p (toggle_item st it).
Proof.
  intro Hst.
  induction it as [n s kids IH| |s] using item_nested_ind; intros p Hwf; simpl; auto.
  fold (toggle_kids st kids). change (wf p (Node n st (toggle_kids st kids))).
  apply well_formed_Node in Hwf as (Hcond & Hdir & Hkids).
  apply well_formed_Node. split; [|split].
  - destruct Hcond as [[-> _] | [Hall _]].
    + left. now split.
    + right. split; [|auto].
      unfold toggle_kids. apply Forall_map.
      rewrite Forall_forall in *. intros c Hc.
      rewrite (Hall c Hc). apply is_loading_toggle_item.
  - intro Hne. apply Hdir. destruct kids; [contradiction | discriminate].
  - unfold toggle_kids. apply Forall_map.
    rewrite Forall_forall in *. intros c Hc.
    destruct (is_loading c) eqn:E; [now apply Hkids|].
    specialize (Hkids c Hc). specialize (IH c Hc).
    unfold well_formed_child in *.
    destruct c as [m sc kc| |]; simpl; auto.
    now apply (IH (join p m)).
Qed.

Lemma well_formed_toggle_check (t : item) (item_id : iid) (st : state) :
  explicit st -> wf source_dir t -> wf source_dir (toggle_check item_id st t).
Proof.
  intros Hst Hwf.
  destruct (get_item t item_id) as [it|] eqn:E.
  - rewrite (toggle_check_rebuild _ _ _ _ E), rebuild_replace_at.
    apply (well_formed_replace_at _ _ _ _ it); auto.
    + apply is_loading_toggle_item.
    + now destruct it.
    + now apply well_formed_toggle_item.
  - unfold toggle_check. now rewrite E.
Qed.

Lemma update_children_state_rebuild (t : item) (item_id : iid) (st : state) n s kids :
  get_item t item_id = Some (Node n s kids) ->
  existsb (fun c => negb (is_loading c)) kids = true ->
  _update_children_state item_id st t
  = rebuild t (rev item_id) (Node n st (toggle_kids st kids)).
Proof.
  intros H E. unfold _update_children_state. rewrite H, E.
  fold (toggle_kids st kids).
  assert (Hg : get_item (set_item item_id (Node n s (toggle_kids st kids)) t) item_id
               = Some (Node n s (toggle_kids st kids))).
  { unfold get_item, set_item. exact (get_at_set_at_same _ _ _ _ H). }
  pose proof (parent_state_of_toggle_kids st kids E) as Hps.
  destruct (toggle_kids st kids) as [|c0 l0] eqn:Ek.
  { destruct kids; simpl in *; discriminate. }
  assert (Hc : get_item (set_item item_id (Node n s (c0 :: l0)) t) (0 :: item_id) = Some c0).
  { unfold get_item in *. simpl rev. rewrite get_at_app, Hg. reflexivity. }
  rewrite (update_parent_state_rebuild _ _ _ Hc). simpl rev.
  unfold get_item in Hg. rewrite (rebuild_snoc _ _ _ _ _ _ _ Hg). simpl list_update.
  unfold set_item. rewrite rebuild_set_at, Hps. reflexivity.
Qed.

Lemma update_children_state_none (t : item) (item_id : iid) (st : state) n s kids :
  get_item t item_id = Some (Node n s kids) ->
  existsb (fun c => negb (is_loading c)) kids = false ->
  _update_children_state item_id st t = t.
Proof.
  intros H E. unfold _update_children_state. now rewrite H, E.
Qed.

Lemma isdir_source_dir : isdir fs source_dir source_dir = fs_is_dir fs.
Proof.
  unfold isdir, fs_at. rewrite <- (app_nil_r source_dir) at 2.
  now rewrite strip_prefix_app.
Qed.

Lemma basename_join (p : path) (name : string) : basename (join p name) = name.
Proof. unfold basename, join. apply last_last. Qed.

Lemma well_formed_add_node (checked : list path) (p : path) (name : string) :
  wf_child p (_add_node_to_tree fs source_dir checked (join p name)).
Proof.
  unfold _add_node_to_tree, well_formed_child. rewrite basename_join.
  apply well_formed_Node.
  assert (Hst : explicit (if mem_path (resolve (join p name)) checked
                          then Checked else Unchecked)).
  { destruct (mem_path (resolve (join p name)) checked); [left | right]; reflexivity. }
  destruct (isdir fs source_dir (join p name)) eqn:Ed.
  - destruct (listdir fs source_dir (join p name)) as [[|x l]|].
    + split; [right; split; [constructor | auto]|]. split; [congruence | constructor].
    + split; [left; now split|]. split; [auto|]. constructor; [exact I | constructor].
    + split; [right; split; [constructor | auto]|]. split; [congruence | constructor].
  - split; [right; split; [constructor | auto]|]. split; [congruence | constructor].
Qed.

Lemma well_formed_new_rows (checked : list path) (p : path) (names : list string) :
  Forall (wf_child p)
         (map (fun name => _add_node_to_tree fs source_dir checked (join p name)) names) /\
  Forall (fun c => is_loading c = false)
         (map (fun name => _add_node_to_tree fs source_dir checked (join p name)) names).
Proof.
  split; apply Forall_map, Forall_forall; intros name _.
  - apply well_formed_add_node.
  - reflexivity.
Qed.

Lemma well_formed_populate_tree (checked : list path) :
  fs_is_dir fs = true -> wf source_dir (populate_tree fs source_dir checked).
Proof.
  intro Hdir. unfold populate_tree.
  set (cr := map resolve checked).
  set (rs := if mem_path (resolve source_dir) cr then Checked else Unchecked).
  assert (Hrs : explicit rs) by (unfold rs; destruct (mem_path _ _); [left | right]; reflexivity).
  set (kids := match listdir fs source_dir source_dir with
               | Some names =>
                   map (fun item => _add_node_to_tree fs source_dir cr (join source_dir item))
                       (sorted names)
               | None => [ErrorEntry NoState]
               end).
  assert (Hk : Forall (wf_child source_dir) kids /\ Forall (fun c => is_loading c = false) kids).
  { unfold kids. destruct (listdir fs source_dir source_dir) as [names|].
    - apply well_formed_new_rows.
    - split; repeat constructor. }
  destruct Hk as [Hk1 Hk2].
  destruct kids as [|c l] eqn:Ek.
  - apply well_formed_Node. split; [right; split; [constructor | auto]|].
    split; [congruence | constructor].
  - cbn -[parent_state_of]. fold wf.
    change (wf source_dir (Node (root_name source_dir) (parent_state_of (c :: l)) (c :: l))).
    apply well_formed_Node. split; [right; split; [exact Hk2 | discriminate]|].
    split; [|exact Hk1]. intros _. now rewrite isdir_source_dir.
Qed.

Lemma path_at_names (t : item) (pos : list nat) :
  forall p names, names_at t pos = Some names -> path_at p t pos = p ++ names.
Proof.
  revert t; induction pos as [|k rest IH]; intros t p names; simpl.
  - intro H; injection H as <-. now rewrite app_nil_r.
  - destruct (nth_error (get_children t) k) as [[m sc kc| |]|]; try discriminate.
    destruct (names_at (Node m sc kc) rest) as [ns|] eqn:E; [|discriminate].
    simpl. intro H; injection H as <-.
    rewrite (IH _ _ _ E). unfold join. now rewrite <- app_assoc.
Qed.

Lemma well_formed_get_at (pos : list nat) :
  forall (t : item) (p : path) (it : item),
    wf p t -> get_at t pos = Some it -> wf (path_at p t pos) it.
Proof.
  induction pos as [|k rest IH]; intros t p it Hwf Hg.
  - simpl in *. now injection Hg as <-.
  - destruct (get_at_cons_Node _ _ _ _ Hg) as (n & s & kids & c & -> & Hk & Hc).
    apply well_formed_Node in Hwf as (_ & _ & Hkids).
    rewrite Forall_forall in Hkids.
    pose proof (Hkids c (nth_error_In _ _ Hk)) as Hwc.
    simpl. rewrite Hk. destruct c as [m sc kc| |].
    + now apply IH.
    + destruct rest as [|j rest]; [|destruct j; discriminate].
      simpl in Hc. now injection Hc as <-.
    + destruct rest as [|j rest]; [|destruct j; discriminate].
      simpl in Hc. now injection Hc as <-.
Qed.

Lemma well_formed_on_tree_open (saved : list path) (item_id : iid) (t : item) :
  wf source_dir t -> wf source_dir (on_tree_open fs source_dir saved item_id t).
Proof.
  intro Hwf. unfold on_tree_open.
  destruct (get_item t item_id) as [[n ps [|[| |] rest]| |]|] eqn:Hg; auto.
  unfold fullpath.
  destruct (names_at t (rev item_id)) as [names|] eqn:Hn; simpl; auto.
  pose proof (well_formed_get_at _ _ _ _ Hwf Hg) as Hit.
  rewrite (path_at_names _ _ _ _ Hn) in Hit.
  pose proof Hit as Hit'.
  apply well_formed_Node in Hit' as (Hcond & Hdir & _).
  assert (Hrest : rest = [] /\ explicit ps).
  { destruct Hcond as [[E He] | [Hall _]].
    - now injection E as ->.
    - inversion Hall; discriminate. }
  destruct Hrest as [-> Hps]. cbn [List.app].
  assert (Hp : isdir fs source_dir (source_dir ++ names) = true)
    by (apply Hdir; discriminate).
  assert (Hput : forall X, is_loading X = false -> name_of X = Some n ->
                   wf (source_dir ++ names) X ->
                   forall g, wf source_dir (replace_at g t (rev item_id) X)).
  { intros X Hl Hname HX g.
    apply (well_formed_replace_at g _ _ _ (Node n ps [Loading])); auto.
    rewrite (path_at_names _ _ _ _ Hn). auto. }
  destruct (listdir fs source_dir (source_dir ++ names)) as [ls|].
  - set (new := map (fun item_name =>
                       _add_node_to_tree fs source_dir (map resolve saved)
                                        (join (source_dir ++ names) item_name))
                    (sorted ls)).
    destruct (well_formed_new_rows (map resolve saved) (source_dir ++ names) (sorted ls))
      as [Hnew1 Hnew2]. fold new in Hnew1, Hnew2.
    assert (HX1 : wf (source_dir ++ names) (Node n ps new)).
    { apply well_formed_Node. split; [right; split; [exact Hnew2 | auto]|].
      split; [auto | exact Hnew1]. }
    assert (Ht1 : wf source_dir (set_item item_id (Node n ps new) t)).
    { unfold set_item. rewrite set_at_replace_at. now apply Hput. }
    destruct (negb (state_eqb ps Unchecked)); [|exact Ht1].
    assert (Hg1 : get_item (set_item item_id (Node n ps new) t) item_id
                  = Some (Node n ps new)).
    { unfold get_item, set_item. exact (get_at_set_at_same _ _ _ _ Hg). }
    destruct (existsb (fun c => negb (is_loading c)) new) eqn:Ex.
    + rewrite (update_children_state_rebuild _ _ _ _ _ _ Hg1 Ex).
      unfold set_item. rewrite rebuild_set_at, rebuild_replace_at.
      apply Hput; [reflexivity | reflexivity|].
      now apply (well_formed_toggle_item ps (Node n ps new) Hps).
    + now rewrite (update_children_state_none _ _ _ _ _ _ Hg1 Ex).
  - unfold set_item. rewrite set_at_replace_at. apply Hput; [reflexivity | reflexivity|].
    apply well_formed_Node. split; [right; split; [repeat constructor | discriminate]|].
    split; [auto | repeat constructor].
Qed.

Lemma explicit_click_state (s : state) : explicit (click_state s).
Proof. destruct s; [left | right | left | left]; reflexivity. Qed.

Lemma well_formed_handle (e : event) (a : app) :
  fs_is_dir fs = true ->
  wf source_dir (tree a) -> wf source_dir (tree (handle fs source_dir e a)).
Proof.
  intros Hdir Hwf. destruct e as [i|i| |]; simpl.
  - now apply well_formed_on_tree_open.
  - unfold on_single_click. destruct (get_item (tree a) i) as [it|]; [|exact Hwf].
    simpl. apply well_formed_toggle_check; [apply explicit_click_state | exact Hwf].
  - exact Hwf.
  - now apply well_formed_populate_tree.
Qed.

Lemma well_formed_reachable (a : app) :
  fs_is_dir fs = true -> reachable fs source_dir a -> wf source_dir (tree a).
Proof.
  intros Hdir (stored_paths & es & ->).
  unfold run_events.
  assert (H0 : wf source_dir (tree (_set_source_directory fs source_dir stored_paths)))
    by now apply well_formed_populate_tree.
  revert H0. generalize (_set_source_directory fs source_dir stored_paths).
  induction es as [|e es IH]; intros a H0; simpl; [exact H0|].
  apply IH. now apply well_formed_handle.
Qed.

(** C4.  In every state reached from a loaded project by expansions, clicks
    and refreshes, the row of a path that is not a directory is [Checked] or
    [Unchecked]; the rows a directory receives when it is opened are among
    them, the directory being [Checked] or [Unchecked] itself as long as it
    holds its ["loading..."] row. *)
Theorem file_rows_are_checked_or_unchecked (a : app) :
  fs_is_dir fs = true ->
  reachable fs source_dir a ->
  (forall item_id n s kids p,
      get_item (tree a) item_id = Some (Node n s kids) ->
      fullpath source_dir (tree a) item_id = Some p ->
      isdir fs source_dir p = false ->
      s = Checked \/ s = Unchecked) /\
  (forall item_id n s rest,
      get_item (tree a) item_id = Some (Node n s (Loading :: rest)) ->
      s = Checked \/ s = Unchecked).
Proof.
  intros Hdir Hr. pose proof (well_formed_reachable a Hdir Hr) as Hwf. split.
  - intros item_id n s kids p Hg Hp Hfile.
    unfold fullpath in Hp.
    destruct (names_at (tree a) (rev item_id)) as [names|] eqn:Hn; [|discriminate].
    simpl in Hp. injection Hp as <-.
    pose proof (well_formed_get_at _ _ _ _ Hwf Hg) as Hit.
    rewrite (path_at_names _ _ _ _ Hn) in Hit.
    apply well_formed_Node in Hit as (Hcond & Hd & _).
    destruct kids as [|c kids].
    + destruct Hcond as [[E _] | [_ He]]; [discriminate | now apply He].
    + rewrite Hd in Hfile by discriminate. discriminate.
  - intros item_id n s rest Hg.
    pose proof (well_formed_get_at _ _ _ _ Hwf Hg) as Hit.
    apply well_formed_Node in Hit as (Hcond & _ & _).
    destruct Hcond as [[_ He] | [Hall _]]; [exact He|].
    inversion Hall; discriminate.
Qed.

End Invariant.

Lemma file_rows_are_checked_or_unchecked_witness :
  fs_is_dir demo_fs = true /\
  reachable demo_fs demo_src demo_all_opened /\
  get_item (tree demo_all_opened) [0; 3] = Some (Node "b.py" Checked []) /\
  fullpath demo_src (tree demo_all_opened) [0; 3] = Some (demo_src ++ ["sub"; "b.py"]) /\
  isdir demo_fs demo_src (demo_src ++ ["sub"; "b.py"]) = false /\
  (Checked = Checked \/ Checked = Unchecked).
Proof.
  assert (H1 : fs_is_dir demo_fs = true) by reflexivity.
  assert (H2 : reachable demo_fs demo_src demo_all_opened)
    by (exists [], [Click []; Open [3]]; reflexivity).
  assert (H3 : get_item (tree demo_all_opened) [0; 3] = Some (Node "b.py" Checked []))
    by reflexivity.
  assert (H4 : fullpath demo_src (tree demo_all_opened) [0; 3]
               = Some (demo_src ++ ["sub"; "b.py"])) by reflexivity.
  assert (H5 : isdir demo_fs demo_src (demo_src ++ ["sub"; "b.py"]) = false) by reflexivity.
  repeat (split; [assumption|]).
  exact (proj1 (file_rows_are_checked_or_unchecked demo_fs demo_src demo_all_opened H1 H2)
               [0; 3] "b.py" Checked [] _ H3 H4 H5).
Defined.

(** ** C5: saving and reloading the settings *)

(** C5, counterexample.  In the demo state [sub] is opened and [Tristate],
    [b.py] is [Checked] and [c.bin] is [Unchecked]; [sub] is stored as a
    checked path, and after the reload [sub] is [Checked] and unopened, so
    [c.bin] is effectively selected. *)
Lemma reload_changes_selection :
  let q := demo_src ++ ["sub"; "c.bin"] in
  _is_path_selected demo_src (tree demo_app) q = false /\
  _is_path_selected demo_src (reload demo_fs demo_src (tree demo_app)) q = true /\
  tree (_refresh_tree_view demo_fs demo_src demo_app) = reload demo_fs demo_src (tree demo_app).
Proof. vm_compute. repeat split. Qed.

Lemma parent_state_of_ext (kids1 kids2 : list item) :
  map (fun c => (is_loading c, item_state c)) kids1
  = map (fun c => (is_loading c, item_state c)) kids2 ->
  parent_state_of kids1 = parent_state_of kids2.
Proof.
  intro H. unfold parent_state_of, child_states, loaded_children.
  assert (E : map item_state (filter (fun c => negb (is_loading c)) kids1)
              = map item_state (filter (fun c => negb (is_loading c)) kids2)).
  { revert kids2 H. induction kids1 as [|a l1 IH]; intros [|b l2] H; simpl in *;
      try discriminate; [reflexivity|].
    injection H as Hl Hs Ht. rewrite Hl.
    destruct (is_loading b); simpl; [now apply IH|].
    rewrite Hs. f_equal. now apply IH. }
  now rewrite E.
Qed.

Lemma map_list_update {A B} (h : A -> B) (f : A -> A) (l : list A) (k : nat) :
  (forall x, nth_error l k = Some x -> h (f x) = h x) ->
  map h (list_update k f l) = map h l.
Proof.
  revert k; induction l as [|x l IH]; intros [|k] H; simpl; try reflexivity.
  - f_equal. now apply H.
  - f_equal. apply IH. exact H.
Qed.

Section RootInvariant.

Variable fs : fsnode.
Variable source_dir : path.

Lemma root_ok_rebuild (t it new : item) (pos : list nat) :
  root_ok fs t -> get_at t pos = Some it -> pos <> [] ->
  name_of new = name_of it ->
  root_ok fs (rebuild t pos new).
Proof.
  intros (rn & rs & kids & -> & Hn & _ & _) Hg Hpos Hname.
  destruct pos as [|k rest]; [congruence|].
  destruct (get_at_cons_Node _ _ _ _ Hg) as (n & s & kids' & c & E & Hk & Hc).
  injection E as <- <- <-. simpl.
  exists rn, (parent_state_of (list_update k (fun c0 => rebuild c0 rest new) kids)),
         (list_update k (fun c0 => rebuild c0 rest new) kids).
  split; [reflexivity|]. split; [|split; [reflexivity|]].
  - rewrite <- Hn. apply map_list_update. intros x Hx.
    assert (x = c) by congruence. subst x.
    eapply name_of_rebuild; eassumption.
  - intro E. apply (f_equal (@List.length item)) in E.
    rewrite list_update_length in E.
    assert (k < List.length kids) by (apply nth_error_Some; congruence).
    simpl in E. lia.
Qed.

Lemma root_ok_set_at (t it new : item) (pos : list nat) :
  root_ok fs t -> get_at t pos = Some it -> pos <> [] ->
  name_of new = name_of it ->
  item_state new = item_state it ->
  is_loading new = is_loading it ->
  root_ok fs (set_at t pos new).
Proof.
  intros (rn & rs & kids & -> & Hn & Hrs & Hex) Hg Hpos Hname Hst Hl.
  destruct pos as [|k rest]; [congruence|].
  destruct (get_at_cons_Node _ _ _ _ Hg) as (n & s & kids' & c & E & Hk & Hc).
  injection E as <- <- <-. simpl.
  assert (Hlen : List.length (list_update k (fun c0 => set_at c0 rest new) kids)
                 = List.length kids) by apply list_update_length.
  assert (Hklt : k < List.length kids) by (apply nth_error_Some; congruence).
  exists rn, rs, (list_update k (fun c0 => set_at c0 rest new) kids).
  split; [reflexivity|]. split; [|split].
  - rewrite <- Hn. apply map_list_update. intros x Hx.
    assert (x = c) by congruence. subst x.
    destruct rest as [|j rest]; simpl.
    + simpl in Hc. injection Hc as ->. exact Hname.
    + destruct c; reflexivity.
  - intros _. rewrite Hrs by (destruct kids; [simpl in Hklt; lia | discriminate]).
    symmetry. apply parent_state_of_ext. apply map_list_update. intros x Hx.
    assert (x = c) by congruence. subst x.
    destruct rest as [|j rest]; simpl.
    + simpl in Hc. injection Hc as ->. now rewrite Hst, Hl.
    + destruct c; reflexivity.
  - intro E. rewrite E in Hlen. simpl in Hlen. lia.
Qed.

Lemma root_kids_are_rows (kids : list item) (names : list string) :
  map name_of kids = map Some names ->
  Forall (fun c => is_loading c = false) kids.
Proof.
  revert names; induction kids as [|c kids IH]; intros [|x names] H; simpl in H;
    try discriminate; constructor.
  - injection H as Hc _. now destruct c.
  - injection H as _ Hk. now apply (IH names).
Qed.

Lemma existsb_loaded (kids : list item) :
  kids <> [] -> Forall (fun c => is_loading c = false) kids ->
  existsb (fun c => negb (is_loading c)) kids = true.
Proof.
  destruct kids as [|c kids]; [congruence|].
  intros _ H. inversion H as [|? ? Hc _]; subst. simpl. now rewrite Hc.
Qed.

Lemma root_ok_toggle_item (t : item) (st : state) :
  explicit st -> root_ok fs t -> root_ok fs (toggle_item st t).
Proof.
  intros Hst (rn & rs & kids & -> & Hn & _ & _). simpl. fold (toggle_kids st kids).
  exists rn, st, (toggle_kids st kids).
  split; [reflexivity|]. split; [|split].
  - rewrite <- Hn. unfold toggle_kids. rewrite map_map. apply map_ext.
    intro c. destruct (is_loading c); [reflexivity | apply name_of_toggle_item].
  - intro Hne. symmetry. apply parent_state_of_toggle_kids.
    apply existsb_loaded.
    + destruct kids; [exfalso; now apply Hne | discriminate].
    + eapply root_kids_are_rows; eassumption.
  - auto.
Qed.

Lemma root_ok_toggle_check (t : item) (item_id : iid) (st : state) :
  explicit st -> root_ok fs t -> root_ok fs (toggle_check item_id st t).
Proof.
  intros Hst Hok.
  destruct (get_item t item_id) as [it|] eqn:E.
  - rewrite (toggle_check_rebuild _ _ _ _ E).
    destruct (rev item_id) as [|k rest] eqn:Er.
    + unfold get_item in E. rewrite Er in E. simpl in E. injection E as <-.
      simpl. now apply root_ok_toggle_item.
    + unfold get_item in E. rewrite Er in E.
      apply (root_ok_rebuild _ it); auto; [discriminate | apply name_of_toggle_item].
  - unfold toggle_check. now rewrite E.
Qed.

Lemma root_ok_on_tree_open (saved : list path) (item_id : iid) (t : item) :
  root_ok fs t -> root_ok fs (on_tree_open fs source_dir saved item_id t).
Proof.
  intro Hok. unfold on_tree_open.
  destruct (get_item t item_id) as [[n ps [|[| |] rest]| |]|] eqn:Hg; auto.
  destruct (fullpath source_dir t item_id) as [p|]; auto.
  assert (Hpos : rev item_id <> []).
  { intro E. unfold get_item in Hg. rewrite E in Hg. simpl in Hg. injection Hg as ->.
    destruct Hok as (rn & rs & kids & E' & Hn & _). injection E' as <- <- <-.
    destruct (root_listing fs); discriminate. }
  assert (Hset : forall ks, root_ok fs (set_item item_id (Node n ps ks) t)).
  { intro ks. unfold set_item.
    apply (root_ok_set_at _ (Node n ps (Loading :: rest))); auto. }
  destruct (listdir fs source_dir p) as [ls|]; [|apply Hset].
  set (new := map (fun item_name =>
                     _add_node_to_tree fs source_dir (map resolve saved) (join p item_name))
                  (sorted ls)).
  destruct (negb (state_eqb ps Unchecked)); [|apply Hset].
  assert (Hg1 : get_item (set_item item_id (Node n ps (rest ++ new)) t) item_id
                = Some (Node n ps (rest ++ new))).
  { unfold get_item, set_item. exact (get_at_set_at_same _ _ _ _ Hg). }
  destruct (existsb (fun c => negb (is_loading c)) (rest ++ new)) eqn:Ex.
  - rewrite (update_children_state_rebuild _ _ _ _ _ _ Hg1 Ex).
    unfold set_item. rewrite rebuild_set_at.
    apply (root_ok_rebuild _ (Node n ps (Loading :: rest))); auto.
  - rewrite (update_children_state_none _ _ _ _ _ _ Hg1 Ex). apply Hset.
Qed.

Lemma listdir_source_dir (es : list (string * fsnode)) :
  fs = Dir es -> listdir fs source_dir source_dir = Some (map fst es).
Proof.
  intros ->. unfold listdir, fs_at. rewrite <- (app_nil_r source_dir) at 2.
  now rewrite strip_prefix_app.
Qed.

Lemma root_ok_populate_tree (es : list (string * fsnode)) (checked : list path) :
  fs = Dir es -> root_ok fs (populate_tree fs source_dir checked).
Proof.
  intro Hfs. unfold populate_tree. rewrite (listdir_source_dir es Hfs).
  set (cr := map resolve checked).
  set (rs := if mem_path (resolve source_dir) cr then Checked else Unchecked).
  assert (Hrs : explicit rs) by (unfold rs; destruct (mem_path _ _); [left | right]; reflexivity).
  set (kids := map (fun item => _add_node_to_tree fs source_dir cr (join source_dir item))
                   (sorted (map fst es))).
  assert (Hn : map name_of kids = map Some (root_listing fs)).
  { unfold kids, root_listing. rewrite Hfs, map_map. apply map_ext.
    intro name. unfold _add_node_to_tree. simpl. now rewrite basename_join. }
  destruct kids as [|c l] eqn:Ek.
  - exists (root_name source_dir), rs, []. repeat split; auto. congruence.
  - cbn -[parent_state_of].
    exists (root_name source_dir), (parent_state_of (c :: l)), (c :: l).
    repeat split; auto. discriminate.
Qed.

Lemma root_ok_reachable (es : list (string * fsnode)) (a : app) :
  fs = Dir es -> reachable fs source_dir a -> root_ok fs (tree a).
Proof.
  intros Hfs (stored_paths & evs & ->).
  unfold run_events.
  assert (H0 : root_ok fs (tree (_set_source_directory fs source_dir stored_paths)))
    by now apply (root_ok_populate_tree es).
  revert H0. generalize (_set_source_directory fs source_dir stored_paths).
  induction evs as [|e evs IH]; intros a H0; simpl; [exact H0|].
  apply IH. destruct e as [i|i| |]; simpl.
  - now apply root_ok_on_tree_open.
  - unfold on_single_click. destruct (get_item (tree a) i) as [it|]; [|exact H0].
    simpl. apply root_ok_toggle_check; [apply explicit_click_state | exact H0].
  - exact H0.
  - now apply (root_ok_populate_tree es).
Qed.

End RootInvariant.

Lemma In_insert_by {A} (key : A -> string) (a x : A) (l : list A) :
  In x (insert_by key a l) <-> x = a \/ In x l.
Proof.
  induction l as [|y l IH]; simpl.
  - intuition.
  - destruct (String.leb (key a) (key y)); simpl; [intuition | rewrite IH; intuition].
Qed.

Lemma NoDup_insert_by {A} (key : A -> string) (a : A) (l : list A) :
  ~ In a l -> NoDup l -> NoDup (insert_by key a l).
Proof.
  intros Ha Hl. induction Hl as [|y l Hy Hl IH]; simpl.
  - constructor; [tauto | constructor].
  - destruct (String.leb (key a) (key y)).
    + constructor; [exact Ha | now constructor].
    + constructor.
      * rewrite In_insert_by. intros [-> | H]; [apply Ha; now left | contradiction].
      * apply IH. intro H. apply Ha. now right.
Qed.

Lemma In_sort_by {A} (key : A -> string) (x : A) (l : list A) :
  In x (sort_by key l) <-> In x l.
Proof.
  induction l as [|a l IH]; simpl; [tauto|].
  unfold sort_by in *. simpl. rewrite In_insert_by, IH. intuition.
Qed.

Lemma NoDup_sort_by {A} (key : A -> string) (l : list A) :
  NoDup l -> NoDup (sort_by key l).
Proof.
  induction 1 as [|a l Ha Hl IH]; simpl; [constructor|].
  apply NoDup_insert_by; [|exact IH].
  intro H. apply Ha. now apply (In_sort_by key).
Qed.

Lemma map_resolve (l : list path) : map resolve l = l.
Proof. induction l as [|p l IH]; simpl; [reflexivity | now rewrite IH]. Qed.

Lemma map_items_prefix (it : item) :
  forall p q s,
    In (q, s) (map_items p it) ->
    exists rel, q = p ++ rel /\ (rel = [] -> name_of it <> None /\ item_state it = s).
Proof.
  induction it as [n s0 kids IH| |s0] using item_nested_ind; intros p q s; simpl;
    try tauto.
  intros [E | H].
  - injection E as <- <-. exists []. rewrite app_nil_r. split; [reflexivity|].
    intros _. split; [discriminate | reflexivity].
  - apply in_flat_map in H as (c & Hc & H).
    rewrite Forall_forall in IH. specialize (IH c Hc).
    destruct c as [m sc kc| |]; [|destruct H..].
    destruct (IH _ _ _ H) as (rel & -> & _).
    exists (m :: rel). unfold join. rewrite <- app_assoc. split; [reflexivity | discriminate].
Qed.

Lemma find_child_unique (name : string) (kids : list item) (k : nat) (c c' : item) :
  NoDup (map name_of kids) ->
  find_child name kids = Some (k, c) ->
  In c' kids -> name_of c' = Some name -> c' = c.
Proof.
  intros Hnd Hf Hin Hn.
  apply find_child_Some in Hf as [Hk Hc].
  apply In_nth_error in Hin as [j Hj].
  assert (Hkj : nth_error (map name_of kids) k = nth_error (map name_of kids) j).
  { rewrite !nth_error_map, Hk, Hj. simpl. congruence. }
  assert (k < List.length (map name_of kids)).
  { rewrite length_map. apply nth_error_Some. congruence. }
  rewrite NoDup_nth_error in Hnd. apply Hnd in Hkj; [|assumption]. subst j. congruence.
Qed.

Lemma find_child_None (name : string) (kids : list item) :
  find_child name kids = None <-> ~ In (Some name) (map name_of kids).
Proof.
  induction kids as [|c kids IH]; simpl; [tauto|].
  assert (Hshift : option_map (fun r : nat * item => (S (fst r), snd r))
                              (find_child name kids) = None
                   <-> ~ In (Some name) (map name_of kids)).
  { rewrite <- IH. destruct (find_child name kids); simpl; split; congruence. }
  destruct c as [m s ks| |]; simpl.
  - destruct (String.eqb name m) eqn:E.
    + apply String.eqb_eq in E. subst m. split; [discriminate | intro H; exfalso; auto].
    + apply String.eqb_neq in E. rewrite Hshift. split.
      * intros H [H'|H']; [congruence | contradiction].
      * intros H H'. apply H. now right.
  - rewrite Hshift. split.
    + intros H [H'|H']; [discriminate | contradiction].
    + intros H H'. apply H. now right.
  - rewrite Hshift. split.
    + intros H [H'|H']; [discriminate | contradiction].
    + intros H H'. apply H. now right.
Qed.

Lemma all_rows_are_find_node (s : state) (rel : path) :
  forall c c', name_of c <> None -> all_rows_are s c = true ->
               find_node c rel = Some c' -> item_state c' = s.
Proof.
  induction rel as [|x rel IH]; intros c c' Hc Hall; simpl.
  - intro H; injection H as <-.
    destruct c as [n s' kids| |]; try (exfalso; apply Hc; reflexivity).
    simpl in *. apply andb_true_iff in Hall as [Hs _]. now destruct s', s.
  - destruct (find_child x (get_children c)) as [[k c1]|] eqn:E; [|discriminate].
    apply find_child_Some in E as [Hk Hn].
    destruct c as [n s' kids| |]; simpl in *; try (destruct k; discriminate).
    apply andb_true_iff in Hall as [_ Hall].
    rewrite forallb_forall in Hall.
    apply IH; [congruence|]. apply Hall. eapply nth_error_In; eassumption.
Qed.

Lemma find_child_of_In (name : string) (kids : list item) (c : item) :
  NoDup (map name_of kids) -> In c kids -> name_of c = Some name ->
  exists k, find_child name kids = Some (k, c).
Proof.
  intros Hnd Hin Hn.
  destruct (find_child name kids) as [[k c0]|] eqn:E.
  - exists k. f_equal. f_equal. symmetry. eapply find_child_unique; eassumption.
  - exfalso. apply find_child_None in E. apply E. rewrite <- Hn. now apply in_map.
Qed.

Lemma NoDup_map_Some {A} (l : list A) : NoDup l -> NoDup (map Some l).
Proof.
  induction 1 as [|x l Hx Hl IH]; simpl; constructor; [|exact IH].
  intro H. apply in_map_iff in H as (y & E & Hy). injection E as ->. contradiction.
Qed.

Section RoundTrip.

Variable fs : fsnode.
Variable source_dir : path.
Variable es : list (string * fsnode).
Hypothesis Hfs : fs = Dir es.
Hypothesis Hnd : NoDup (map fst es).

Variables (rn : string) (rs : state) (kids : list item).
Hypothesis Hnames : map name_of kids = map Some (root_listing fs).
Hypothesis Hrs : kids <> [] -> rs = parent_state_of kids.
Hypothesis Hex : kids = [] -> explicit rs.
Hypothesis Huni : uniform_below_root (Node rn rs kids) = true.

Local Abbreviation t := (Node rn rs kids).
Local Abbreviation saved := (_save_settings_for_current_project source_dir (Node rn rs kids)).
Local Abbreviation fresh := (fresh_row fs source_dir saved).

Lemma NoDup_root_listing : NoDup (root_listing fs).
Proof. unfold root_listing. rewrite Hfs. now apply NoDup_sort_by. Qed.

Lemma NoDup_kids_names : NoDup (map name_of kids).
Proof. rewrite Hnames. apply NoDup_map_Some, NoDup_root_listing. Qed.

Lemma reload_eq :
  reload fs source_dir t =
  Node (root_name source_dir)
       (match map fresh (root_listing fs) with
        | [] => if mem_path source_dir saved then Checked else Unchecked
        | _ :: _ => parent_state_of (map fresh (root_listing fs))
        end)
       (map fresh (root_listing fs)).
Proof.
  unfold reload, populate_tree. rewrite (listdir_source_dir fs source_dir es Hfs).
  rewrite map_resolve.
  assert (El : root_listing fs = sorted (map fst es)) by (unfold root_listing; now rewrite Hfs).
  rewrite El. unfold resolve.
  change (map (fun nm : string => _add_node_to_tree fs source_dir saved (join source_dir nm))
              (sorted (map fst es)))
    with (map fresh (sorted (map fst es))).
  destruct (map fresh (sorted (map fst es))) as [|c l] eqn:E.
  - reflexivity.
  - reflexivity.
Qed.

Lemma join_neq (p : path) (name : string) : join p name <> p.
Proof.
  intro E. apply (f_equal (@List.length string)) in E.
  unfold join in E. rewrite length_app in E. simpl in E. lia.
Qed.

Lemma saved_root : mem_path source_dir saved = true <-> rs <> Unchecked.
Proof.
  rewrite mem_path_In.
  rewrite In_save_checked_paths.
  split.
  - intros (q & s & Eq & Hin & Hs). unfold resolve in Eq. subst q.
    destruct (map_items_prefix _ _ _ _ Hin) as (rel & E & Hrel).
    assert (rel = []).
    { rewrite <- (app_nil_r source_dir) in E at 1. now apply app_inv_head in E. }
    destruct (Hrel H) as [_ <-]. exact Hs.
  - intro Hs. exists source_dir, rs. split; [reflexivity|]. split; [now left | exact Hs].
Qed.

Lemma saved_child (name : string) (k : nat) (c : item) :
  find_child name kids = Some (k, c) ->
  (mem_path (join source_dir name) saved = true <-> item_state c <> Unchecked).
Proof.
  intro Hf. pose proof (find_child_Some _ _ _ _ Hf) as [Hk Hn].
  rewrite mem_path_In.
  rewrite In_save_checked_paths.
  split.
  - intros (q & s & Eq & Hin & Hs). unfold resolve in Eq. subst q.
    simpl in Hin. destruct Hin as [E | Hin].
    + injection E as E _. exfalso. symmetry in E. now apply join_neq in E.
    + apply in_flat_map in Hin as (c' & Hc' & Hin).
      destruct c' as [m sc kc| |]; [|destruct Hin..].
      destruct (map_items_prefix _ _ _ _ Hin) as (rel & E & Hrel).
      unfold join in E. rewrite <- app_assoc in E. apply app_inv_head in E.
      injection E as <- <-.
      destruct (Hrel eq_refl) as [_ <-].
      assert (Node name sc kc = c)
        by (eapply find_child_unique; eauto using NoDup_kids_names).
      now subst c.
  - intro Hs. destruct c as [m sc kc| |]; simpl in Hn; try discriminate.
    injection Hn as ->. exists (join source_dir name), sc.
    split; [reflexivity|]. split; [|exact Hs].
    apply (find_node_map_items t [name] source_dir name sc kc); [discriminate|].
    simpl. now rewrite Hf.
Qed.

Lemma child_explicit (c : item) :
  In c kids -> explicit (item_state c) /\ all_rows_are (item_state c) c = true.
Proof.
  intro Hin. unfold uniform_below_root in Huni. simpl in Huni.
  rewrite forallb_forall in Huni. specialize (Huni c Hin).
  apply andb_true_iff in Huni as [He Ha]. split; [|exact Ha].
  apply orb_true_iff in He as [He|He]; destruct (item_state c); try discriminate;
    red; auto.
Qed.

Lemma fresh_state (name : string) (c : item) :
  In c kids -> name_of c = Some name -> item_state (fresh name) = item_state c.
Proof.
  intros Hin Hn.
  destruct (find_child_of_In _ _ _ NoDup_kids_names Hin Hn) as [k Hf].
  pose proof (saved_child _ _ _ Hf) as Hs.
  destruct (child_explicit c Hin) as [He _].
  unfold fresh_row, _add_node_to_tree. simpl. unfold resolve.
  destruct (mem_path (join source_dir name) saved).
  - destruct He as [-> | E]; [reflexivity|].
    exfalso. apply (proj1 Hs eq_refl). exact E.
  - destruct He as [E | ->]; [|reflexivity].
    assert (false = true) by (apply Hs; rewrite E; discriminate). discriminate.
Qed.

Lemma fresh_states (l : list item) (names : list string) :
  map name_of l = map Some names ->
  (forall c, In c l -> In c kids) ->
  map (fun c => (is_loading c, item_state c)) (map fresh names)
  = map (fun c => (is_loading c, item_state c)) l.
Proof.
  revert names; induction l as [|c l IH]; intros [|name names] H Hsub; simpl in H;
    try discriminate; [reflexivity|].
  injection H as Hc Hl.
  change (map fresh (name :: names)) with (fresh name :: map fresh names).
  cbn [map]. f_equal.
  - rewrite (fresh_state name c); [|apply Hsub; now left | exact Hc].
    destruct c; try discriminate. reflexivity.
  - apply IH; [exact Hl|]. intros c' Hc'. apply Hsub. now right.
Qed.

Lemma reload_root_state : item_state (reload fs source_dir t) = rs.
Proof.
  rewrite reload_eq. simpl.
  pose proof (fresh_states kids (root_listing fs) Hnames (fun c H => H)) as Hst.
  pose proof saved_root as Hr.
  destruct (map fresh (root_listing fs)) as [|c l] eqn:E.
  - assert (Hk : kids = []) by (symmetry in Hst; now apply map_eq_nil in Hst).
    destruct (mem_path source_dir saved).
    + destruct (Hex Hk) as [Er | Er]; [now rewrite Er|].
      exfalso. now apply (proj1 Hr eq_refl).
    + destruct (Hex Hk) as [Er | Er]; [|now rewrite Er].
      assert (false = true) by (apply Hr; rewrite Er; discriminate). discriminate.
  - assert (Hk : kids <> []) by (intro Hk; rewrite Hk in Hst; discriminate).
    rewrite (Hrs Hk). now apply parent_state_of_ext.
Qed.

Lemma is_path_selected_root (t0 : item) :
  _is_path_selected source_dir t0 source_dir = negb (state_eqb (item_state t0) Unchecked).
Proof.
  unfold _is_path_selected.
  rewrite is_path_selected_from_eq, rev_involutive, mapped_state_root, path_eqb_refl.
  now destruct (item_state t0).
Qed.

Lemma mapped_state_below (t0 : item) (rel : path) :
  mapped_state source_dir t0 (source_dir ++ rel) = option_map item_state (find_node t0 rel).
Proof. now rewrite mapped_state_find, strip_prefix_app. Qed.

Lemma is_path_selected_skip (t0 : item) (rest : path) :
  (forall r1 r2, rest = r1 ++ r2 -> r1 <> [] ->
                 mapped_state source_dir t0 (source_dir ++ r1) = None) ->
  _is_path_selected source_dir t0 (source_dir ++ rest)
  = _is_path_selected source_dir t0 source_dir.
Proof.
  induction rest as [|x rest IH] using rev_ind; intro H.
  - now rewrite app_nil_r.
  - rewrite app_assoc, is_path_selected_step.
    + apply IH. intros r1 r2 -> Hr1. apply (H r1 (r2 ++ [x])); auto.
      now rewrite app_assoc.
    + intros s Hs. rewrite <- app_assoc, (H (rest ++ [x]) []) in Hs.
      * discriminate.
      * now rewrite app_nil_r.
      * destruct rest; discriminate.
    + apply path_eqb_longer.
Qed.

Lemma is_path_selected_unlisted (t0 : item) (name : string) (rest : path) :
  find_child name (get_children t0) = None ->
  _is_path_selected source_dir t0 (source_dir ++ name :: rest)
  = _is_path_selected source_dir t0 source_dir.
Proof.
  intro Hf. apply is_path_selected_skip. intros r1 r2 E Hr1.
  destruct r1 as [|x r1]; [congruence|]. simpl in E. injection E as <- _.
  rewrite mapped_state_below. simpl. now rewrite Hf.
Qed.

Lemma is_path_selected_under_child (t0 c : item) (name : string) (k : nat) (rest : path) :
  find_child name (get_children t0) = Some (k, c) ->
  explicit (item_state c) ->
  (forall r c', find_node c r = Some c' -> item_state c' = item_state c) ->
  _is_path_selected source_dir t0 (source_dir ++ name :: rest)
  = state_eqb (item_state c) Checked.
Proof.
  intros Hf He Hall.
  change (name :: rest) with ([name] ++ rest). rewrite app_assoc.
  apply is_path_selected_under; [exact He | |].
  - rewrite mapped_state_below. simpl. now rewrite Hf.
  - intro r. rewrite <- app_assoc, mapped_state_below. simpl. rewrite Hf.
    destruct (find_node c r) as [c'|] eqn:E; simpl; [right | now left].
    f_equal. now apply (Hall r).
Qed.

Lemma fresh_has_nothing_below (name : string) (r : path) (c' : item) :
  find_node (fresh name) r = Some c' -> item_state c' = item_state (fresh name).
Proof.
  unfold fresh_row, _add_node_to_tree. destruct r as [|x r]; simpl.
  - now intros H; injection H as <-.
  - destruct (isdir fs source_dir (join source_dir name)); [|discriminate].
    destruct (listdir fs source_dir (join source_dir name)) as [[|y l]|]; discriminate.
Qed.

Lemma fresh_names (names : list string) :
  map name_of (map fresh names) = map Some names.
Proof.
  rewrite map_map. apply map_ext. intro x.
  unfold fresh_row, _add_node_to_tree. simpl. now rewrite basename_join.
Qed.

(** With the rows below the root uniform, the reload reproduces the
    effective selection of every path. *)
Lemma reload_selection (q : path) :
  _is_path_selected source_dir (reload fs source_dir t) q
  = _is_path_selected source_dir t q.
Proof.
  destruct (strip_prefix source_dir q) as [rel|] eqn:E.
  - apply strip_prefix_Some in E. subst q.
    assert (Hroot : _is_path_selected source_dir (reload fs source_dir t) source_dir
                    = _is_path_selected source_dir t source_dir).
    { now rewrite !is_path_selected_root, reload_root_state. }
    destruct rel as [|name rest]; [now rewrite app_nil_r|].
    destruct (find_child name kids) as [[k c]|] eqn:Hf.
    + pose proof (find_child_Some _ _ _ _ Hf) as [Hk Hn].
      assert (Hin : In c kids) by (eapply nth_error_In; eassumption).
      destruct (child_explicit c Hin) as [He Ha].
      rewrite (is_path_selected_under_child t c name k rest Hf He).
      2:{ intros r c' Hr. apply (all_rows_are_find_node _ r c); auto. congruence. }
      assert (Hf' : exists k', find_child name (map fresh (root_listing fs))
                               = Some (k', fresh name)).
      { apply find_child_of_In.
        - rewrite fresh_names. apply NoDup_map_Some, NoDup_root_listing.
        - apply in_map.
          assert (Hs : In (Some name) (map Some (root_listing fs))).
          { rewrite <- Hnames, <- Hn. now apply in_map. }
          apply in_map_iff in Hs as (x & Ex & Hx). now injection Ex as ->.
        - unfold fresh_row, _add_node_to_tree. simpl. now rewrite basename_join. }
      destruct Hf' as [k' Hf'].
      rewrite reload_eq.
      rewrite (is_path_selected_under_child _ (fresh name) name k' rest); auto.
      * now rewrite (fresh_state name c Hin Hn).
      * rewrite (fresh_state name c Hin Hn). exact He.
      * apply fresh_has_nothing_below.
    + rewrite (is_path_selected_unlisted t name rest Hf).
      rewrite is_path_selected_unlisted; [exact Hroot|].
      rewrite reload_eq. simpl. apply find_child_None.
      apply find_child_None in Hf. rewrite Hnames in Hf.
      now rewrite fresh_names.
  - now rewrite !is_path_selected_outside.
Qed.

End RoundTrip.

(** C5, amended.  Over a snapshot whose source directory can be listed, in
    a state reached from a loaded project in which every row below the root
    has the state of the child of the root it lies under, that state being
    [Checked] or [Unchecked], saving the settings and reloading them
    reproduces the effective selection of every path. *)
Theorem reload_preserves_uniform_selection
        (fs : fsnode) (source_dir : path) (es : list (string * fsnode)) (a : app) (q : path) :
  fs = Dir es ->
  NoDup (map fst es) ->
  reachable fs source_dir a ->
  uniform_below_root (tree a) = true ->
  _is_path_selected source_dir (reload fs source_dir (tree a)) q
  = _is_path_selected source_dir (tree a) q.
Proof.
  intros Hfs Hnd Hr Hu.
  destruct (root_ok_reachable fs source_dir es a Hfs Hr)
    as (rn & rs & kids & E & Hn & Hrs & Hex).
  rewrite E in *.
  now apply (reload_selection fs source_dir es Hfs Hnd rn rs kids).
Qed.

Lemma reload_preserves_uniform_selection_witness :
  let es := [("sub", Dir [("b.py", File (Some 3%Z) (Some [x70; x72; x0a]) (Some [x70; x72; x0a]));
                          ("c.bin", File (Some 2%Z) (Some [x00; x01]) (Some [x00; x01]))]);
             ("a.txt", File (Some 1%Z) (Some [x61]) (Some [x61]));
             ("node_modules", Dir [("x.js", File (Some 1%Z) (Some [x78]) (Some [x78]))]);
             ("gone.txt", File None None None)] in
  let a := run_events demo_fs demo_src [Click [3]; Click [0]; Open [3]]
                      (_set_source_directory demo_fs demo_src []) in
  let q := demo_src ++ ["sub"; "c.bin"] in
  demo_fs = Dir es /\
  NoDup (map fst es) /\
  reachable demo_fs demo_src a /\
  uniform_below_root (tree a) = true /\
  _is_path_selected demo_src (reload demo_fs demo_src (tree a)) q
  = _is_path_selected demo_src (tree a) q.
Proof.
  intros es a q.
  assert (H1 : demo_fs = Dir es) by reflexivity.
  assert (H2 : NoDup (map fst es)).
  { simpl. repeat constructor; simpl; intuition discriminate. }
  assert (H3 : reachable demo_fs demo_src a)
    by (exists [], [Click [3]; Click [0]; Open [3]]; reflexivity).
  assert (H4 : uniform_below_root (tree a) = true) by reflexivity.
  repeat (split; [assumption|]).
  exact (reload_preserves_uniform_selection demo_fs demo_src es a q H1 H2 H3 H4).
Defined.

(** ** The calls of [toggle_check] one by one *)

Lemma toggle_first_0 (st : state) (kids : list item) : toggle_first st 0 kids = kids.
Proof. now destruct kids. Qed.

Lemma nth_error_toggle_first (st : state) (kids : list item) (j k : nat) :
  j <= k -> nth_error (toggle_first st j kids) k = nth_error kids k.
Proof.
  revert j k; induction kids as [|c kids IH]; intros [|j] [|k] H; simpl; try reflexivity;
    try lia.
  apply IH. lia.
Qed.

Lemma toggle_first_S (st : state) (kids : list item) (j : nat) (c : item) :
  nth_error kids j = Some c ->
  toggle_first st (S j) kids =
  list_update j (fun c => if is_loading c then c else toggle_item st c)
              (toggle_first st j kids).
Proof.
  revert j; induction kids as [|x kids IH]; intros [|j] H; simpl in *; try discriminate.
  - reflexivity.
  - f_equal. now apply IH.
Qed.

Lemma toggle_first_all (st : state) (kids : list item) (j : nat) :
  List.length kids <= j -> toggle_first st j kids = toggle_kids st kids.
Proof.
  revert j; induction kids as [|x kids IH]; intros [|j] H; simpl in *; try reflexivity;
    try lia.
  f_equal. apply IH. lia.
Qed.

Lemma existsb_firstn_S {A} (f : A -> bool) (l : list A) (j : nat) (c : A) :
  nth_error l j = Some c ->
  existsb f (firstn (S j) l) = existsb f (firstn j l) || f c.
Proof.
  revert j; induction l as [|x l IH]; intros [|j] H; simpl in *; try discriminate.
  - injection H as ->. now rewrite orb_false_r.
  - rewrite (IH _ H). now rewrite orb_assoc.
Qed.

Lemma height_child (n : string) (s : state) (kids : list item) (k : nat) (c : item) :
  nth_error kids k = Some c -> height c < height (Node n s kids).
Proof.
  simpl. revert k; induction kids as [|x kids IH]; intros [|k] H; simpl in *;
    try discriminate.
  - injection H as ->. lia.
  - specialize (IH _ H). lia.
Qed.

Section Calls.

Variable st : state.
Variable fuel : nat.
Variable item_id : iid.
Variables (start : item) (n : string) (s0 : state) (kids : list item).

Hypothesis IHfuel :
  forall i u it, get_item u i = Some it -> height it < fuel ->
                 toggle_check_calls fuel i st u = rebuild u (rev i) (toggle_item st it).
Hypothesis Hstart : get_at start (rev item_id) = Some (Node n s0 kids).
Hypothesis Hheight : height (Node n s0 kids) < S fuel.

Local Abbreviation body :=
  (fun acc k =>
     match get_item acc (k :: item_id) with
     | Some c => if is_loading c then acc else toggle_check_calls fuel (k :: item_id) st acc
     | None => acc
     end).

Local Abbreviation loop_inv := (after_children st start item_id n s0 kids).

Lemma loop_inv_get (j : nat) (acc : item) :
  loop_inv j acc ->
  exists s_acc,
    get_at acc (rev item_id) = Some (Node n s_acc (toggle_first st j kids)) /\
    forall z, rebuild acc (rev item_id) z = rebuild start (rev item_id) z.
Proof.
  unfold after_children.
  destruct (existsb (fun c => negb (is_loading c)) (firstn j kids)).
  - intros ->. eexists. split; [exact (get_at_rebuild_same _ _ _ _ Hstart)|].
    intro z. apply rebuild_rebuild.
  - intros [-> ->]. exists s0. split; [exact Hstart | reflexivity].
Qed.

Lemma children_loop (m : nat) :
  forall j acc,
    j + m = List.length kids ->
    loop_inv j acc ->
    loop_inv (List.length kids) (fold_left body (seq j m) acc).
Proof.
  induction m as [|m IH]; intros j acc Hj Hinv; simpl.
  - replace (List.length kids) with j by lia. exact Hinv.
  - assert (Hlt : j < List.length kids) by lia.
    destruct (nth_error kids j) as [c|] eqn:Hc;
      [|apply nth_error_None in Hc; lia].
    destruct (loop_inv_get j acc Hinv) as (s_acc & Hg & Hr).
    assert (Hgc : get_item acc (j :: item_id) = Some c).
    { unfold get_item. simpl rev. rewrite get_at_app, Hg. simpl.
      rewrite nth_error_toggle_first by lia. now rewrite Hc. }
    rewrite Hgc. apply IH; [lia|]. unfold after_children in *.
    rewrite (toggle_first_S st kids j c Hc), (existsb_firstn_S _ _ _ _ Hc).
    assert (Hid : is_loading c = true ->
                  list_update j (fun c0 => if is_loading c0 then c0 else toggle_item st c0)
                              (toggle_first st j kids) = toggle_first st j kids).
    { intro El. apply list_update_id. intros x Hx.
      rewrite nth_error_toggle_first in Hx by lia.
      assert (x = c) by congruence. subst x. now rewrite El. }
    destruct (is_loading c) eqn:El.
    + rewrite (Hid eq_refl). simpl. rewrite orb_false_r. exact Hinv.
    + simpl. rewrite orb_true_r.
      rewrite (IHfuel _ _ _ Hgc)
        by (pose proof (height_child n s0 kids j c Hc); lia).
      simpl rev. rewrite (rebuild_snoc _ _ _ _ _ _ _ Hg), Hr.
      assert (Hk : list_update j (fun _ => toggle_item st c) (toggle_first st j kids)
                   = list_update j (fun c0 => if is_loading c0 then c0 else toggle_item st c0)
                                 (toggle_first st j kids)).
      { apply list_update_ext. intros x Hx. rewrite nth_error_toggle_first in Hx by lia.
        assert (x = c) by congruence. subst x. now rewrite El. }
      now rewrite Hk.
Qed.

(** The loop over all the children, started from [start]. *)
Lemma children_loop_all :
  fold_left body (seq 0 (List.length kids)) start =
  if existsb (fun c => negb (is_loading c)) kids
  then rebuild start (rev item_id) (Node n st (toggle_kids st kids))
  else start.
Proof.
  assert (H0 : loop_inv 0 start).
  { unfold after_children. simpl. split; reflexivity. }
  pose proof (children_loop (List.length kids) 0 _ eq_refl H0) as H.
  unfold after_children in H. rewrite firstn_all, toggle_first_all in H by lia.
  destruct (existsb (fun c => negb (is_loading c)) kids) eqn:E.
  - now rewrite H, (parent_state_of_toggle_kids st _ E).
  - now destruct H.
Qed.

End Calls.

Lemma toggle_check_calls_rebuild (fuel : nat) :
  forall (item_id : iid) (st : state) (t it : item),
    get_item t item_id = Some it -> height it < fuel ->
    toggle_check_calls fuel item_id st t = rebuild t (rev item_id) (toggle_item st it).
Proof.
  induction fuel as [|fuel IH]; intros item_id st t it Hg Hh; [lia|].
  simpl. rewrite Hg.
  destruct it as [n s kids| |].
  - assert (Hstart : get_at (set_item item_id (Node n st kids) t) (rev item_id)
                     = Some (Node n st kids)).
    { unfold set_item. exact (get_at_set_at_same _ _ _ _ Hg). }
    simpl set_state. simpl get_children.
    rewrite (children_loop_all st fuel item_id _ n st kids (fun i u it => IH i st u it)
                               Hstart Hh).
    unfold set_item at 1 2. rewrite rebuild_set_at.
    destruct (existsb (fun c => negb (is_loading c)) kids) eqn:E.
    + assert (Hi : get_item (rebuild t (rev item_id) (Node n st (toggle_kids st kids)))
                            item_id = Some (Node n st (toggle_kids st kids))).
      { unfold get_item. exact (get_at_rebuild_same _ _ _ _ Hg). }
      now rewrite (update_parent_state_rebuild _ _ _ Hi), rebuild_rebuild.
    + rewrite toggle_item_Node, (toggle_kids_all_loading _ _ E).
      now apply update_parent_state_set with (it := Node n s kids).
  - simpl. now apply update_parent_state_set with (it := Loading).
  - simpl. now apply update_parent_state_set with (it := ErrorEntry st0).
Qed.

(** With fuel above the height of the row, the calls of [toggle_check] one
    by one leave the tree that [toggle_check] gives. *)
Lemma toggle_check_calls_eq (fuel : nat) (item_id : iid) (st : state) (t it : item) :
  get_item t item_id = Some it -> height it < fuel ->
  toggle_check_calls fuel item_id st t = toggle_check item_id st t.
Proof.
  intros Hg Hh. rewrite (toggle_check_calls_rebuild _ _ _ _ _ Hg Hh).
  symmetry. now apply toggle_check_rebuild.
Qed.

(** And so for the loop of [_update_children_state]. *)
Lemma update_children_state_calls_eq (fuel : nat) (item_id : iid) (st : state) (t it : item) :
  get_item t item_id = Some it -> height it <= fuel ->
  update_children_state_calls fuel item_id st t = _update_children_state item_id st t.
Proof.
  intros Hg Hh. unfold update_children_state_calls. rewrite Hg.
  destruct it as [n s kids| |].
  - simpl get_children.
    rewrite (children_loop_all st fuel item_id t n s kids
               (fun i u it => toggle_check_calls_rebuild fuel i st u it) Hg)
      by (simpl in *; lia).
    destruct (existsb (fun c => negb (is_loading c)) kids) eqn:E.
    + symmetry. now apply update_children_state_rebuild with (s := s).
    + symmetry. now apply update_children_state_none with (n := n) (s := s) (kids := kids).
  - unfold _update_children_state. now rewrite Hg.
  - unfold _update_children_state. now rewrite Hg.
Qed.

(** * Further properties of the code *)

(** ** Toggles of one row compose, and leave the other rows alone *)

Lemma toggle_item_twice (s1 s2 : state) (it : item) :
  toggle_item s2 (toggle_item s1 it) = toggle_item s2 it.
Proof.
  induction it as [n s kids IH| |s] using item_nested_ind; simpl; try reflexivity.
  f_equal. rewrite map_map. apply map_ext_in. intros c Hc.
  rewrite Forall_forall in IH.
  destruct (is_loading c) eqn:E.
  - now rewrite E.
  - rewrite is_loading_toggle_item. now apply IH.
Qed.

(** X1.  A later toggle of a row overrides an earlier toggle of the same
    row: after [toggle_check] with [s1] and then with [s2] the tree is the
    one [toggle_check] with [s2] alone leaves; in particular a toggle
    repeated changes nothing. *)
Theorem later_toggle_overrides (t : item) (item_id : iid) (s1 s2 : state) :
  toggle_check item_id s2 (toggle_check item_id s1 t) = toggle_check item_id s2 t /\
  toggle_check item_id s1 (toggle_check item_id s1 t) = toggle_check item_id s1 t.
Proof.
  assert (H : forall a b,
             toggle_check item_id b (toggle_check item_id a t) = toggle_check item_id b t).
  { intros a b. destruct (get_item t item_id) as [it|] eqn:E.
    - rewrite (toggle_check_rebuild _ b _ _ (get_item_toggle_check _ _ _ a E)).
      rewrite !(toggle_check_rebuild _ _ _ _ E).
      now rewrite rebuild_rebuild, toggle_item_twice.
    - unfold toggle_check. rewrite E. now rewrite E. }
  split; apply H.
Qed.

Lemma get_at_rebuild_apart (c : list nat) :
  forall (t new : item) (a b : nat) (r1 r2 : list nat),
    a <> b ->
    get_at (rebuild t (c ++ a :: r1) new) (c ++ b :: r2) = get_at t (c ++ b :: r2).
Proof.
  induction c as [|k c IH]; intros t new a b r1 r2 Hab; cbn [List.app].
  - destruct t as [n s kids| |]; simpl; try reflexivity.
    rewrite nth_error_list_update.
    destruct (Nat.eqb b a) eqn:E; [apply Nat.eqb_eq in E; congruence | reflexivity].
  - destruct t as [n s kids| |]; simpl; try reflexivity.
    rewrite nth_error_list_update, Nat.eqb_refl.
    destruct (nth_error kids k) as [x|]; simpl; [now apply IH | reflexivity].
Qed.

(** X2.  A toggle changes nothing outside the toggled row, the rows below it
    and the rows above it: a row whose id is apart from the toggled id is
    after the toggle what it was before, with everything below it. *)
Theorem toggle_leaves_other_rows (t : item) (item_id j : iid) (st : state) :
  apart item_id j ->
  get_item (toggle_check item_id st t) j = get_item t j.
Proof.
  intros (c & a & b & r1 & r2 & Hab & Hi & Hj).
  destruct (get_item t item_id) as [it|] eqn:E.
  - rewrite (toggle_check_rebuild _ _ _ _ E).
    unfold get_item. rewrite Hi, Hj. now apply get_at_rebuild_apart.
  - unfold toggle_check. now rewrite E.
Qed.

Lemma toggle_leaves_other_rows_witness :
  apart [0; 3] [0] /\
  get_item (toggle_check [0; 3] Unchecked (tree demo_all_opened)) [0]
  = get_item (tree demo_all_opened) [0].
Proof.
  assert (H : apart [0; 3] [0]).
  { exists [], 3, 0, [0], []. repeat split. discriminate. }
  split; [exact H|].
  exact (toggle_leaves_other_rows (tree demo_all_opened) [0; 3] [0] Unchecked H).
Defined.

(** ** One row per path *)

Lemma distinct_names_Node n s kids :
  distinct_names (Node n s kids) <->
  NoDup (row_names kids) /\ Forall distinct_names kids.
Proof.
  simpl.
  assert (E : (fix each (l : list item) : Prop :=
                 match l with
                 | [] => True
                 | c :: l' => distinct_names c /\ each l'
                 end) kids <-> Forall distinct_names kids).
  { induction kids as [|c kids IH]; simpl.
    - split; [constructor | trivial].
    - split.
      + intros [Hc Hk]. constructor; [exact Hc | now apply IH].
      + intro H. inversion H; subst. split; [assumption | now apply IH]. }
  now rewrite E.
Qed.

Lemma fs_distinct_Dir es :
  fs_distinct (Dir es) <->
  NoDup (map fst es) /\ Forall (fun e => fs_distinct (snd e)) es.
Proof.
  simpl.
  assert (E : (fix each (es : list (string * fsnode)) : Prop :=
                 match es with
                 | [] => True
                 | (_, c) :: es' => fs_distinct c /\ each es'
                 end) es <-> Forall (fun e => fs_distinct (snd e)) es).
  { induction es as [|[name c] es IH]; simpl.
    - split; [constructor | trivial].
    - split.
      + intros [Hc Hk]. constructor; [exact Hc | now apply IH].
      + intro H. inversion H; subst. split; [assumption | now apply IH]. }
  now rewrite E.
Qed.

Lemma assoc_In (name : string) (es : list (string * fsnode)) (c : fsnode) :
  assoc name es = Some c -> In (name, c) es.
Proof.
  induction es as [|[m x] es IH]; simpl; [discriminate|].
  destruct (String.eqb name m) eqn:E.
  - apply String.eqb_eq in E. subst m. intro H; injection H as ->. now left.
  - intro H. right. now apply IH.
Qed.

Lemma fs_distinct_find (rel : path) :
  forall n m, fs_distinct n -> fs_find n rel = Some m -> fs_distinct m.
Proof.
  induction rel as [|name rel IH]; intros n m Hn; simpl.
  - now intros H; injection H as <-.
  - destruct n as [| es |]; try discriminate.
    destruct (assoc name es) as [c|] eqn:E; [|discriminate].
    apply IH. apply fs_distinct_Dir in Hn as [_ Hall].
    rewrite Forall_forall in Hall. exact (Hall _ (assoc_In _ _ _ E)).
Qed.

Lemma listdir_NoDup (fs : fsnode) (source_dir p : path) (names : list string) :
  fs_distinct fs -> listdir fs source_dir p = Some names -> NoDup names.
Proof.
  unfold listdir, fs_at. intro Hfs.
  destruct (strip_prefix source_dir p) as [rel|]; [|discriminate].
  destruct (fs_find fs rel) as [[| es |]|] eqn:E; try discriminate.
  intro H; injection H as <-.
  apply (fs_distinct_find _ _ _ Hfs) in E. now apply fs_distinct_Dir in E.
Qed.

Lemma row_names_list_update (f : item -> item) (kids : list item) (k : nat) :
  (forall c, nth_error kids k = Some c -> name_of (f c) = name_of c) ->
  row_names (list_update k f kids) = row_names kids.
Proof.
  revert k; induction kids as [|x kids IH]; intros [|k] H; simpl; try reflexivity.
  - specialize (H x eq_refl). destruct x, (f _); simpl in H; try discriminate;
      try reflexivity. now injection H as ->.
  - specialize (IH k H). destruct x; simpl; now rewrite IH.
Qed.

Lemma row_names_map (f : item -> item) (kids : list item) :
  (forall c, name_of (f c) = name_of c) ->
  row_names (map f kids) = row_names kids.
Proof.
  intro H. induction kids as [|x kids IH]; simpl; [reflexivity|].
  specialize (H x). destruct x, (f _); simpl in H; try discriminate; try exact IH.
  injection H as ->. now rewrite IH.
Qed.

Lemma distinct_names_replace_at g (pos : list nat) :
  forall (t it new : item),
    distinct_names t ->
    get_at t pos = Some it ->
    name_of new = name_of it ->
    distinct_names new ->
    distinct_names (replace_at g t pos new).
Proof.
  induction pos as [|k rest IH]; intros t it new Ht Hg Hn Hnew; [exact Hnew|].
  destruct (get_at_cons_Node _ _ _ _ Hg) as (n & s & kids & c & -> & Hk & Hc).
  simpl replace_at. apply distinct_names_Node in Ht as [Hnd Hall].
  apply distinct_names_Node. split.
  - rewrite row_names_list_update; [exact Hnd|].
    intros x Hx. assert (x = c) by congruence. subst x.
    eapply name_of_replace_at; eassumption.
  - apply Forall_list_update; [exact Hall|].
    intros x Hx Hdx. assert (x = c) by congruence. subst x.
    now apply (IH _ it).
Qed.

Lemma distinct_names_toggle_item (st : state) (it : item) :
  distinct_names it -> distinct_names (toggle_item st it).
Proof.
  induction it as [n s kids IH| |s] using item_nested_ind; intro H; simpl; auto.
  change (distinct_names (Node n st (toggle_kids st kids))).
  apply distinct_names_Node in H as [Hnd Hall].
  apply distinct_names_Node. split.
  - unfold toggle_kids. rewrite row_names_map; [exact Hnd|].
    intro c. destruct (is_loading c); [reflexivity | apply name_of_toggle_item].
  - unfold toggle_kids. apply Forall_map.
    rewrite Forall_forall in *. intros c Hc.
    destruct (is_loading c); [now apply Hall | apply IH; auto].
Qed.

Section OneRowPerPath.

Variable fs : fsnode.
Variable source_dir : path.
Hypothesis Hdir : fs_is_dir fs = true.
Hypothesis Hfs : fs_distinct fs.

Lemma row_names_new_rows (checked : list path) (p : path) (names : list string) :
  row_names (map (fun name => _add_node_to_tree fs source_dir checked (join p name)) names)
  = names.
Proof.
  induction names as [|x names IH]; simpl; [reflexivity|].
  now rewrite basename_join, IH.
Qed.

Lemma distinct_names_new_rows (checked : list path) (p : path) (names : list string) :
  Forall distinct_names
         (map (fun name => _add_node_to_tree fs source_dir checked (join p name)) names).
Proof.
  apply Forall_map, Forall_forall. intros name _.
  unfold _add_node_to_tree. apply distinct_names_Node.
  destruct (isdir fs source_dir (join p name)).
  - destruct (listdir fs source_dir (join p name)) as [[|x l]|]; simpl;
      split; repeat constructor; auto.
  - split; constructor.
Qed.

Lemma distinct_names_listed (checked : list path) (p : path) (ls : list string) n s :
  listdir fs source_dir p = Some ls ->
  distinct_names
    (Node n s (map (fun name => _add_node_to_tree fs source_dir checked (join p name))
                   (sorted ls))).
Proof.
  intro Hl. apply distinct_names_Node. split.
  - rewrite row_names_new_rows. apply NoDup_sort_by.
    exact (listdir_NoDup _ _ _ _ Hfs Hl).
  - apply distinct_names_new_rows.
Qed.

Lemma distinct_names_populate_tree (checked : list path) :
  distinct_names (populate_tree fs source_dir checked).
Proof.
  unfold populate_tree.
  destruct (listdir fs source_dir source_dir) as [ls|] eqn:El.
  - pose proof (distinct_names_listed (map resolve checked) source_dir ls
                  (root_name source_dir) Unchecked El) as H.
    apply distinct_names_Node in H.
    destruct (map _ (sorted ls)) as [|c l] eqn:E.
    + apply distinct_names_Node. exact H.
    + change (distinct_names (Node (root_name source_dir) (parent_state_of (c :: l)) (c :: l))).
      apply distinct_names_Node. exact H.
  - change (distinct_names (Node (root_name source_dir)
                                 (parent_state_of [ErrorEntry NoState])
                                 [ErrorEntry NoState])).
    apply distinct_names_Node. split; repeat constructor.
Qed.

Lemma distinct_names_toggle_check (t : item) (item_id : iid) (st : state) :
  distinct_names t -> distinct_names (toggle_check item_id st t).
Proof.
  intro Ht. destruct (get_item t item_id) as [it|] eqn:E.
  - rewrite (toggle_check_rebuild _ _ _ _ E), rebuild_replace_at.
    apply (distinct_names_replace_at _ _ _ it); auto.
    + apply name_of_toggle_item.
    + apply distinct_names_toggle_item.
      clear - Ht E. unfold get_item in E. revert t Ht E.
      induction (rev item_id) as [|k rest IH]; intros t Ht E.
      * simpl in E. now injection E as <-.
      * destruct (get_at_cons_Node _ _ _ _ E) as (n & s & kids & c & -> & Hk & Hc).
        apply distinct_names_Node in Ht as [_ Hall]. rewrite Forall_forall in Hall.
        apply (IH c); [|exact Hc]. apply Hall. eapply nth_error_In; eassumption.
  - unfold toggle_check. now rewrite E.
Qed.

Lemma distinct_names_on_tree_open (saved : list path) (item_id : iid) (t : item) :
  well_formed fs source_dir source_dir t ->
  distinct_names t ->
  distinct_names (on_tree_open fs source_dir saved item_id t).
Proof.
  intros Hwf Ht. unfold on_tree_open.
  destruct (get_item t item_id) as [[n ps [|[| |] rest]| |]|] eqn:Hg; auto.
  unfold fullpath.
  destruct (names_at t (rev item_id)) as [names|] eqn:Hn; simpl; auto.
  pose proof (well_formed_get_at _ _ _ _ _ _ Hwf Hg) as Hit.
  apply well_formed_Node in Hit as (Hcond & _ & _).
  assert (Hrest : rest = [] /\ explicit ps).
  { destruct Hcond as [[E He] | [Hall _]].
    - now injection E as ->.
    - inversion Hall; discriminate. }
  destruct Hrest as [-> Hps]. cbn [List.app].
  assert (Hput : forall X g, name_of X = Some n -> distinct_names X ->
                   distinct_names (replace_at g t (rev item_id) X)).
  { intros X g Hname HX.
    apply (distinct_names_replace_at g _ _ (Node n ps [Loading])); auto. }
  destruct (listdir fs source_dir (source_dir ++ names)) as [ls|] eqn:El.
  - set (new := map (fun item_name =>
                       _add_node_to_tree fs source_dir (map resolve saved)
                                         (join (source_dir ++ names) item_name))
                    (sorted ls)).
    assert (HX1 : distinct_names (Node n ps new))
      by (apply distinct_names_listed; exact El).
    assert (Ht1 : distinct_names (set_item item_id (Node n ps new) t)).
    { unfold set_item. rewrite set_at_replace_at. now apply Hput. }
    destruct (negb (state_eqb ps Unchecked)); [|exact Ht1].
    assert (Hg1 : get_item (set_item item_id (Node n ps new) t) item_id
                  = Some (Node n ps new)).
    { unfold get_item, set_item. exact (get_at_set_at_same _ _ _ _ Hg). }
    destruct (existsb (fun c => negb (is_loading c)) new) eqn:Ex.
    + rewrite (update_children_state_rebuild _ _ _ _ _ _ Hg1 Ex).
      unfold set_item. rewrite rebuild_set_at, rebuild_replace_at.
      apply Hput; [reflexivity|].
      exact (distinct_names_toggle_item ps (Node n ps new) HX1).
    + now rewrite (update_children_state_none _ _ _ _ _ _ Hg1 Ex).
  - unfold set_item. rewrite set_at_replace_at. apply Hput; [reflexivity|].
    apply distinct_names_Node. split; repeat constructor.
Qed.

Lemma distinct_names_reachable (a : app) :
  reachable fs source_dir a -> distinct_names (tree a).
Proof.
  intros (stored_paths & es & ->).
  unfold run_events.
  assert (H0 : well_formed fs source_dir source_dir
                 (tree (_set_source_directory fs source_dir stored_paths)) /\
               distinct_names (tree (_set_source_directory fs source_dir stored_paths))).
  { split; [now apply well_formed_populate_tree | apply distinct_names_populate_tree]. }
  revert H0. generalize (_set_source_directory fs source_dir stored_paths).
  induction es as [|e es IH]; intros a [Hw Hd]; simpl; [exact Hd|].
  apply IH. split; [now apply well_formed_handle|].
  destruct e as [i|i| |]; simpl.
  - now apply distinct_names_on_tree_open.
  - unfold on_single_click. destruct (get_item (tree a) i) as [it|]; [|exact Hd].
    simpl. now apply distinct_names_toggle_check.
  - exact Hd.
  - apply distinct_names_populate_tree.
Qed.

End OneRowPerPath.


Lemma In_row_names (kids : list item) (k : nat) m s l :
  nth_error kids k = Some (Node m s l) -> In m (row_names kids).
Proof.
  revert k; induction kids as [|x kids IH]; intros [|k]; simpl; try discriminate.
  - intro H; injection H as ->. now left.
  - intro H. apply IH in H. destruct x; [right|..]; exact H.
Qed.

Lemma find_child_nth (kids : list item) :
  NoDup (row_names kids) ->
  forall k m s l,
    nth_error kids k = Some (Node m s l) ->
    find_child m kids = Some (k, Node m s l).
Proof.
  induction kids as [|x kids IH]; intros Hnd [|k] m s l; simpl; try discriminate.
  - intro H; injection H as ->. now rewrite String.eqb_refl.
  - intro H. destruct x as [m' s' l'| |]; simpl in Hnd.
    + inversion Hnd as [|? ? Hnot Hnd']; subst.
      destruct (String.eqb m m') eqn:E.
      * apply String.eqb_eq in E. subst m'. exfalso. apply Hnot.
        eapply In_row_names; eassumption.
      * now rewrite (IH Hnd' _ _ _ _ H).
    + now rewrite (IH Hnd _ _ _ _ H).
    + now rewrite (IH Hnd _ _ _ _ H).
Qed.

Lemma names_at_pos_of_names (pos : list nat) :
  forall (t : item) (rel : path),
    distinct_names t -> names_at t pos = Some rel -> pos_of_names t rel = Some pos.
Proof.
  induction pos as [|k rest IH]; intros t rel Ht; simpl.
  - now intros H; injection H as <-.
  - destruct (nth_error (get_children t) k) as [[m s l| |]|] eqn:Hk; try discriminate.
    destruct (names_at (Node m s l) rest) as [rel'|] eqn:Hr; [|discriminate].
    simpl. intro H; injection H as <-.
    destruct t as [n st kids| |]; simpl in Hk; try (destruct k; discriminate).
    apply distinct_names_Node in Ht as [Hnd Hall].
    simpl. rewrite (find_child_nth _ Hnd _ _ _ _ Hk).
    rewrite (IH _ _ (proj1 (Forall_forall _ _) Hall _ (nth_error_In _ _ Hk)) Hr).
    reflexivity.
Qed.

Lemma map_items_mapped (t : item) :
  forall (p q : path) (s : state),
    distinct_names t ->
    In (q, s) (map_items p t) ->
    exists rel, q = p ++ rel /\ option_map item_state (find_node t rel) = Some s.
Proof.
  induction t as [n st kids IH| |st] using item_nested_ind; intros p q s Ht; simpl;
    try contradiction.
  intros [H | H].
  - injection H as <- <-. exists []. now rewrite app_nil_r.
  - apply in_flat_map in H as (c & Hc & Hin).
    destruct c as [m sc kc| |]; try contradiction.
    apply distinct_names_Node in Ht as [Hnd Hall].
    rewrite Forall_forall in IH, Hall.
    destruct (IH _ Hc (join p m) q s (Hall _ Hc) Hin) as (rel & -> & Hf).
    exists (m :: rel). split; [unfold join; now rewrite <- app_assoc|].
    destruct (In_nth_error _ _ Hc) as [k Hk].
    simpl. now rewrite (find_child_nth _ Hnd _ _ _ _ Hk).
Qed.

Lemma name_of_toggle_check (t : item) (item_id : iid) (st : state) :
  name_of (toggle_check item_id st t) = name_of t.
Proof.
  destruct (get_item t item_id) as [it|] eqn:E.
  - rewrite (toggle_check_rebuild _ _ _ _ E).
    apply (name_of_rebuild _ it); [exact E | apply name_of_toggle_item].
  - unfold toggle_check. now rewrite E.
Qed.

Lemma name_of_on_tree_open (fs : fsnode) (source_dir : path) (saved : list path)
      (item_id : iid) (t : item) :
  name_of (on_tree_open fs source_dir saved item_id t) = name_of t.
Proof.
  unfold on_tree_open.
  destruct (get_item t item_id) as [[n ps [|[| |] rest]| |]|] eqn:Hg; auto.
  destruct (fullpath source_dir t item_id) as [p|]; auto.
  assert (Hset : forall kids, name_of (set_item item_id (Node n ps kids) t) = name_of t).
  { intro kids. unfold set_item. rewrite set_at_replace_at.
    now apply (name_of_replace_at _ _ (Node n ps (Loading :: rest))). }
  destruct (listdir fs source_dir p) as [ls|]; [|apply Hset].
  set (kids := rest ++ _).
  destruct (negb (state_eqb ps Unchecked)); [|apply Hset].
  assert (Hg1 : get_item (set_item item_id (Node n ps kids) t) item_id
                = Some (Node n ps kids)).
  { unfold get_item, set_item. exact (get_at_set_at_same _ _ _ _ Hg). }
  destruct (existsb (fun c => negb (is_loading c)) kids) eqn:Ex.
  - rewrite (update_children_state_rebuild _ _ _ _ _ _ Hg1 Ex).
    rewrite (name_of_rebuild _ (Node n ps kids)); [apply Hset | exact Hg1 | reflexivity].
  - rewrite (update_children_state_none _ _ _ _ _ _ Hg1 Ex). apply Hset.
Qed.

Lemma reachable_root_is_row (fs : fsnode) (source_dir : path) (a : app) :
  reachable fs source_dir a -> name_of (tree a) <> None.
Proof.
  intros (stored_paths & es & ->). unfold run_events.
  assert (H0 : name_of (tree (_set_source_directory fs source_dir stored_paths)) <> None).
  { simpl. unfold populate_tree.
    destruct (match listdir fs source_dir source_dir with
              | Some names => _ | None => _ end); discriminate. }
  revert H0. generalize (_set_source_directory fs source_dir stored_paths).
  induction es as [|e es IH]; intros a Ha; simpl; [exact Ha|].
  apply IH. destruct e as [i|i| |]; simpl.
  - now rewrite name_of_on_tree_open.
  - unfold on_single_click. destruct (get_item (tree a) i) as [it|]; [|exact Ha].
    simpl. now rewrite name_of_toggle_check.
  - exact Ha.
  - unfold populate_tree.
    destruct (match listdir fs source_dir source_dir with
              | Some names => _ | None => _ end); discriminate.
Qed.

Lemma stored_iff_mapped (source_dir : path) (t : item) (p : path) :
  distinct_names t -> name_of t <> None ->
  (In p (_save_settings_for_current_project source_dir t) <->
   exists s, mapped_state source_dir t p = Some s /\ s <> Unchecked).
Proof.
  intros Hd Hn. rewrite In_save_checked_paths. split.
  - intros (q & s & -> & Hin & Hs). exists s. split; [|exact Hs].
    destruct (map_items_mapped _ _ _ _ Hd Hin) as (rel & -> & Hf).
    unfold resolve. now rewrite mapped_state_find, strip_prefix_app.
  - intros (s & Hm & Hs). exists p, s. repeat split; auto.
    now apply mapped_row_in_map_items.
Qed.

(** X3.  Over a snapshot whose directories have entries of distinct names,
    in every state reached from a loaded project no two rows have the same
    full path, and the row that [path_to_id_map] gives for a path is the row
    whose full path it is: the entry of a path is never overwritten by a
    second row. *)
Theorem one_row_per_path (fs : fsnode) (source_dir : path) (a : app) :
  fs_is_dir fs = true ->
  fs_distinct fs ->
  reachable fs source_dir a ->
  (forall i j p, fullpath source_dir (tree a) i = Some p ->
                 fullpath source_dir (tree a) j = Some p -> i = j) /\
  (forall i p, path_to_id source_dir (tree a) p = Some i <->
               fullpath source_dir (tree a) i = Some p).
Proof.
  intros Hdir Hfs Hr.
  pose proof (distinct_names_reachable fs source_dir Hdir Hfs a Hr) as Hd.
  assert (Hinv : forall i p, fullpath source_dir (tree a) i = Some p ->
                             path_to_id source_dir (tree a) p = Some i).
  { intros i p. unfold fullpath, path_to_id.
    destruct (names_at (tree a) (rev i)) as [rel|] eqn:E; [|discriminate].
    simpl. intro H; injection H as <-. rewrite strip_prefix_app.
    rewrite (names_at_pos_of_names _ _ _ Hd E). simpl. now rewrite rev_involutive. }
  split.
  - intros i j p Hi Hj. apply Hinv in Hi, Hj. congruence.
  - intros i p. split; [apply path_to_id_fullpath | apply Hinv].
Qed.

Lemma one_row_per_path_witness :
  fs_is_dir demo_fs = true /\ fs_distinct demo_fs /\ reachable demo_fs demo_src demo_app /\
  (forall i j p, fullpath demo_src (tree demo_app) i = Some p ->
                 fullpath demo_src (tree demo_app) j = Some p -> i = j) /\
  (forall i p, path_to_id demo_src (tree demo_app) p = Some i <->
               fullpath demo_src (tree demo_app) i = Some p).
Proof.
  assert (H1 : fs_is_dir demo_fs = true) by reflexivity.
  assert (H2 : fs_distinct demo_fs).
  { simpl. repeat split; repeat constructor; simpl; intuition discriminate. }
  assert (H3 : reachable demo_fs demo_src demo_app).
  { exists [], [Open [3]; Click [0; 3]]. reflexivity. }
  split; [exact H1|]. split; [exact H2|]. split; [exact H3|].
  exact (one_row_per_path demo_fs demo_src demo_app H1 H2 H3).
Defined.

(** X4.  Over a snapshot with distinct entry names, in every reachable state
    the checked paths that [_save_settings_for_current_project] computes
    there, which are the stored paths once the settings are saved in that
    state, are exactly the paths whose mapped row has a state other than
    [Unchecked]: a path whose row is [Unchecked] is not among them, and a
    path whose row is [Checked] is among them and effectively selected.
    Nothing is said of the stored paths between two saves: opening a
    directory adds rows and stores nothing. *)
Theorem stored_iff_row_not_unchecked (fs : fsnode) (source_dir : path) (a : app) (p : path) :
  fs_is_dir fs = true ->
  fs_distinct fs ->
  reachable fs source_dir a ->
  stored (handle fs source_dir Save a)
  = _save_settings_for_current_project source_dir (tree a) /\
  (In p (_save_settings_for_current_project source_dir (tree a)) <->
   exists s, mapped_state source_dir (tree a) p = Some s /\ s <> Unchecked) /\
  (mapped_state source_dir (tree a) p = Some Unchecked ->
   ~ In p (_save_settings_for_current_project source_dir (tree a))) /\
  (mapped_state source_dir (tree a) p = Some Checked ->
   In p (_save_settings_for_current_project source_dir (tree a)) /\
   _is_path_selected source_dir (tree a) p = true).
Proof.
  intros Hdir Hfs Hr.
  pose proof (distinct_names_reachable fs source_dir Hdir Hfs a Hr) as Hd.
  pose proof (reachable_root_is_row fs source_dir a Hr) as Hn.
  pose proof (stored_iff_mapped source_dir (tree a) p Hd Hn) as Hiff.
  split; [reflexivity|]. split; [exact Hiff|]. split.
  - intros Hm Hin. apply Hiff in Hin as (s & Hs & Hne). congruence.
  - intro Hm. split.
    + apply Hiff. exists Checked. split; [exact Hm | discriminate].
    + rewrite (is_path_selected_explicit source_dir _ _ _ Hm); [reflexivity | now left].
Qed.

Lemma stored_iff_row_not_unchecked_witness :
  let p := demo_src ++ ["sub"; "b.py"] in
  fs_is_dir demo_fs = true /\ fs_distinct demo_fs /\ reachable demo_fs demo_src demo_app /\
  stored (handle demo_fs demo_src Save demo_app)
  = _save_settings_for_current_project demo_src (tree demo_app) /\
  (In p (_save_settings_for_current_project demo_src (tree demo_app)) <->
   exists s, mapped_state demo_src (tree demo_app) p = Some s /\ s <> Unchecked) /\
  (mapped_state demo_src (tree demo_app) p = Some Unchecked ->
   ~ In p (_save_settings_for_current_project demo_src (tree demo_app))) /\
  (mapped_state demo_src (tree demo_app) p = Some Checked ->
   In p (_save_settings_for_current_project demo_src (tree demo_app)) /\
   _is_path_selected demo_src (tree demo_app) p = true).
Proof.
  intro p.
  assert (H1 : fs_is_dir demo_fs = true) by reflexivity.
  assert (H2 : fs_distinct demo_fs).
  { simpl. repeat split; repeat constructor; simpl; intuition discriminate. }
  assert (H3 : reachable demo_fs demo_src demo_app).
  { exists [], [Open [3]; Click [0; 3]]. reflexivity. }
  split; [exact H1|]. split; [exact H2|]. split; [exact H3|].
  exact (stored_iff_row_not_unchecked demo_fs demo_src demo_app p H1 H2 H3).
Defined.

(** X5.  Over a snapshot with distinct entry names, a click that unchecks
    the row of a path (the row was [Checked]) leaves no path at or below it
    among the stored paths; a click that checks it (the row was [Unchecked]
    or [Tristate]) stores every path at or below it that has a row. *)
Theorem click_updates_stored_paths
        (fs : fsnode) (source_dir : path) (a : app) (p rest : path) (i : iid) (it : item) :
  fs_is_dir fs = true ->
  fs_distinct fs ->
  reachable fs source_dir a ->
  path_to_id source_dir (tree a) p = Some i ->
  get_item (tree a) i = Some it ->
  let a' := on_single_click source_dir i a in
  (item_state it = Checked -> ~ In (p ++ rest) (stored a')) /\
  (item_state it <> Checked ->
   mapped_state source_dir (tree a') (p ++ rest) <> None -> In (p ++ rest) (stored a')).
Proof.
  intros Hdir Hfs Hr Hp Hi a'.
  assert (Hr' : reachable fs source_dir a').
  { destruct Hr as (sp & es & ->). exists sp, (es ++ [Click i]).
    unfold run_events. now rewrite fold_left_app. }
  pose proof (distinct_names_reachable fs source_dir Hdir Hfs a' Hr') as Hd.
  pose proof (reachable_root_is_row fs source_dir a' Hr') as Hn.
  pose proof (stored_iff_mapped source_dir (tree a') (p ++ rest) Hd Hn) as Hiff.
  assert (Ea : a' = {| tree := toggle_check i (click_state (item_state it)) (tree a);
                       stored := _save_settings_for_current_project source_dir
                                   (toggle_check i (click_state (item_state it)) (tree a)) |}).
  { unfold a', on_single_click. now rewrite Hi. }
  assert (Hst : stored a' = _save_settings_for_current_project source_dir (tree a'))
    by now rewrite Ea.
  pose proof (mapped_state_toggle_check source_dir (tree a) p rest i
                (click_state (item_state it)) Hp) as Hm.
  assert (Et : tree a' = toggle_check i (click_state (item_state it)) (tree a))
    by now rewrite Ea.
  rewrite <- Et in Hm. rewrite Hst. split.
  - intros Hs Hin.
    assert (Ec : click_state (item_state it) = Unchecked) by (rewrite Hs; reflexivity).
    rewrite Ec in Hm.
    apply Hiff in Hin as (s & Hms & Hne).
    destruct Hm as [Hm | Hm]; congruence.
  - intros Hs Hmapped. apply Hiff.
    assert (Ec : click_state (item_state it) = Checked)
      by (destruct (item_state it); try reflexivity; now elim Hs).
    rewrite Ec in Hm. destruct Hm as [Hm | Hm]; [contradiction|].
    exists Checked. split; [exact Hm | discriminate].
Qed.

Lemma click_updates_stored_paths_witness :
  let p := demo_src ++ ["sub"] in
  let a' := on_single_click demo_src [3] demo_all_opened in
  fs_is_dir demo_fs = true /\ fs_distinct demo_fs /\
  reachable demo_fs demo_src demo_all_opened /\
  path_to_id demo_src (tree demo_all_opened) p = Some [3] /\
  (exists it, get_item (tree demo_all_opened) [3] = Some it /\
     (item_state it = Checked -> ~ In (p ++ ["b.py"]) (stored a')) /\
     (item_state it <> Checked ->
      mapped_state demo_src (tree a') (p ++ ["b.py"]) <> None ->
      In (p ++ ["b.py"]) (stored a'))).
Proof.
  intros p a'.
  assert (H1 : fs_is_dir demo_fs = true) by reflexivity.
  assert (H2 : fs_distinct demo_fs).
  { simpl. repeat split; repeat constructor; simpl; intuition discriminate. }
  assert (H3 : reachable demo_fs demo_src demo_all_opened).
  { exists [], [Click []; Open [3]]. reflexivity. }
  assert (H4 : path_to_id demo_src (tree demo_all_opened) p = Some [3]) by reflexivity.
  split; [exact H1|]. split; [exact H2|]. split; [exact H3|]. split; [exact H4|].
  destruct (get_item (tree demo_all_opened) [3]) as [it|] eqn:E; [|discriminate].
  exists it. split; [reflexivity|].
  exact (click_updates_stored_paths demo_fs demo_src demo_all_opened p ["b.py"] [3] it
           H1 H2 H3 H4 E).
Defined.


(** ** What a load reads from the stored paths *)

Lemma new_row_has_nothing_below (fs : fsnode) (source_dir : path) (checked : list path)
      (p : path) (x : string) (r : path) :
  find_node (_add_node_to_tree fs source_dir checked p) (x :: r) = None.
Proof.
  unfold _add_node_to_tree. simpl.
  destruct (isdir fs source_dir p); [|reflexivity].
  destruct (listdir fs source_dir p) as [[|y l]|]; reflexivity.
Qed.

Lemma new_row_state (fs : fsnode) (source_dir : path) (checked : list path) (p : path) :
  item_state (_add_node_to_tree fs source_dir checked p)
  = if mem_path p checked then Checked else Unchecked.
Proof. reflexivity. Qed.

Lemma new_rows_find (fs : fsnode) (source_dir : path) (checked : list path) (p : path)
      (names : list string) (name : string) :
  NoDup names -> In name names ->
  exists k,
    find_child name
      (map (fun nm => _add_node_to_tree fs source_dir checked (join p nm)) names)
    = Some (k, _add_node_to_tree fs source_dir checked (join p name)).
Proof.
  intros Hnd Hin.
  set (rows := map (fun nm => _add_node_to_tree fs source_dir checked (join p nm)) names).
  assert (Hnd' : NoDup (row_names rows))
    by (unfold rows; now rewrite row_names_new_rows).
  assert (Hrow : In (_add_node_to_tree fs source_dir checked (join p name)) rows)
    by (unfold rows; apply in_map_iff; now exists name).
  destruct (In_nth_error _ _ Hrow) as [k Hk].
  exists k.
  assert (Er : exists s l, _add_node_to_tree fs source_dir checked (join p name)
                           = Node name s l).
  { unfold _add_node_to_tree. rewrite basename_join. eauto. }
  destruct Er as (s & l & Er). rewrite Er in Hk |- *.
  exact (find_child_nth rows Hnd' k name s l Hk).
Qed.

Lemma new_rows_not_found (fs : fsnode) (source_dir : path) (checked : list path) (p : path)
      (names : list string) (name : string) :
  ~ In name names ->
  find_child name
    (map (fun nm => _add_node_to_tree fs source_dir checked (join p nm)) names) = None.
Proof.
  intro Hn. apply find_child_None. rewrite map_map. intro H.
  apply in_map_iff in H as (x & E & Hx).
  unfold _add_node_to_tree in E. simpl in E. rewrite basename_join in E.
  injection E as ->. contradiction.
Qed.

Lemma populate_tree_eq (fs : fsnode) (source_dir : path) (es : list (string * fsnode))
      (checked : list path) :
  fs = Dir es ->
  let rows := map (fun nm => _add_node_to_tree fs source_dir checked (join source_dir nm))
                  (sorted (map fst es)) in
  populate_tree fs source_dir checked =
  Node (root_name source_dir)
       (match rows with
        | [] => if mem_path source_dir checked then Checked else Unchecked
        | _ :: _ => parent_state_of rows
        end)
       rows.
Proof.
  intros Hfs rows. unfold populate_tree.
  rewrite (listdir_source_dir fs source_dir es Hfs), map_resolve. unfold resolve.
  fold rows. destruct rows as [|c l]; reflexivity.
Qed.

Lemma new_rows_loaded (fs : fsnode) (source_dir : path) (checked : list path) (p : path)
      (names : list string) :
  loaded_children (map (fun nm => _add_node_to_tree fs source_dir checked (join p nm)) names)
  = map (fun nm => _add_node_to_tree fs source_dir checked (join p nm)) names.
Proof.
  unfold loaded_children. induction names as [|x l IH]; simpl; [reflexivity|].
  now rewrite IH.
Qed.

(** X6.  When a project is loaded over a source directory with entries of
    distinct names, a path at or below an entry of the source directory is
    effectively selected exactly when that entry is among the stored
    checked paths: stored paths deeper in the tree play no part at load.
    The root row takes its state from those entries ([Checked] when all of
    them are stored, [Unchecked] when none is) and from its own stored path
    only when the directory is empty. *)
Theorem load_reads_top_level_entries
        (fs : fsnode) (source_dir : path) (es : list (string * fsnode))
        (checked : list path) :
  fs = Dir es ->
  NoDup (map fst es) ->
  let t := populate_tree fs source_dir checked in
  (forall name rest, In name (map fst es) ->
     _is_path_selected source_dir t (source_dir ++ name :: rest)
     = mem_path (source_dir ++ [name]) checked) /\
  (es <> [] ->
   (item_state t = Checked <->
    forall name, In name (map fst es) -> mem_path (source_dir ++ [name]) checked = true) /\
   (item_state t = Unchecked <->
    forall name, In name (map fst es) -> mem_path (source_dir ++ [name]) checked = false)) /\
  (es = [] ->
   item_state t = if mem_path source_dir checked then Checked else Unchecked).
Proof.
  intros Hfs Hnd t.
  pose proof (populate_tree_eq fs source_dir es checked Hfs) as Et. cbv zeta in Et.
  set (rows := map (fun nm => _add_node_to_tree fs source_dir checked (join source_dir nm))
                   (sorted (map fst es))) in Et.
  fold t in Et.
  assert (Hs : NoDup (sorted (map fst es))) by now apply NoDup_sort_by.
  split; [|split].
  - intros name rest Hin.
    assert (Hin' : In name (sorted (map fst es))) by now apply In_sort_by.
    destruct (new_rows_find fs source_dir checked source_dir _ name Hs Hin') as [k Hf].
    fold rows in Hf.
    rewrite (is_path_selected_under_child source_dir t
               (_add_node_to_tree fs source_dir checked (join source_dir name)) name k rest).
    + rewrite new_row_state. unfold join.
      destruct (mem_path (source_dir ++ [name]) checked); reflexivity.
    + rewrite Et. exact Hf.
    + rewrite new_row_state.
      destruct (mem_path (join source_dir name) checked); [left | right]; reflexivity.
    + intros [|x r] c'; [now intros H; injection H as <-|].
      now rewrite new_row_has_nothing_below.
  - intro Hne.
    destruct es as [|[nm0 n0] es']; [congruence|].
    assert (Hin0 : In nm0 (sorted (map fst ((nm0, n0) :: es'))))
      by (apply In_sort_by; now left).
    set (c0 := _add_node_to_tree fs source_dir checked (join source_dir nm0)).
    assert (Hc0 : In c0 (loaded_children rows)).
    { unfold rows. rewrite new_rows_loaded. apply in_map_iff. now exists nm0. }
    assert (Htri : tri (item_state c0)).
    { unfold c0. rewrite new_row_state. unfold tri.
      destruct (mem_path (join source_dir nm0) checked); auto. }
    destruct (parent_state_of_rule rows c0 Hc0 Htri) as (HC & HU & _).
    assert (Est : item_state t = parent_state_of rows).
    { rewrite Et. destruct rows as [|x l] eqn:E; [|reflexivity].
      rewrite <- E in Hc0. rewrite E in Hc0. destruct Hc0. }
    assert (Hall : forall s,
               (forall c, In c (loaded_children rows) -> item_state c = s) <->
               (forall name, In name (map fst ((nm0, n0) :: es')) ->
                  (if mem_path (source_dir ++ [name]) checked then Checked else Unchecked)
                  = s)).
    { intro s. unfold rows. rewrite new_rows_loaded. split.
      - intros H name Hin. apply (proj2 (In_sort_by (fun x => x) name _)) in Hin.
        rewrite <- (H (_add_node_to_tree fs source_dir checked (join source_dir name))).
        + reflexivity.
        + apply in_map_iff. now exists name.
      - intros H c Hc. apply in_map_iff in Hc as (name & <- & Hin).
        apply (proj1 (In_sort_by (fun x => x) name _)) in Hin. rewrite new_row_state.
        exact (H name Hin). }
    rewrite Est. split.
    + rewrite HC, (Hall Checked). split; intros H name Hin; specialize (H name Hin).
      * destruct (mem_path (source_dir ++ [name]) checked); [reflexivity | discriminate].
      * now rewrite H.
    + rewrite HU, (Hall Unchecked). split; intros H name Hin; specialize (H name Hin).
      * destruct (mem_path (source_dir ++ [name]) checked); [discriminate | reflexivity].
      * now rewrite H.
  - intros ->. rewrite Et. reflexivity.
Qed.

Lemma load_reads_top_level_entries_witness :
  let es := [("src", Dir [("m.py", File (Some 1%Z) (Some []) (Some []))]);
             ("a.txt", File (Some 1%Z) (Some []) (Some []))] in
  let checked := [["p"; "src"; "m.py"]; ["p"; "a.txt"]] in
  let t := populate_tree (Dir es) ["p"] checked in
  Dir es = Dir es /\
  NoDup (map fst es) /\
  (forall name rest, In name (map fst es) ->
     _is_path_selected ["p"] t (["p"] ++ name :: rest)
     = mem_path (["p"] ++ [name]) checked) /\
  (es <> [] ->
   (item_state t = Checked <->
    forall name, In name (map fst es) -> mem_path (["p"] ++ [name]) checked = true) /\
   (item_state t = Unchecked <->
    forall name, In name (map fst es) -> mem_path (["p"] ++ [name]) checked = false)) /\
  (es = [] ->
   item_state t = if mem_path ["p"] checked then Checked else Unchecked).
Proof.
  intros es checked t.
  assert (Hnd : NoDup (map fst es)).
  { simpl. repeat constructor; simpl; intuition discriminate. }
  split; [reflexivity|]. split; [exact Hnd|].
  exact (load_reads_top_level_entries (Dir es) ["p"] es checked eq_refl Hnd).
Defined.


(** ** What opening a directory loads *)

Lemma find_node_replace_at g (t it new : item) (rel rest : path) (pos : list nat) :
  pos_of_names t rel = Some pos ->
  get_at t pos = Some it ->
  name_of new = name_of it ->
  find_node (replace_at g t pos new) (rel ++ rest) = find_node new rest.
Proof.
  revert t pos; induction rel as [|name rel IH]; intros t pos; simpl.
  - intro H; injection H as <-. reflexivity.
  - destruct (find_child name (get_children t)) as [[k c]|] eqn:E; [|discriminate].
    destruct (pos_of_names c rel) as [pos'|] eqn:Ep; simpl; [|discriminate].
    intro H; injection H as <-. intros Hg Hn.
    destruct (get_at_cons_Node _ _ _ _ Hg) as (n & s & kids & c' & -> & Hk & Hc).
    simpl in E. pose proof (find_child_Some _ _ _ _ E) as [Hk' Hname].
    assert (c' = c) by congruence. subst c'.
    simpl.
    rewrite (find_child_list_update _ _ _ _ (fun c => replace_at g c pos' new) E).
    + now apply IH.
    + rewrite (name_of_replace_at g _ _ _ _ Hc Hn). exact Hname.
Qed.

(** The tree after a directory row is opened: the row holds the rows of the
    listing in place of its ["loading..."] row, toggled to the state of the
    row unless that state is [Unchecked]. *)
Lemma on_tree_open_eq (fs : fsnode) (source_dir : path) (saved : list path)
      (item_id : iid) (t : item) n ps rest (p : path) (ls : list string) :
  get_item t item_id = Some (Node n ps (Loading :: rest)) ->
  fullpath source_dir t item_id = Some p ->
  listdir fs source_dir p = Some ls ->
  let kids := rest ++ map (fun nm => _add_node_to_tree fs source_dir saved (join p nm))
                          (sorted ls) in
  exists g,
    on_tree_open fs source_dir saved item_id t =
    replace_at g t (rev item_id)
               (Node n ps (if state_eqb ps Unchecked then kids else toggle_kids ps kids)).
Proof.
  intros Hg Hp Hl kids. unfold on_tree_open. rewrite Hg, Hp, Hl, map_resolve.
  fold kids.
  destruct (state_eqb ps Unchecked) eqn:Eu; simpl negb; cbv iota.
  - exists (fun s _ => s). unfold set_item. apply set_at_replace_at.
  - assert (Hg1 : get_item (set_item item_id (Node n ps kids) t) item_id
                  = Some (Node n ps kids)).
    { unfold get_item, set_item. exact (get_at_set_at_same _ _ _ _ Hg). }
    destruct (existsb (fun c => negb (is_loading c)) kids) eqn:Ex.
    + exists (fun _ l => parent_state_of l).
      rewrite (update_children_state_rebuild _ _ _ _ _ _ Hg1 Ex).
      unfold set_item. now rewrite rebuild_set_at, rebuild_replace_at.
    + exists (fun s _ => s).
      rewrite (update_children_state_none _ _ _ _ _ _ Hg1 Ex).
      rewrite (toggle_kids_all_loading _ _ Ex).
      unfold set_item. apply set_at_replace_at.
Qed.

Lemma find_child_in_toggle_kids (st : state) (name : string) (kids : list item)
      (k : nat) (c : item) :
  find_child name kids = Some (k, c) ->
  find_child name (toggle_kids st kids) = Some (k, toggle_item st c).
Proof.
  revert k; induction kids as [|x kids IH]; intro k; simpl; [discriminate|].
  destruct x as [m s ks| |]; simpl.
  - destruct (String.eqb name m) eqn:E.
    + intro H; injection H as <- <-. reflexivity.
    + fold (toggle_kids st kids).
      destruct (find_child name kids) as [[k' c']|]; simpl; [|discriminate].
      intro H; injection H as <- <-. now rewrite (IH _ eq_refl).
  - fold (toggle_kids st kids).
    destruct (find_child name kids) as [[k' c']|]; simpl; [|discriminate].
    intro H; injection H as <- <-. now rewrite (IH _ eq_refl).
  - fold (toggle_kids st kids).
    destruct (find_child name kids) as [[k' c']|]; simpl; [|discriminate].
    intro H; injection H as <- <-. now rewrite (IH _ eq_refl).
Qed.

Lemma toggled_new_row_has_nothing_below (fs : fsnode) (source_dir : path)
      (checked : list path) (st : state) (p : path) (x : string) (r : path) :
  find_node (toggle_item st (_add_node_to_tree fs source_dir checked p)) (x :: r) = None.
Proof.
  unfold _add_node_to_tree. simpl.
  destruct (isdir fs source_dir p); [|reflexivity].
  destruct (listdir fs source_dir p) as [[|y l]|]; reflexivity.
Qed.

(** X7.  Over a snapshot with distinct entry names, in a reachable state,
    opening a directory row that still holds its ["loading..."] row gives
    every entry of the directory a row: [Checked] when the directory row is
    [Checked], whatever the stored paths say, and otherwise [Checked] exactly
    when the path of the entry is stored; every path at or below the entry
    is effectively selected accordingly, and the directory row keeps its
    state. *)
Theorem open_loads_children
        (fs : fsnode) (source_dir : path) (a : app) (item_id : iid)
        n ps rest0 (p : path) (ls : list string) :
  fs_is_dir fs = true ->
  fs_distinct fs ->
  reachable fs source_dir a ->
  get_item (tree a) item_id = Some (Node n ps (Loading :: rest0)) ->
  fullpath source_dir (tree a) item_id = Some p ->
  listdir fs source_dir p = Some ls ->
  let t' := on_tree_open fs source_dir (stored a) item_id (tree a) in
  let loaded name := state_eqb ps Checked || mem_path (p ++ [name]) (stored a) in
  mapped_state source_dir t' p = Some ps /\
  forall name rest, In name ls ->
    mapped_state source_dir t' (p ++ [name])
    = Some (if loaded name then Checked else Unchecked) /\
    _is_path_selected source_dir t' (p ++ name :: rest) = loaded name.
Proof.
  intros Hdir Hfs Hr Hg Hp Hl t' loaded.
  pose proof (distinct_names_reachable fs source_dir Hdir Hfs a Hr) as Hd.
  pose proof (well_formed_reachable fs source_dir a Hdir Hr) as Hwf.
  pose proof (well_formed_get_at _ _ _ _ _ _ Hwf Hg) as Hit.
  apply well_formed_Node in Hit as (Hcond & _ & _).
  assert (Hrest : rest0 = [] /\ explicit ps).
  { destruct Hcond as [[E He] | [Hall _]].
    - now injection E as ->.
    - inversion Hall; discriminate. }
  destruct Hrest as [-> Hps].
  destruct (on_tree_open_eq fs source_dir (stored a) item_id (tree a) n ps [] p ls Hg Hp Hl)
    as [g Eg].
  fold t' in Eg. cbn [List.app] in Eg.
  set (new := map (fun nm => _add_node_to_tree fs source_dir (stored a) (join p nm))
                  (sorted ls)) in Eg.
  set (K := if state_eqb ps Unchecked then new else toggle_kids ps new) in Eg.
  unfold fullpath in Hp.
  destruct (names_at (tree a) (rev item_id)) as [rel|] eqn:Hn; [|discriminate].
  simpl in Hp. injection Hp as <-.
  pose proof (names_at_pos_of_names _ _ _ Hd Hn) as Hpos.
  assert (Hfind : forall r, find_node t' (rel ++ r) = find_node (Node n ps K) r).
  { intro r. rewrite Eg.
    now apply (find_node_replace_at g _ (Node n ps [Loading])). }
  split.
  { rewrite mapped_state_below. rewrite <- (app_nil_r rel), Hfind. reflexivity. }
  intros name rest Hin.
  assert (Hs : NoDup (sorted ls))
    by (apply NoDup_sort_by; exact (listdir_NoDup _ _ _ _ Hfs Hl)).
  assert (Hin' : In name (sorted ls)) by now apply In_sort_by.
  destruct (new_rows_find fs source_dir (stored a) (source_dir ++ rel) _ name Hs Hin')
    as [k Hf].
  fold new in Hf.
  set (row := _add_node_to_tree fs source_dir (stored a) (join (source_dir ++ rel) name))
    in Hf.
  set (row' := if state_eqb ps Unchecked then row else toggle_item ps row).
  assert (HfK : find_child name K = Some (k, row')).
  { unfold K, row'. destruct (state_eqb ps Unchecked); [exact Hf|].
    now apply find_child_in_toggle_kids. }
  assert (Hst : item_state row' = if loaded name then Checked else Unchecked).
  { unfold row', loaded. destruct Hps as [-> | ->].
    - change (state_eqb Checked Unchecked) with false.
      change (state_eqb Checked Checked) with true.
      cbv iota. cbn [orb]. now rewrite item_state_toggle_item.
    - change (state_eqb Unchecked Unchecked) with true.
      change (state_eqb Unchecked Checked) with false.
      cbv iota. cbn [orb]. unfold row. rewrite new_row_state. reflexivity. }
  assert (Hbelow : forall x r, find_node row' (x :: r) = None).
  { intros x r. unfold row'. destruct (state_eqb ps Unchecked).
    - apply new_row_has_nothing_below.
    - apply toggled_new_row_has_nothing_below. }
  assert (Hnode : forall r, find_node (Node n ps K) (name :: r) = find_node row' r).
  { intro r. simpl. now rewrite HfK. }
  assert (Hm : mapped_state source_dir t' ((source_dir ++ rel) ++ [name])
               = Some (if loaded name then Checked else Unchecked)).
  { rewrite <- app_assoc, mapped_state_below, Hfind. cbn [List.app].
    rewrite Hnode. simpl. now rewrite Hst. }
  split; [exact Hm|].
  change (name :: rest) with ([name] ++ rest). rewrite app_assoc.
  rewrite (is_path_selected_under source_dir t' _
             (if loaded name then Checked else Unchecked)).
  - now destruct (loaded name).
  - destruct (loaded name); [left | right]; reflexivity.
  - exact Hm.
  - intros [|x r]; [rewrite app_nil_r; now right|].
    left. rewrite <- !app_assoc, mapped_state_below, Hfind. cbn [List.app].
    now rewrite Hnode, Hbelow.
Qed.

Lemma open_loads_children_witness :
  let a := _set_source_directory demo_fs demo_src [demo_src ++ ["sub"; "b.py"]] in
  let t' := on_tree_open demo_fs demo_src (stored a) [3] (tree a) in
  let loaded name :=
    state_eqb Unchecked Checked || mem_path ((demo_src ++ ["sub"]) ++ [name]) (stored a) in
  fs_is_dir demo_fs = true /\ fs_distinct demo_fs /\ reachable demo_fs demo_src a /\
  get_item (tree a) [3] = Some (Node "sub" Unchecked [Loading]) /\
  fullpath demo_src (tree a) [3] = Some (demo_src ++ ["sub"]) /\
  listdir demo_fs demo_src (demo_src ++ ["sub"]) = Some ["b.py"; "c.bin"] /\
  mapped_state demo_src t' (demo_src ++ ["sub"]) = Some Unchecked /\
  forall name rest, In name ["b.py"; "c.bin"] ->
    mapped_state demo_src t' ((demo_src ++ ["sub"]) ++ [name])
    = Some (if loaded name then Checked else Unchecked) /\
    _is_path_selected demo_src t' ((demo_src ++ ["sub"]) ++ name :: rest) = loaded name.
Proof.
  intros a t' loaded.
  assert (H1 : fs_is_dir demo_fs = true) by reflexivity.
  assert (H2 : fs_distinct demo_fs).
  { simpl. repeat split; repeat constructor; simpl; intuition discriminate. }
  assert (H3 : reachable demo_fs demo_src a) by (exists [demo_src ++ ["sub"; "b.py"]], []; reflexivity).
  assert (H4 : get_item (tree a) [3] = Some (Node "sub" Unchecked [Loading])) by reflexivity.
  assert (H5 : fullpath demo_src (tree a) [3] = Some (demo_src ++ ["sub"])) by reflexivity.
  assert (H6 : listdir demo_fs demo_src (demo_src ++ ["sub"]) = Some ["b.py"; "c.bin"])
    by reflexivity.
  split; [exact H1|]. split; [exact H2|]. split; [exact H3|]. split; [exact H4|].
  split; [exact H5|]. split; [exact H6|].
  exact (open_loads_children demo_fs demo_src a [3] "sub" Unchecked [] (demo_src ++ ["sub"])
           ["b.py"; "c.bin"] H1 H2 H3 H4 H5 H6).
Defined.


(** ** The nested calls of a toggle *)

(** X8.  The calls of [toggle_check] and [_update_children_state] into each
    other end: once the nesting allowed exceeds the height of the toggled
    row, the calls made one by one, each child recomputing the rows above
    it, leave the toggled row and every loaded row below it with the new
    state and the rows above recomputed once, which is the tree
    [toggle_check] gives; and so for the loop of [_update_children_state]. *)
Theorem nested_toggle_calls_end
        (fuel : nat) (item_id : iid) (st : state) (t it : item) :
  get_item t item_id = Some it ->
  height it < fuel ->
  toggle_check_calls fuel item_id st t = rebuild t (rev item_id) (toggle_item st it) /\
  toggle_check_calls fuel item_id st t = toggle_check item_id st t /\
  update_children_state_calls fuel item_id st t = _update_children_state item_id st t.
Proof.
  intros Hg Hh. split; [|split].
  - now apply toggle_check_calls_rebuild.
  - now apply toggle_check_calls_eq with (it := it).
  - apply update_children_state_calls_eq with (it := it); [exact Hg | lia].
Qed.

Lemma nested_toggle_calls_end_witness :
  let t := tree demo_all_opened in
  let it := Node "sub" Checked [Node "b.py" Checked []; Node "c.bin" Checked []] in
  get_item t [3] = Some it /\
  height it < 3 /\
  toggle_check_calls 3 [3] Unchecked t = rebuild t (rev [3]) (toggle_item Unchecked it) /\
  toggle_check_calls 3 [3] Unchecked t = toggle_check [3] Unchecked t /\
  update_children_state_calls 3 [3] Unchecked t = _update_children_state [3] Unchecked t.
Proof.
  intros t it.
  assert (H1 : get_item t [3] = Some it) by reflexivity.
  assert (H2 : height it < 3) by (simpl; lia).
  split; [exact H1|]. split; [exact H2|].
  exact (nested_toggle_calls_end 3 [3] Unchecked t it H1 H2).
Defined.

(** ** The files a run collects *)

Lemma assoc_of_In (name : string) (es : list (string * fsnode)) (c : fsnode) :
  NoDup (map fst es) -> In (name, c) es -> assoc name es = Some c.
Proof.
  induction es as [|[m x] es IH]; simpl; [contradiction|].
  intros Hnd [H | H].
  - injection H as -> ->. now rewrite String.eqb_refl.
  - inversion Hnd as [|? ? Hnot Hnd']; subst.
    destruct (String.eqb name m) eqn:E.
    + apply String.eqb_eq in E. subst m. exfalso. apply Hnot.
      apply in_map_iff. now exists (name, c).
    + now apply IH.
Qed.

Section Collection.

Variable lower : string -> string.
Variable source_dir : path.
Variable cfg : filter_config.
Variable t : item.

(** What [walk] keeps of the directories of [es]. *)
Lemma In_walk_subdirs (dirpath : path) (es : list (string * fsnode)) (f : path) :
  In f ((fix subdirs (es : list (string * fsnode)) : list path :=
           match es with
           | [] => []
           | (d, c) :: es' =>
               (if fs_is_dir c && negb (_is_path_ignored lower cfg (join dirpath d))
                then walk lower source_dir cfg t c (join dirpath d)
                else [])
               ++ subdirs es'
           end) es) <->
  exists d c, In (d, c) es /\ fs_is_dir c = true /\
              _is_path_ignored lower cfg (join dirpath d) = false /\
              In f (walk lower source_dir cfg t c (join dirpath d)).
Proof.
  induction es as [|[d c] es IH]; simpl.
  - split; [contradiction | now intros (d & c & [] & _)].
  - rewrite in_app_iff, IH. split.
    + intros [H | (d' & c' & Hin & H)].
      * destruct (fs_is_dir c) eqn:Ed; [|destruct H].
        destruct (_is_path_ignored lower cfg (join dirpath d)) eqn:Ei; [destruct H|].
        exists d, c. auto.
      * exists d', c'. tauto.
    + intros (d' & c' & [E | Hin] & Hd & Hi & Hf).
      * injection E as -> ->. left. now rewrite Hd, Hi.
      * right. exists d', c'. auto.
Qed.

Lemma walk_exactly (n : fsnode) :
  fs_distinct n ->
  forall dirpath f,
    In f (walk lower source_dir cfg t n dirpath) <->
    exists rel size probe data,
      rel <> [] /\ f = dirpath ++ rel /\
      fs_find n rel = Some (File size probe data) /\
      (forall r1 r2, rel = r1 ++ r2 -> r1 <> [] ->
                     _is_path_ignored lower cfg (dirpath ++ r1) = false) /\
      _is_path_selected source_dir t f = true.
Proof.
  induction n as [size probe data|es IH|] using fsnode_nested_ind; intros Hn dirpath f.
  - simpl. split; [contradiction|].
    intros ([|x rel] & s & p & d & Hne & _ & Hf & _); [congruence | discriminate].
  - apply fs_distinct_Dir in Hn as [Hnd Hall].
    rewrite Forall_forall in IH, Hall.
    change (walk lower source_dir cfg t (Dir es) dirpath)
      with (filter (fun filepath =>
                      negb (_is_path_ignored lower cfg filepath)
                      && _is_path_selected source_dir t filepath)
                   (map (join dirpath)
                        (map fst (filter (fun e => negb (fs_is_dir (snd e))) es)))
            ++ (fix subdirs (es : list (string * fsnode)) : list path :=
                  match es with
                  | [] => []
                  | (d, c) :: es' =>
                      (if fs_is_dir c && negb (_is_path_ignored lower cfg (join dirpath d))
                       then walk lower source_dir cfg t c (join dirpath d)
                       else [])
                      ++ subdirs es'
                  end) es).
    rewrite in_app_iff, In_walk_subdirs. split.
    + intros [H | (d & c & Hin & Hd & Hi & Hf)].
      * apply filter_In in H as [H Hk]. apply andb_true_iff in Hk as [Hi Hs].
        apply negb_true_iff in Hi.
        apply in_map_iff in H as (name & <- & H).
        apply in_map_iff in H as ([name' c] & E & H). simpl in E. subst name'.
        apply filter_In in H as [Hin Hc]. simpl in Hc.
        destruct c as [size probe data| |]; try discriminate.
        exists [name], size, probe, data. repeat split; auto.
        -- discriminate.
        -- simpl. now rewrite (assoc_of_In _ _ _ Hnd Hin).
        -- intros r1 r2 E Hr1. destruct r1 as [|x r1]; [congruence|].
           injection E as <- E. destruct r1; [exact Hi | discriminate].
      * apply (IH _ Hin (Hall _ Hin)) in Hf
          as (rel & size & probe & data & Hne & -> & Hfind & Hpre & Hs).
        exists (d :: rel), size, probe, data. repeat split; auto.
        -- discriminate.
        -- unfold join. now rewrite <- app_assoc.
        -- simpl. now rewrite (assoc_of_In _ _ _ Hnd Hin).
        -- intros r1 r2 E Hr1. destruct r1 as [|x r1]; [congruence|].
           injection E as <- E. destruct r1 as [|y r1]; [exact Hi|].
           specialize (Hpre (y :: r1) r2 E). unfold join in Hpre.
           rewrite <- app_assoc in Hpre. apply Hpre. discriminate.
    + intros (rel & size & probe & data & Hne & -> & Hfind & Hpre & Hs).
      destruct rel as [|name rel]; [congruence|].
      simpl in Hfind. destruct (assoc name es) as [c|] eqn:Ea; [|discriminate].
      pose proof (assoc_In _ _ _ Ea) as Hin.
      assert (Hi : _is_path_ignored lower cfg (join dirpath name) = false)
        by (apply (Hpre [name] rel); [reflexivity | discriminate]).
      destruct rel as [|x rel].
      * left. simpl in Hfind. injection Hfind as ->.
        apply filter_In. split.
        -- apply in_map_iff. exists name. split; [reflexivity|].
           apply in_map_iff. exists (name, File size probe data). split; [reflexivity|].
           apply filter_In. split; [exact Hin | reflexivity].
        -- fold (join dirpath name). rewrite Hi. exact Hs.
      * right. exists name, c.
        assert (Hd : fs_is_dir c = true) by (destruct c; [discriminate | | ]; reflexivity).
        repeat split; auto.
        apply (IH _ Hin (Hall _ Hin)).
        exists (x :: rel), size, probe, data.
        split; [discriminate|]. split; [unfold join; now rewrite <- app_assoc|].
        split; [exact Hfind|]. split.
        -- intros r1 r2 E Hr1. unfold join. rewrite <- app_assoc.
           apply (Hpre (name :: r1) r2); [simpl; now rewrite E | discriminate].
        -- exact Hs.
  - simpl. split; [contradiction|].
    intros ([|x rel] & s & p & d & Hne & _ & Hf & _); [congruence | discriminate].
Qed.

End Collection.

(** X9.  Over a snapshot with distinct entry names, the files a run
    collects are exactly the files of the snapshot below the source
    directory that are effectively selected and such that neither the file
    nor any directory between it and the source directory is ignored (a
    directory ignored for its extension hides its files as one ignored for
    its name does); whether a directory on the way is selected plays no
    part. *)
Theorem collected_files_exactly
        (lower : string -> string) (fs : fsnode) (source_dir : path) (cfg : filter_config) (t : item) (f : path) :
  fs_distinct fs ->
  (In f (files_to_process lower fs source_dir cfg t) <->
   exists rel size probe data,
     rel <> [] /\ f = source_dir ++ rel /\
     fs_find fs rel = Some (File size probe data) /\
     (forall r1 r2, rel = r1 ++ r2 -> r1 <> [] ->
                    _is_path_ignored lower cfg (source_dir ++ r1) = false) /\
     _is_path_selected source_dir t f = true).
Proof.
  intro Hfs. unfold files_to_process. now apply walk_exactly.
Qed.

Lemma collected_files_exactly_witness :
  let f := demo_src ++ ["sub"; "b.py"] in
  fs_distinct demo_fs /\
  (In f (files_to_process ascii_lower demo_fs demo_src default_filter (tree demo_app)) <->
   exists rel size probe data,
     rel <> [] /\ f = demo_src ++ rel /\
     fs_find demo_fs rel = Some (File size probe data) /\
     (forall r1 r2, rel = r1 ++ r2 -> r1 <> [] ->
                    _is_path_ignored ascii_lower default_filter (demo_src ++ r1) = false) /\
     _is_path_selected demo_src (tree demo_app) f = true).
Proof.
  intro f.
  assert (H : fs_distinct demo_fs).
  { simpl. repeat split; repeat constructor; simpl; intuition discriminate. }
  split; [exact H|].
  exact (collected_files_exactly ascii_lower demo_fs demo_src default_filter (tree demo_app) f H).
Defined.


Lemma NoDup_app_disjoint {A} (l l' : list A) :
  NoDup l -> NoDup l' -> (forall a, In a l -> ~ In a l') -> NoDup (l ++ l').
Proof.
  induction 1 as [|x l Hx Hl IH]; intros Hl' Hd; simpl; [exact Hl'|].
  constructor.
  - rewrite in_app_iff. intros [H | H]; [now apply Hx | apply (Hd x); [now left | exact H]].
  - apply IH; [exact Hl'|]. intros a Ha. apply Hd. now right.
Qed.

Lemma NoDup_map_filter {A B} (f : A -> B) (g : A -> bool) (l : list A) :
  NoDup (map f l) -> NoDup (map f (filter g l)).
Proof.
  induction l as [|x l IH]; simpl; [auto|].
  intro H. inversion H as [|? ? Hx Hl]; subst.
  destruct (g x); simpl; [|now apply IH].
  constructor; [|now apply IH].
  intro Hin. apply Hx. apply in_map_iff in Hin as (y & E & Hy).
  apply in_map_iff. exists y. split; [exact E|]. now apply filter_In in Hy as [Hy _].
Qed.

Section CollectedOnce.

Variable lower : string -> string.
Variable source_dir : path.
Variable cfg : filter_config.
Variable t : item.

Lemma walk_below (n : fsnode) (dirpath f : path) :
  fs_distinct n -> In f (walk lower source_dir cfg t n dirpath) ->
  exists rel, rel <> [] /\ f = dirpath ++ rel.
Proof.
  intros Hn H. apply (walk_exactly lower source_dir cfg t n Hn) in H
    as (rel & _ & _ & _ & Hne & E & _).
  now exists rel.
Qed.

Lemma NoDup_walk (n : fsnode) :
  fs_distinct n -> forall dirpath, NoDup (walk lower source_dir cfg t n dirpath).
Proof.
  induction n as [size probe data|es IH|] using fsnode_nested_ind; intros Hn dirpath;
    try (simpl; constructor).
  apply fs_distinct_Dir in Hn as [Hnd Hall].
  change (walk lower source_dir cfg t (Dir es) dirpath)
    with (filter (fun filepath =>
                    negb (_is_path_ignored lower cfg filepath)
                    && _is_path_selected source_dir t filepath)
                 (map (join dirpath)
                      (map fst (filter (fun e => negb (fs_is_dir (snd e))) es)))
          ++ (fix subdirs (es : list (string * fsnode)) : list path :=
                match es with
                | [] => []
                | (d, c) :: es' =>
                    (if fs_is_dir c && negb (_is_path_ignored lower cfg (join dirpath d))
                     then walk lower source_dir cfg t c (join dirpath d)
                     else [])
                    ++ subdirs es'
                end) es).
  apply NoDup_app_disjoint.
  - apply NoDup_filter. apply NoDup_map_NoDup_ForallPairs.
    + intros x y _ _ E. unfold join in E. apply app_inv_head in E. now injection E.
    + now apply NoDup_map_filter.
  - clear - IH Hnd Hall. induction es as [|[d c] es IHes]; [constructor|].
    inversion IH as [|? ? Hc Hes]; subst. inversion Hall as [|? ? Hdc Hdes]; subst.
    simpl in Hnd. inversion Hnd as [|? ? Hnot Hnd']; subst. simpl in Hc, Hdc.
    apply NoDup_app_disjoint; [| now apply IHes |].
    + destruct (fs_is_dir c && negb (_is_path_ignored lower cfg (join dirpath d)));
        [now apply Hc | constructor].
    + intros a Ha Hb.
      destruct (fs_is_dir c && negb (_is_path_ignored lower cfg (join dirpath d)));
        [|destruct Ha].
      apply (walk_below _ _ _ Hdc) in Ha as (rel & _ & Ea).
      apply In_walk_subdirs in Hb as (d' & c' & Hin & _ & _ & Hb).
      rewrite Forall_forall in Hdes.
      apply (walk_below _ _ _ (Hdes _ Hin)) in Hb as (rel' & _ & Eb).
      rewrite Ea in Eb. unfold join in Eb. rewrite <- !app_assoc in Eb.
      apply app_inv_head in Eb. injection Eb as -> _.
      apply Hnot. apply in_map_iff. now exists (d', c').
  - intros a Ha Hb.
    apply filter_In in Ha as [Ha _]. apply in_map_iff in Ha as (name & <- & _).
    apply In_walk_subdirs in Hb as (d & c & Hin & _ & _ & Hb).
    rewrite Forall_forall in Hall.
    apply (walk_below _ _ _ (Hall _ Hin)) in Hb as (rel & Hne & Eb).
    unfold join in Eb. rewrite <- app_assoc in Eb. apply app_inv_head in Eb.
    injection Eb as _ Eb. now subst rel.
Qed.

End CollectedOnce.

(** X10.  Over a snapshot with distinct entry names no file is collected
    twice, and no file is written to the dump twice, whatever happens during
    the run. *)
Theorem no_file_collected_twice
        (lower : string -> string) (fs : fsnode) (source_dir : path) (cfg : filter_config)
        (t : item) :
  fs_distinct fs ->
  NoDup (files_to_process lower fs source_dir cfg t) /\
  forall decode e output_file,
    NoDup (written_files (process_files lower decode fs source_dir cfg t e output_file)).
Proof.
  intro Hfs.
  assert (H : NoDup (files_to_process lower fs source_dir cfg t))
    by (unfold files_to_process; now apply NoDup_walk).
  split; [exact H|].
  intros decode e output_file.
  destruct (written_files_reached lower decode fs source_dir cfg t e output_file)
    as [-> | [max_size ->]]; [constructor|].
  apply NoDup_filter. now apply NoDup_reached.
Qed.

Lemma no_file_collected_twice_witness :
  fs_distinct demo_fs /\
  NoDup (files_to_process ascii_lower demo_fs demo_src default_filter (tree demo_all)) /\
  forall decode e output_file,
    NoDup (written_files (process_files ascii_lower decode demo_fs demo_src default_filter
                                        (tree demo_all) e output_file)).
Proof.
  assert (H : fs_distinct demo_fs).
  { simpl. repeat split; repeat constructor; simpl; intuition discriminate. }
  split; [exact H|].
  exact (no_file_collected_twice ascii_lower demo_fs demo_src default_filter
                                 (tree demo_all) H).
Defined.

(** ** The entries a listing shows *)

Section Listing.

Variable lower : string -> string.
Variable source_dir : path.
Variable cfg : filter_config.
Variable t : item.
Variable full_tree : bool.

(** The filters of [recurse_tree] on one entry. *)
Local Abbreviation passes p :=
  (full_tree = false ->
   _is_path_ignored lower cfg p = false /\ _is_path_selected source_dir t p = true).

Lemma In_emit_entries (Q : string -> path -> Prop) (dirpath : path) (entries : list rendered) :
  Forall (fun r => forall prefix p,
              (exists line, In (p, line) (snd (snd r) prefix)) <-> Q (fst r) p) entries ->
  forall prefix p,
    (exists line, In (p, line) (emit_entries lower source_dir cfg t full_tree dirpath prefix entries))
    <->
    exists name is_dir below,
      In (name, (is_dir, below)) entries /\
      passes (join dirpath name) /\
      (p = join dirpath name \/ (is_dir = true /\ Q name p)).
Proof.
  induction 1 as [|[name [is_dir below]] rest Hb Hrest IH]; intros prefix p.
  - simpl. split; [intros [line []] | intros (n & d & b & [] & _)].
  - simpl in Hb.
    assert (Hskip : ~ passes (join dirpath name) ->
              ((exists line, In (p, line)
                  (emit_entries lower source_dir cfg t full_tree dirpath prefix rest)) <->
               exists name0 is_dir0 below0,
                 In (name0, (is_dir0, below0)) ((name, (is_dir, below)) :: rest) /\
                 passes (join dirpath name0) /\
                 (p = join dirpath name0 \/ (is_dir0 = true /\ Q name0 p)))).
    { intro Hno. rewrite IH. split.
      - intros (n & d & b & Hin & H). exists n, d, b. split; [now right | exact H].
      - intros (n & d & b & [E | Hin] & Hp & H).
        + injection E as <- <- <-. contradiction.
        + exists n, d, b. auto. }
    cbn [emit_entries].
    destruct (negb full_tree && _is_path_ignored lower cfg (join dirpath name)) eqn:E1.
    { apply Hskip. apply andb_true_iff in E1 as [Ef Ei].
      apply negb_true_iff in Ef. intro Hp. destruct (Hp Ef). congruence. }
    destruct (negb full_tree && negb (_is_path_selected source_dir t (join dirpath name)))
             eqn:E2.
    { apply Hskip. apply andb_true_iff in E2 as [Ef Es].
      apply negb_true_iff in Ef. apply negb_true_iff in Es.
      intro Hp. destruct (Hp Ef). congruence. }
    assert (Hp : passes (join dirpath name)).
    { intros ->. simpl in E1, E2. apply negb_false_iff in E2. now split. }
    split.
    + intros [line Hin]. rewrite <- app_comm_cons in Hin.
      destruct Hin as [E | Hin].
      * injection E as <- _. exists name, is_dir, below.
        split; [now left|]. split; [exact Hp | now left].
      * apply in_app_iff in Hin as [Hin | Hin].
        -- destruct is_dir; [|destruct Hin].
           exists name, true, below. split; [now left|]. split; [exact Hp|].
           right. split; [reflexivity|].
           eapply (proj1 (Hb _ p)). exists line. exact Hin.
        -- destruct (proj1 (IH prefix p) (ex_intro _ line Hin))
             as (n & d & b & Hin' & H).
           exists n, d, b. split; [now right | exact H].
    + intros (n & d & b & [E | Hin] & Hpn & H).
      * injection E as <- <- <-. destruct H as [-> | [-> HQ]].
        -- eexists. left. reflexivity.
        -- apply (Hb (prefix ++ match rest with [] => "    " | _ => "│   " end)%string p)
             in HQ as [line Hl].
           exists line. right. apply in_app_iff. left.
           destruct rest; exact Hl.
      * destruct (proj2 (IH prefix p)) as [line Hl].
        { exists n, d, b. auto. }
        exists line. right. apply in_app_iff. now right.
Qed.

Lemma In_rendered (dirpath : path) (es : list (string * fsnode)) (r : rendered) :
  In r (sort_by fst
          ((fix each (es : list (string * fsnode)) : list rendered :=
              match es with
              | [] => []
              | (name, c) :: es' =>
                  (name, (fs_is_dir c,
                          recurse_tree lower source_dir cfg t full_tree c (join dirpath name)))
                    :: each es'
              end) es)) <->
  exists name c, In (name, c) es /\
                 r = (name, (fs_is_dir c,
                             recurse_tree lower source_dir cfg t full_tree c (join dirpath name))).
Proof.
  rewrite In_sort_by. induction es as [|[name c] es IH]; simpl.
  - split; [contradiction | now intros (n & c & [] & _)].
  - rewrite IH. split.
    + intros [<- | (n & c' & Hin & E)]; [exists name, c; auto | exists n, c'; auto].
    + intros (n & c' & [E | Hin] & ->).
      * injection E as -> ->. now left.
      * right. now exists n, c'.
Qed.

Lemma recurse_tree_exactly (n : fsnode) :
  fs_distinct n ->
  forall dirpath prefix p,
    (exists line, In (p, line) (recurse_tree lower source_dir cfg t full_tree n dirpath prefix)) <->
    exists rel,
      rel <> [] /\ p = dirpath ++ rel /\ fs_find n rel <> None /\
      forall r1 r2, rel = r1 ++ r2 -> r1 <> [] -> passes (dirpath ++ r1).
Proof.
  induction n as [size probe data|es IH|] using fsnode_nested_ind; intros Hn dirpath prefix p.
  - simpl. split; [intros [line []]|].
    intros ([|x rel] & Hne & _ & Hf & _); [congruence | now elim Hf].
  - apply fs_distinct_Dir in Hn as [Hnd Hall].
    rewrite Forall_forall in IH, Hall.
    set (Q := fun (name : string) (p : path) =>
                exists c rel,
                  In (name, c) es /\
                  rel <> [] /\ p = join dirpath name ++ rel /\ fs_find c rel <> None /\
                  forall r1 r2, rel = r1 ++ r2 -> r1 <> [] ->
                                passes (join dirpath name ++ r1)).
    cbn [recurse_tree].
    rewrite (In_emit_entries Q).
    2:{ apply Forall_forall. intros r Hr. apply In_rendered in Hr as (name & c & Hin & ->).
        intros prefix' p'. cbn [fst snd].
        rewrite (IH _ Hin (Hall _ Hin)). unfold Q. split.
        - intros (rel & H). exists c, rel. split; [exact Hin | exact H].
        - intros (c' & rel & Hin' & H).
          assert (c' = c).
          { pose proof (assoc_of_In _ _ _ Hnd Hin) as E1.
            pose proof (assoc_of_In _ _ _ Hnd Hin') as E2. congruence. }
          subst c'. now exists rel. }
    split.
    + intros (name & is_dir & below & Hr & Hp & H).
      apply In_rendered in Hr as (name' & c & Hin & E). injection E as <- -> ->.
      destruct H as [-> | [Hd (c' & rel & Hin' & Hne & -> & Hf & Hpre)]].
      * exists [name]. split; [discriminate|]. split; [reflexivity|]. split.
        -- simpl. rewrite (assoc_of_In _ _ _ Hnd Hin). discriminate.
        -- intros r1 r2 E Hr1. destruct r1 as [|x r1]; [congruence|].
           injection E as <- E. destruct r1; [exact Hp | discriminate].
      * exists (name :: rel). split; [discriminate|].
        split; [unfold join; now rewrite <- app_assoc|]. split.
        -- simpl. now rewrite (assoc_of_In _ _ _ Hnd Hin').
        -- intros r1 r2 E Hr1. destruct r1 as [|x r1]; [congruence|].
           injection E as <- E. destruct r1 as [|y r1]; [exact Hp|].
           intro Hfull. specialize (Hpre (y :: r1) r2 E). unfold join in Hpre.
           rewrite <- app_assoc in Hpre. apply Hpre; [discriminate | exact Hfull].
    + intros (rel & Hne & -> & Hf & Hpre).
      destruct rel as [|name rel]; [congruence|].
      simpl in Hf. destruct (assoc name es) as [c|] eqn:Ea; [|now elim Hf].
      pose proof (assoc_In _ _ _ Ea) as Hin.
      exists name, (fs_is_dir c),
        (recurse_tree lower source_dir cfg t full_tree c (join dirpath name)).
      split; [apply In_rendered; now exists name, c|].
      split; [apply (Hpre [name] rel); [reflexivity | discriminate]|].
      destruct rel as [|x rel]; [now left|].
      right. split.
      * destruct c as [s pr d| es' |]; [now elim Hf | reflexivity | reflexivity].
      * exists c, (x :: rel). split; [exact Hin|]. split; [discriminate|].
        split; [unfold join; now rewrite <- app_assoc|]. split; [exact Hf|].
        intros r1 r2 E Hr1. unfold join. rewrite <- app_assoc.
        apply (Hpre (name :: r1) r2); [simpl; now rewrite E | discriminate].
  - simpl. split; [intros [line []]|].
    intros ([|x rel] & Hne & _ & Hf & _); [congruence | now elim Hf].
Qed.

End Listing.

(** X12.  Over a snapshot with distinct entry names, the listing of the
    selected tree shows exactly the entries of the snapshot below the source
    directory such that the entry and every directory between it and the
    source directory are not ignored and are effectively selected; the full
    listing shows every entry of the snapshot, whatever the ignore lists and
    the selection. *)
Theorem listed_entries_exactly
        (lower : string -> string) (fs : fsnode) (source_dir : path) (cfg : filter_config) (t : item) (p : path) :
  fs_distinct fs ->
  ((exists line, In (p, line) (file_tree_entries lower fs source_dir cfg t false)) <->
   exists rel,
     rel <> [] /\ p = source_dir ++ rel /\ fs_find fs rel <> None /\
     forall r1 r2, rel = r1 ++ r2 -> r1 <> [] ->
       _is_path_ignored lower cfg (source_dir ++ r1) = false /\
       _is_path_selected source_dir t (source_dir ++ r1) = true) /\
  ((exists line, In (p, line) (file_tree_entries lower fs source_dir cfg t true)) <->
   exists rel, rel <> [] /\ p = source_dir ++ rel /\ fs_find fs rel <> None).
Proof.
  intro Hfs. unfold file_tree_entries. split.
  - rewrite (recurse_tree_exactly lower source_dir cfg t false fs Hfs). split.
    + intros (rel & Hne & E & Hf & Hpre). exists rel. repeat split; auto;
        now apply (Hpre r1 r2).
    + intros (rel & Hne & E & Hf & Hpre). exists rel. repeat split; auto;
        now apply (Hpre r1 r2).
  - rewrite (recurse_tree_exactly lower source_dir cfg t true fs Hfs). split.
    + intros (rel & Hne & E & Hf & _). now exists rel.
    + intros (rel & Hne & E & Hf). exists rel. repeat split; auto; discriminate.
Qed.

Lemma listed_entries_exactly_witness :
  let p := demo_src ++ ["sub"; "b.py"] in
  fs_distinct demo_fs /\
  ((exists line, In (p, line) (file_tree_entries ascii_lower demo_fs demo_src default_filter
                                                 (tree demo_app) false)) <->
   exists rel,
     rel <> [] /\ p = demo_src ++ rel /\ fs_find demo_fs rel <> None /\
     forall r1 r2, rel = r1 ++ r2 -> r1 <> [] ->
       _is_path_ignored ascii_lower default_filter (demo_src ++ r1) = false /\
       _is_path_selected demo_src (tree demo_app) (demo_src ++ r1) = true) /\
  ((exists line, In (p, line) (file_tree_entries ascii_lower demo_fs demo_src default_filter
                                                 (tree demo_app) true)) <->
   exists rel, rel <> [] /\ p = demo_src ++ rel /\ fs_find demo_fs rel <> None).
Proof.
  intro p.
  assert (H : fs_distinct demo_fs).
  { simpl. repeat split; repeat constructor; simpl; intuition discriminate. }
  split; [exact H|].
  exact (listed_entries_exactly ascii_lower demo_fs demo_src default_filter (tree demo_app) p H).
Defined.

(** X13.  Over a snapshot with distinct entry names and with an output file
    outside the source directory, so that opening it leaves the snapshot as
    it was: every file that the selected listing of the run shows is
    collected, and a collected file is shown by that listing exactly when
    every directory between it and the source directory is effectively
    selected. *)
Theorem listed_files_are_collected
        (lower : string -> string) (fs : fsnode) (source_dir : path) (cfg : filter_config)
        (t : item) (e : effects) (output_file : path) :
  fs_distinct fs ->
  strip_prefix source_dir output_file = None ->
  let listing :=
    file_tree_entries lower (opened fs source_dir e output_file) source_dir cfg t false in
  (forall rel line size probe data,
      In (source_dir ++ rel, line) listing ->
      fs_find fs rel = Some (File size probe data) ->
      In (source_dir ++ rel) (files_to_process lower fs source_dir cfg t)) /\
  (forall rel,
      In (source_dir ++ rel) (files_to_process lower fs source_dir cfg t) ->
      ((exists line, In (source_dir ++ rel, line) listing) <->
       forall r1 r2, rel = r1 ++ r2 -> r1 <> [] -> r2 <> [] ->
                     _is_path_selected source_dir t (source_dir ++ r1) = true)).
Proof.
  intros Hfs Hout listing.
  assert (El : listing = file_tree_entries lower fs source_dir cfg t false).
  { unfold listing, opened, after_open. now rewrite Hout. }
  rewrite El. clear El listing. split.
  - intros rel line size probe data Hin Hf.
    assert (Hl : exists line, In (source_dir ++ rel, line)
                                 (recurse_tree lower source_dir cfg t false fs source_dir ""))
      by now exists line.
    apply (recurse_tree_exactly lower source_dir cfg t false fs Hfs) in Hl
      as (rel' & Hne & E & _ & Hpre).
    apply app_inv_head in E. subst rel'.
    unfold files_to_process. apply (walk_exactly lower source_dir cfg t fs Hfs).
    exists rel, size, probe, data. repeat split; auto.
    + intros r1 r2 E Hr1. now apply (Hpre r1 r2).
    + apply (Hpre rel []); [now rewrite app_nil_r | exact Hne | reflexivity].
  - intros rel Hin. unfold files_to_process in Hin.
    apply (walk_exactly lower source_dir cfg t fs Hfs) in Hin
      as (rel' & size & probe & data & Hne & E & Hf & Hpre & Hs).
    apply app_inv_head in E. subst rel'.
    unfold file_tree_entries.
    rewrite (recurse_tree_exactly lower source_dir cfg t false fs Hfs). split.
    + intros (rel' & _ & E & _ & Hp) r1 r2 Er Hr1 _.
      apply app_inv_head in E. subst rel'. now apply (Hp r1 r2).
    + intro Hsel. exists rel. repeat split; auto.
      * rewrite Hf. discriminate.
      * now apply (Hpre r1 r2).
      * destruct r2 as [|x r2].
        -- rewrite app_nil_r in H. subst r1. exact Hs.
        -- apply (Hsel r1 (x :: r2)); auto. discriminate.
Qed.

Lemma listed_files_are_collected_witness :
  let listing :=
    file_tree_entries ascii_lower (opened demo_fs demo_src (all_well 5%Q true) demo_output)
                      demo_src default_filter (tree demo_app) false in
  fs_distinct demo_fs /\
  strip_prefix demo_src demo_output = None /\
  (forall rel line size probe data,
      In (demo_src ++ rel, line) listing ->
      fs_find demo_fs rel = Some (File size probe data) ->
      In (demo_src ++ rel)
         (files_to_process ascii_lower demo_fs demo_src default_filter (tree demo_app))) /\
  (forall rel,
      In (demo_src ++ rel)
         (files_to_process ascii_lower demo_fs demo_src default_filter (tree demo_app)) ->
      ((exists line, In (demo_src ++ rel, line) listing) <->
       forall r1 r2, rel = r1 ++ r2 -> r1 <> [] -> r2 <> [] ->
                     _is_path_selected demo_src (tree demo_app) (demo_src ++ r1) = true)).
Proof.
  intro listing.
  assert (H1 : fs_distinct demo_fs).
  { simpl. repeat split; repeat constructor; simpl; intuition discriminate. }
  assert (H2 : strip_prefix demo_src demo_output = None) by reflexivity.
  split; [exact H1|]. split; [exact H2|].
  exact (listed_files_are_collected ascii_lower demo_fs demo_src default_filter
           (tree demo_app) (all_well 5%Q true) demo_output H1 H2).
Defined.

(** A file that is dumped without being listed: its row is [Checked] below a
    directory row that is [Unchecked], as an expansion leaves them when the
    stored paths hold the file and not the directory. *)
Example collected_file_not_listed :
  let a := run_events demo_fs demo_src [Open [3]]
             (_set_source_directory demo_fs demo_src [demo_src ++ ["sub"; "b.py"]]) in
  files_to_process ascii_lower demo_fs demo_src default_filter (tree a)
  = [demo_src ++ ["sub"; "b.py"]] /\
  file_tree_entries ascii_lower demo_fs demo_src default_filter (tree a) false = [].
Proof. split; reflexivity. Qed.

(** A file that is listed without being collected: with the output file
    that [_set_source_directory] proposes, opening it puts the dump file
    into the source directory after the files are collected and before the
    listings are made. *)
Example dump_file_is_listed_not_collected :
  let output_file := default_output_file demo_src in
  let t := tree demo_all in
  output_file = demo_src ++ ["proj_dump.txt"] /\
  ~ In output_file (files_to_process ascii_lower demo_fs demo_src default_filter t) /\
  In (output_file, "├─ proj_dump.txt")
     (file_tree_entries ascii_lower
        (opened demo_fs demo_src (all_well 5%Q true) output_file)
        demo_src default_filter t false).
Proof.
  split; [reflexivity|]. split.
  - vm_compute. intuition discriminate.
  - vm_compute. tauto.
Qed.

(** ** The stored configuration *)

Section DictFacts.

Context {K V : Type}.
Variable eqb : K -> K -> bool.
Hypothesis eqb_eq : forall a b, eqb a b = true <-> a = b.

Lemma eqb_same (a : K) : eqb a a = true.
Proof. now apply eqb_eq. Qed.

Lemma eqb_other (a b : K) : a <> b -> eqb a b = false.
Proof.
  intro H. destruct (eqb a b) eqn:E; [|reflexivity].
  apply eqb_eq in E. contradiction.
Qed.

Lemma dict_get_set_same (k : K) (v : V) (d : list (K * V)) :
  dict_get eqb k (dict_set eqb k v d) = Some v.
Proof.
  induction d as [|[k' v'] d IH]; simpl.
  - now rewrite eqb_same.
  - destruct (eqb k k') eqn:E; simpl; rewrite E; [reflexivity | exact IH].
Qed.

Lemma dict_get_set_other (k k0 : K) (v : V) (d : list (K * V)) :
  k0 <> k ->
  dict_get eqb k0 (dict_set eqb k v d) = dict_get eqb k0 d.
Proof.
  intro Hne. induction d as [|[k' v'] d IH]; simpl.
  - now rewrite (eqb_other _ _ Hne).
  - destruct (eqb k k') eqn:E; simpl.
    + apply eqb_eq in E. subst k'. now rewrite (eqb_other _ _ Hne).
    + now rewrite IH.
Qed.

Lemma dict_get_popped (k : K) (d : list (K * V)) :
  dict_get eqb k (snd (dict_pop eqb k d)) = None.
Proof.
  unfold dict_pop. simpl. induction d as [|[k' v'] d IH]; simpl; [reflexivity|].
  destruct (eqb k k') eqn:E; simpl; [exact IH | now rewrite E].
Qed.

Lemma dict_get_pop_other (k k0 : K) (d : list (K * V)) :
  k0 <> k ->
  dict_get eqb k0 (snd (dict_pop eqb k d)) = dict_get eqb k0 d.
Proof.
  intro Hne. unfold dict_pop. simpl. induction d as [|[k' v'] d IH]; simpl; [reflexivity|].
  destruct (eqb k k') eqn:E; simpl.
  - apply eqb_eq in E. subst k'. now rewrite (eqb_other _ _ Hne).
  - now rewrite IH.
Qed.

Lemma dict_get_absent (k : K) (d : list (K * V)) :
  ~ In k (map fst d) -> dict_get eqb k d = None.
Proof.
  induction d as [|[k' v'] d IH]; simpl; [reflexivity|].
  intro H. rewrite eqb_other by (intros ->; apply H; now left).
  apply IH. intro Hin. apply H. now right.
Qed.

Lemma dict_get_update (k : K) (other : list (K * V)) :
  NoDup (map fst other) ->
  forall d,
    dict_get eqb k (dict_update eqb d other)
    = match dict_get eqb k other with
      | Some v => Some v
      | None => dict_get eqb k d
      end.
Proof.
  unfold dict_update.
  induction other as [|[k0 v0] other IH]; intros Hnd d; simpl; [reflexivity|].
  inversion Hnd as [|? ? Hnot Hnd']; subst.
  rewrite (IH Hnd'). destruct (eqb k k0) eqn:E.
  - apply eqb_eq in E. subst k0.
    now rewrite (dict_get_absent _ _ Hnot), dict_get_set_same.
  - destruct (dict_get eqb k other); [reflexivity|].
    apply dict_get_set_other. intros ->. now rewrite eqb_same in E.
Qed.

End DictFacts.

Lemma get_project_settings_of (c : config) (p : path) :
  get_project_settings c p =
  match dict_get path_eqb p (match projects c with Some ps => ps | None => [] end) with
  | Some s => dict_update String.eqb default_settings s
  | None => default_settings
  end.
Proof.
  unfold get_project_settings, resolve.
  destruct (dict_get path_eqb p _) as [[|e s]|]; reflexivity.
Qed.

(** X14.  After [save_project_settings] for a project path that is not
    empty, [get_project_settings] for that path gives every key the saved
    value, and the default value where the saved settings have none; the
    path is the last used project; the settings of every other path are
    what they were; and the file holds the new configuration when it could
    be opened, and is left as it was otherwise. *)
Theorem saved_settings_are_read_back
        (opens : bool) (p : path) (s : settings) (m : manager) :
  p <> [] ->
  NoDup (map fst s) ->
  let m' := save_project_settings opens p s m in
  (forall k, dict_get String.eqb k (get_project_settings (config_data m') p)
             = match dict_get String.eqb k s with
               | Some v => Some v
               | None => dict_get String.eqb k default_settings
               end) /\
  last_used_project (config_data m') = Some p /\
  (forall q, q <> p ->
             get_project_settings (config_data m') q = get_project_settings (config_data m) q) /\
  (opens = true -> config_file m' = Holds (config_data m') /\ load_config m' = Some m') /\
  (opens = false -> config_file m' = config_file m).
Proof.
  intros Hp Hnd m'.
  assert (Ec : config_data m' =
               {| projects := Some (dict_set path_eqb p s
                                      match projects (config_data m) with
                                      | Some ps => ps
                                      | None => []
                                      end);
                  last_used_project := Some p |}).
  { unfold m', save_project_settings, resolve, save_config.
    destruct p; [congruence|]. now destruct opens. }
  split; [|split; [|split; [|split]]].
  - intro k. rewrite Ec, get_project_settings_of. cbn [projects].
    rewrite (dict_get_set_same path_eqb path_eqb_eq).
    now apply (dict_get_update String.eqb String.eqb_eq).
  - now rewrite Ec.
  - intros q Hq. rewrite Ec, !get_project_settings_of. cbn [projects].
    now rewrite (dict_get_set_other path_eqb path_eqb_eq).
  - intros ->. unfold m', save_project_settings, save_config, load_config.
    destruct p; [congruence|]. now split.
  - intros ->. unfold m', save_project_settings, save_config.
    destruct p; [congruence|]. reflexivity.
Qed.

Lemma saved_settings_are_read_back_witness :
  let p := ["home"; "proj"] in
  let s := [("max_size_mb", VNumber (inject_Z 2))] in
  let m0 := {| config_data := empty_config; config_file := NotJson |} in
  let m' := save_project_settings true p s m0 in
  p <> [] /\ NoDup (map fst s) /\
  (forall k, dict_get String.eqb k (get_project_settings (config_data m') p)
             = match dict_get String.eqb k s with
               | Some v => Some v
               | None => dict_get String.eqb k default_settings
               end) /\
  last_used_project (config_data m') = Some p /\
  (forall q, q <> p ->
             get_project_settings (config_data m') q
             = get_project_settings (config_data m0) q) /\
  (true = true -> config_file m' = Holds (config_data m') /\ load_config m' = Some m') /\
  (true = false -> config_file m' = config_file m0).
Proof.
  intros p s m0 m'.
  assert (H1 : p <> []) by discriminate.
  assert (H2 : NoDup (map fst s)) by (repeat constructor; simpl; tauto).
  split; [exact H1|]. split; [exact H2|].
  exact (saved_settings_are_read_back true p s m0 H1 H2).
Defined.

(** X15.  After [reset_project_to_default] for a project path that is not
    empty, [get_project_settings] for that path gives the default settings
    and the settings of every other path are what they were; the last used
    project is not changed; the call returns [True] exactly when settings
    that are not empty were stored for the path, and when it returns
    [False] nothing is written to the file. *)
Theorem reset_restores_defaults (opens : bool) (p : path) (m : manager) :
  p <> [] ->
  let r := reset_project_to_default opens p m in
  get_project_settings (config_data (fst r)) p = default_settings /\
  (forall q, q <> p ->
             get_project_settings (config_data (fst r)) q
             = get_project_settings (config_data m) q) /\
  last_used_project (config_data (fst r)) = last_used_project (config_data m) /\
  (snd r = true <->
   exists ps s, projects (config_data m) = Some ps /\
                dict_get path_eqb p ps = Some s /\ s <> []) /\
  (snd r = false -> config_file (fst r) = config_file m).
Proof.
  intros Hp r. unfold r, reset_project_to_default, resolve.
  destruct p as [|x p']; [congruence|]. set (p := x :: p') in *.
  destruct (projects (config_data m)) as [ps|] eqn:Eps.
  - assert (Hpop : dict_pop path_eqb p ps
                   = (dict_get path_eqb p ps, snd (dict_pop path_eqb p ps)))
      by reflexivity.
    rewrite Hpop.
    set (m' := {| config_data :=
                    {| projects := Some (snd (dict_pop path_eqb p ps));
                       last_used_project := last_used_project (config_data m) |};
                  config_file := config_file m |}).
    assert (Hget : get_project_settings (config_data m') p = default_settings).
    { rewrite get_project_settings_of. cbn [m' config_data projects].
      now rewrite (dict_get_popped path_eqb). }
    assert (Hoth : forall q, q <> p ->
                     get_project_settings (config_data m') q
                     = get_project_settings (config_data m) q).
    { intros q Hq. rewrite !get_project_settings_of, Eps. cbn [m' config_data projects].
      now rewrite (dict_get_pop_other path_eqb path_eqb_eq). }
    assert (Hsave : config_data (save_config opens m') = config_data m')
      by now destruct opens.
    destruct (dict_get path_eqb p ps) as [[|e s]|] eqn:Eg; cbn [fst snd].
    + repeat split; auto; try discriminate.
      intros (ps0 & s0 & E1 & E2 & E3). congruence.
    + rewrite Hsave. repeat split; auto; try discriminate.
      intros _. exists ps, (e :: s). repeat split; auto. discriminate.
    + repeat split; auto; try discriminate.
      intros (ps0 & s0 & E1 & E2 & E3). congruence.
  - cbn [fst snd]. repeat split; auto; try discriminate.
    + rewrite get_project_settings_of, Eps. reflexivity.
    + intros (ps0 & s0 & E1 & _). discriminate.
Qed.

Lemma reset_restores_defaults_witness :
  let p := ["home"; "proj"] in
  let m := save_project_settings true p [("max_size_mb", VNumber (inject_Z 2))]
             {| config_data := empty_config; config_file := NotJson |} in
  let r := reset_project_to_default true p m in
  p <> [] /\
  get_project_settings (config_data (fst r)) p = default_settings /\
  (forall q, q <> p ->
             get_project_settings (config_data (fst r)) q
             = get_project_settings (config_data m) q) /\
  last_used_project (config_data (fst r)) = last_used_project (config_data m) /\
  (snd r = true <->
   exists ps s, projects (config_data m) = Some ps /\
                dict_get path_eqb p ps = Some s /\ s <> []) /\
  (snd r = false -> config_file (fst r) = config_file m).
Proof.
  intros p m r.
  assert (H1 : p <> []) by discriminate.
  split; [exact H1|].
  exact (reset_restores_defaults true p m H1).
Defined.

(** X16.  With no usable config file every project has the default
    settings: after [clear_all_configs], and after a start over a file that
    is absent or that holds text that is not JSON, whether or not the file
    can be written.  A start over a file that cannot be read, or whose bytes
    are not UTF-8, builds no manager: the exception leaves [__init__].  A
    start over a file that holds a configuration reads it, so that what
    [save_config] wrote is the configuration of the next start. *)
Theorem defaults_without_stored_config (opens : bool) (p : path) :
  (forall m, get_project_settings (config_data (clear_all_configs opens m)) p
             = default_settings) /\
  (exists m, ConfigManager_init opens Missing = Some m /\
             get_project_settings (config_data m) p = default_settings) /\
  (exists m, ConfigManager_init opens NotJson = Some m /\
             get_project_settings (config_data m) p = default_settings) /\
  ConfigManager_init opens Unreadable = None /\
  (forall c, option_map config_data (ConfigManager_init opens (Holds c)) = Some c) /\
  (forall m, option_map config_data
               (ConfigManager_init opens (config_file (save_config true m)))
             = Some (config_data m)).
Proof.
  split; [|split; [|split; [|split; [|split]]]].
  - intro m. unfold clear_all_configs, save_config. now destruct opens.
  - unfold ConfigManager_init, save_config, load_config.
    destruct opens; cbn [config_file config_data]; eexists; (split; [reflexivity|]);
      reflexivity.
  - eexists. split; reflexivity.
  - reflexivity.
  - reflexivity.
  - intro m. reflexivity.
Qed.

(** X17.  What [_save_settings_for_current_project] stores for a source
    directory is what [_load_settings_for_current_project] puts back into
    the widgets, whatever they held: the two ignore lists, the check box and
    the size limit, a size field that is not a number being replaced by 5;
    the checked paths it returns are the stored ones.  This holds whether or
    not the file could be written, and when it could the next start reads
    the same configuration. *)
Theorem settings_survive_save_and_load
        (opens : bool) (source_dir : path) (t : item) (ui ui0 : controls) (m : manager) :
  source_dir <> [] ->
  let m' := Settings._save_settings_for_current_project opens source_dir t ui m in
  (exists s,
      Settings._load_settings_for_current_project source_dir ui0 m'
      = Some ({| ignored_dirs_list := ignored_dirs_list ui;
                 ignored_exts_list := ignored_exts_list ui;
                 max_size_var := Some (match max_size_var ui with
                                       | Some q => q
                                       | None => inject_Z 5
                                       end);
                 include_full_tree_var := include_full_tree_var ui |}, s) /\
      Settings.checked_paths_of s = _save_settings_for_current_project source_dir t) /\
  (opens = true ->
   forall opens',
     option_map config_data (ConfigManager_init opens' (config_file m'))
     = Some (config_data m')).
Proof.
  intros Hp m'.
  set (s0 := [("ignored_dirs", VStrings (ignored_dirs_list ui));
              ("ignored_exts", VStrings (ignored_exts_list ui));
              ("max_size_mb", VNumber (match max_size_var ui with
                                       | Some q => q
                                       | None => inject_Z 5
                                       end));
              ("include_full_tree", VBool (include_full_tree_var ui));
              ("checked_paths",
               VPaths (_save_settings_for_current_project source_dir t))]).
  assert (Em : m' = save_project_settings opens source_dir s0 m).
  { unfold m', Settings._save_settings_for_current_project.
    destruct source_dir; [congruence | reflexivity]. }
  assert (Eg : get_project_settings (config_data m') source_dir
               = dict_update String.eqb default_settings s0).
  { rewrite Em, get_project_settings_of.
    unfold save_project_settings, resolve, save_config.
    destruct source_dir as [|x sd]; [congruence|].
    destruct opens; cbn [config_data projects];
      now rewrite (dict_get_set_same path_eqb path_eqb_eq). }
  split.
  - exists (dict_update String.eqb default_settings s0). split.
    + unfold Settings._load_settings_for_current_project.
      destruct source_dir as [|x sd]; [congruence|].
      rewrite Eg. reflexivity.
    + reflexivity.
  - intros -> opens'. rewrite Em.
    unfold save_project_settings, save_config.
    destruct source_dir as [|x sd]; [congruence | reflexivity].
Qed.

Lemma settings_survive_save_and_load_witness :
  let ui := {| ignored_dirs_list := ["build"]; ignored_exts_list := [".o"];
               max_size_var := None; include_full_tree_var := false |} in
  let ui0 := {| ignored_dirs_list := []; ignored_exts_list := [];
                max_size_var := None; include_full_tree_var := true |} in
  let m := {| config_data := empty_config; config_file := NotJson |} in
  let m' := Settings._save_settings_for_current_project false demo_src (tree demo_app) ui m in
  demo_src <> [] /\
  (exists s,
      Settings._load_settings_for_current_project demo_src ui0 m'
      = Some ({| ignored_dirs_list := ["build"];
                 ignored_exts_list := [".o"];
                 max_size_var := Some (inject_Z 5);
                 include_full_tree_var := false |}, s) /\
      Settings.checked_paths_of s = _save_settings_for_current_project demo_src (tree demo_app))
  /\
  (false = true ->
   forall opens',
     option_map config_data (ConfigManager_init opens' (config_file m'))
     = Some (config_data m')).
Proof.
  intros ui ui0 m m'.
  assert (H : demo_src <> []) by discriminate.
  split; [exact H|].
  exact (settings_survive_save_and_load false demo_src (tree demo_app) ui ui0 m H).
Defined.

(** ** The editable lists *)

Lemma get_all_items_set_items (items : list string) :
  forall rs n e1 e2,
    map snd (rows (fold_left (fun acc item => add_item_to_tree item acc) items
                             {| rows := rs; next_id := n; edit_item := e1; edit_entry := e2 |}))
    = map snd rs ++ items.
Proof.
  induction items as [|x items IH]; intros rs n e1 e2; simpl.
  - now rewrite app_nil_r.
  - unfold add_item_to_tree at 2. simpl. rewrite IH, map_app, <- app_assoc. reflexivity.
Qed.

Lemma NoDup_snoc {A} (l : list A) (x : A) : NoDup l -> ~ In x l -> NoDup (l ++ [x]).
Proof.
  intros Hl Hx. apply NoDup_app_disjoint; [exact Hl | repeat constructor; auto |].
  intros a Ha [<- | []]. contradiction.
Qed.

Lemma edited_texts_distinct (item : nat) (new_text : string) (rs : list (nat * string)) :
  NoDup (map fst rs) -> NoDup (map snd rs) ->
  ~ In new_text (map snd (filter (fun r => negb (Nat.eqb (fst r) item)) rs)) ->
  NoDup (map snd (map (fun r => if Nat.eqb (fst r) item then (fst r, new_text) else r) rs)).
Proof.
  induction rs as [|[i x] rs IH]; simpl; [constructor|].
  intros Hi Hx Hnew.
  inversion Hi as [|? ? Hi1 Hi2]; subst. inversion Hx as [|? ? Hx1 Hx2]; subst.
  destruct (Nat.eqb i item) eqn:E; simpl in Hnew |- *.
  - apply Nat.eqb_eq in E. subst i.
    assert (Hsame : forall l : list (nat * string),
               ~ In item (map fst l) ->
               map (fun r => if Nat.eqb (fst r) item then (fst r, new_text) else r) l = l
               /\ filter (fun r => negb (Nat.eqb (fst r) item)) l = l).
    { induction l as [|[j y] l IHl]; simpl; [now split|].
      intro H. destruct (Nat.eqb j item) eqn:Ej.
      - apply Nat.eqb_eq in Ej. subst j. exfalso. apply H. now left.
      - simpl. destruct IHl as [-> ->]; [|now split]. intro Hin. apply H. now right. }
    destruct (Hsame rs Hi1) as [-> Ef]. rewrite Ef in Hnew.
    now constructor.
  - constructor; [|apply IH; [assumption | assumption | intro Hin; apply Hnew; now right]].
    intro Hin. apply in_map_iff in Hin as ([j y] & Ey & Hin). simpl in Ey. subst y.
    apply in_map_iff in Hin as ([j' y'] & Ey & Hin). simpl in Ey.
    destruct (Nat.eqb j' item) eqn:Ej.
    + injection Ey as _ <-. apply Hnew. now left.
    + injection Ey as _ ->. apply Hx1. apply in_map_iff. now exists (j', x).
Qed.

(** X18.  The edits of an ignore list keep it tidy, whatever [str.strip]
    does to a text: starting from a list with no empty text and no text
    twice, [add_item], [finish_edit] and [delete_item] leave such a list.
    [add_item] appends the text of the entry as [str.strip] leaves it,
    exactly when that text is not empty and not in the list, and calls the
    change callback exactly then; [set_items] shows the items it is given as
    they are. *)
Theorem list_edits_keep_entries_distinct (strip : string -> string) (lb : listbox) :
  tidy lb ->
  (forall text, tidy (fst (add_item strip text lb))) /\
  tidy (fst (finish_edit strip lb)) /\
  (forall confirmed item, tidy (fst (delete_item confirmed item lb))) /\
  (forall text,
      (snd (add_item strip text lb) = true <->
       strip text <> ""%string /\ ~ In (strip text) (get_all_items lb)) /\
      get_all_items (fst (add_item strip text lb))
      = if snd (add_item strip text lb) then get_all_items lb ++ [strip text]
        else get_all_items lb) /\
  (forall items, get_all_items (set_items items lb) = items).
Proof.
  intros (Ht & He & Hi & Hlt).
  assert (Hadd : forall text,
             negb (String.eqb (strip text) "") && negb (mem_string (strip text) (get_all_items lb))
             = true <->
             strip text <> ""%string /\ ~ In (strip text) (get_all_items lb)).
  { intro text. rewrite andb_true_iff, !negb_true_iff. split.
    - intros [H1 H2]. split; [now apply String.eqb_neq|].
      intro Hin. apply mem_string_In in Hin. congruence.
    - intros [H1 H2]. split; [now apply String.eqb_neq|].
      destruct (mem_string (strip text) (get_all_items lb)) eqn:E; [|reflexivity].
      apply mem_string_In in E. contradiction. }
  split; [|split; [|split; [|split]]].
  - intro text. unfold add_item.
    destruct (negb (String.eqb (strip text) "")
              && negb (mem_string (strip text) (get_all_items lb))) eqn:E; cbn [fst].
    + apply Hadd in E as [Hne Hnin].
      unfold tidy, get_all_items, add_item_to_tree. cbn [rows next_id].
      rewrite !map_app. cbn [map fst snd]. repeat split.
      * now apply NoDup_snoc.
      * intro Hin. apply in_app_iff in Hin as [Hin | [Hin | []]]; [now apply He | congruence].
      * apply NoDup_snoc; [exact Hi|]. intro Hin.
        apply in_map_iff in Hin as (r & Er & Hr).
        rewrite Forall_forall in Hlt. specialize (Hlt r Hr). lia.
      * apply Forall_app. split.
        -- eapply Forall_impl; [|exact Hlt]. intros r Hr. simpl in *. lia.
        -- repeat constructor.
    + repeat split; assumption.
  - unfold finish_edit.
    destruct (edit_item lb) as [item|]; [|repeat split; assumption].
    destruct (edit_entry lb) as [entry_text|]; [|repeat split; assumption].
    set (new_text := strip entry_text).
    destruct (negb (String.eqb new_text "")
              && negb (mem_string new_text
                         (map snd (filter (fun r => negb (Nat.eqb (fst r) item)) (rows lb)))))
             eqn:E; [|repeat split; assumption].
    destruct (existsb (fun r => Nat.eqb (fst r) item) (rows lb));
      [|repeat split; assumption].
    apply andb_true_iff in E as [E1 E2]. apply negb_true_iff in E1, E2.
    apply String.eqb_neq in E1.
    assert (Hnew : ~ In new_text
                     (map snd (filter (fun r => negb (Nat.eqb (fst r) item)) (rows lb)))).
    { intro Hin. apply mem_string_In in Hin. congruence. }
    set (f := fun r : nat * string => if Nat.eqb (fst r) item then (fst r, new_text) else r).
    assert (Hids : map fst (map f (rows lb)) = map fst (rows lb)).
    { rewrite map_map. apply map_ext. intros [j y]. unfold f. simpl.
      now destruct (Nat.eqb j item). }
    unfold tidy, get_all_items, cleanup_edit. cbn [fst rows next_id]. fold f.
    repeat split.
    + now apply edited_texts_distinct.
    + intro Hin. apply in_map_iff in Hin as ([j y] & Ey & Hin). simpl in Ey. subst y.
      apply in_map_iff in Hin as ([j' y'] & Ey & Hin). unfold f in Ey. simpl in Ey.
      destruct (Nat.eqb j' item).
      * injection Ey as _ Ey. congruence.
      * injection Ey as _ ->. apply He. apply in_map_iff. now exists (j', ""%string).
    + now rewrite Hids.
    + apply Forall_forall. intros r Hr. apply in_map_iff in Hr as ([j y] & <- & Hr).
      rewrite Forall_forall in Hlt. specialize (Hlt _ Hr). unfold f. simpl in *.
      now destruct (Nat.eqb j item).
  - intros confirmed item. unfold delete_item.
    destruct (existsb (fun r => Nat.eqb (fst r) item) (rows lb) && confirmed);
      [|repeat split; assumption].
    unfold tidy, get_all_items. cbn [fst rows next_id]. repeat split.
    + now apply NoDup_map_filter.
    + intro Hin. apply He. apply in_map_iff in Hin as (r & Er & Hr).
      apply filter_In in Hr as [Hr _]. apply in_map_iff. now exists r.
    + now apply NoDup_map_filter.
    + apply Forall_forall. intros r Hr. apply filter_In in Hr as [Hr _].
      rewrite Forall_forall in Hlt. now apply Hlt.
  - intro text. unfold add_item.
    destruct (negb (String.eqb (strip text) "")
              && negb (mem_string (strip text) (get_all_items lb))) eqn:E; cbn [fst snd].
    + split; [split; [intros _; now apply Hadd | reflexivity]|].
      unfold get_all_items, add_item_to_tree. cbn [rows]. now rewrite map_app.
    + split; [|reflexivity]. split; [discriminate|].
      intro H. apply Hadd in H. congruence.
  - intro items. unfold get_all_items, set_items.
    now rewrite get_all_items_set_items.
Qed.

Lemma list_edits_keep_entries_distinct_witness :
  let lb := set_items ["build"; "dist"]
              {| rows := []; next_id := 0; edit_item := None; edit_entry := None |} in
  tidy lb /\
  (forall text, tidy (fst (add_item ascii_strip text lb))) /\
  tidy (fst (finish_edit ascii_strip lb)) /\
  (forall confirmed item, tidy (fst (delete_item confirmed item lb))) /\
  (forall text,
      (snd (add_item ascii_strip text lb) = true <->
       ascii_strip text <> ""%string /\ ~ In (ascii_strip text) (get_all_items lb)) /\
      get_all_items (fst (add_item ascii_strip text lb))
      = if snd (add_item ascii_strip text lb) then get_all_items lb ++ [ascii_strip text]
        else get_all_items lb) /\
  (forall items, get_all_items (set_items items lb) = items).
Proof.
  intro lb.
  assert (H : tidy lb).
  { unfold tidy. simpl. repeat split.
    - repeat constructor; simpl; intuition discriminate.
    - intuition discriminate.
    - repeat constructor; simpl; intuition discriminate.
    - repeat constructor. }
  split; [exact H|].
  exact (list_edits_keep_entries_distinct ascii_strip lb H).
Defined.


(** ** Refresh, repeated expansion, and the selection of everything *)

Lemma top_level_row (fs : fsnode) (source_dir : path) (es : list (string * fsnode))
      (a : app) (name : string) :
  fs = Dir es -> reachable fs source_dir a -> In name (map fst es) ->
  exists s, mapped_state source_dir (tree a) (source_dir ++ [name]) = Some s.
Proof.
  intros Hfs Hr Hin.
  destruct (root_ok_reachable fs source_dir es a Hfs Hr) as (rn & rs & kids & Et & Hnames & _).
  rewrite Et, mapped_state_below. simpl.
  destruct (find_child name kids) as [[k c]|] eqn:Ef; [simpl; eauto|].
  exfalso. apply find_child_None in Ef. apply Ef. rewrite Hnames.
  apply in_map. unfold root_listing. rewrite Hfs. now apply In_sort_by.
Qed.

(** X19.  Over a snapshot with distinct entry names, a refresh keeps of the
    selection only the states of the top-level rows: after
    [_refresh_tree_view] every path at or below an entry of the source
    directory is effectively selected exactly when the row of that entry
    was not [Unchecked] before, so that a [Tristate] directory comes back
    wholly selected. *)
Theorem refresh_keeps_top_level_states
        (fs : fsnode) (source_dir : path) (es : list (string * fsnode))
        (a : app) (name : string) :
  fs = Dir es ->
  fs_distinct fs ->
  reachable fs source_dir a ->
  In name (map fst es) ->
  exists s,
    mapped_state source_dir (tree a) (source_dir ++ [name]) = Some s /\
    forall rest,
      _is_path_selected source_dir (tree (_refresh_tree_view fs source_dir a))
                        (source_dir ++ name :: rest)
      = negb (state_eqb s Unchecked).
Proof.
  intros Hfs Hd Hr Hin.
  destruct (top_level_row fs source_dir es a name Hfs Hr Hin) as [s Hs].
  exists s. split; [exact Hs|]. intro rest.
  assert (Hdir : fs_is_dir fs = true) by now rewrite Hfs.
  assert (Hnd : NoDup (map fst es)) by (rewrite Hfs in Hd; now apply fs_distinct_Dir in Hd).
  pose proof (distinct_names_reachable fs source_dir Hdir Hd a Hr) as Hdn.
  pose proof (reachable_root_is_row fs source_dir a Hr) as Hrow.
  pose proof (stored_iff_mapped source_dir (tree a) (source_dir ++ [name]) Hdn Hrow) as Hiff.
  cbn [_refresh_tree_view _set_source_directory tree].
  pose proof (populate_tree_eq fs source_dir es
                (_save_settings_for_current_project source_dir (tree a)) Hfs) as Et.
  cbv zeta in Et.
  assert (Hs' : NoDup (sorted (map fst es))) by now apply NoDup_sort_by.
  assert (Hin' : In name (sorted (map fst es))) by now apply In_sort_by.
  destruct (new_rows_find fs source_dir
              (_save_settings_for_current_project source_dir (tree a))
              source_dir _ name Hs' Hin') as [k Hf].
  rewrite (is_path_selected_under_child source_dir _
             (_add_node_to_tree fs source_dir
                (_save_settings_for_current_project source_dir (tree a))
                (join source_dir name)) name k rest).
  - rewrite new_row_state. unfold join.
    destruct (mem_path (source_dir ++ [name])
                (_save_settings_for_current_project source_dir (tree a))) eqn:Em.
    + apply mem_path_In in Em. apply Hiff in Em as (s' & Hs1 & Hne).
      assert (s' = s) by congruence. subst s'. now destruct s.
    + destruct s; try reflexivity; exfalso;
        (assert (Hm : mem_path (source_dir ++ [name])
                        (_save_settings_for_current_project source_dir (tree a)) = true)
          by (apply mem_path_In, Hiff; eexists; split; [exact Hs | discriminate]));
        congruence.
  - rewrite Et. exact Hf.
  - rewrite new_row_state.
    destruct (mem_path (join source_dir name) _); [left | right]; reflexivity.
  - intros [|x r] c'; [now intros H; injection H as <-|].
    now rewrite new_row_has_nothing_below.
Qed.

Lemma refresh_keeps_top_level_states_witness :
  exists es,
    demo_fs = Dir es /\ fs_distinct demo_fs /\ reachable demo_fs demo_src demo_app /\
    In "sub"%string (map fst es) /\
    exists s,
      mapped_state demo_src (tree demo_app) (demo_src ++ ["sub"]) = Some s /\
      forall rest,
        _is_path_selected demo_src (tree (_refresh_tree_view demo_fs demo_src demo_app))
                          (demo_src ++ "sub" :: rest)
        = negb (state_eqb s Unchecked).
Proof.
  eexists.
  assert (H1 : demo_fs = Dir _) by reflexivity.
  assert (H2 : fs_distinct demo_fs).
  { simpl. repeat split; repeat constructor; simpl; intuition discriminate. }
  assert (H3 : reachable demo_fs demo_src demo_app).
  { exists [], [Open [3]; Click [0; 3]]. reflexivity. }
  split; [exact H1|]. split; [exact H2|]. split; [exact H3|].
  split; [simpl; tauto|].
  apply (refresh_keeps_top_level_states demo_fs demo_src _ demo_app "sub" H1 H2 H3).
  simpl. tauto.
Defined.

Lemma get_at_replace_at_same g (t x new : item) (pos : list nat) :
  get_at t pos = Some x -> get_at (replace_at g t pos new) pos = Some new.
Proof.
  revert t; induction pos as [|k pos IH]; intro t; simpl; [reflexivity|].
  destruct t as [n s kids| |]; simpl; try (destruct k; discriminate).
  rewrite nth_error_list_update, Nat.eqb_refl.
  destruct (nth_error kids k); simpl; [apply IH | discriminate].
Qed.

(** X20.  In a reachable state, opening a row a second time changes
    nothing: the first expansion removes the ["loading..."] row, and the
    rows it adds are not loaded again. *)
Theorem open_twice_is_open_once
        (fs : fsnode) (source_dir : path) (a : app) (saved : list path) (item_id : iid) :
  fs_is_dir fs = true ->
  reachable fs source_dir a ->
  on_tree_open fs source_dir saved item_id
               (on_tree_open fs source_dir saved item_id (tree a))
  = on_tree_open fs source_dir saved item_id (tree a).
Proof.
  intros Hdir Hr.
  pose proof (well_formed_reachable fs source_dir a Hdir Hr) as Hwf.
  set (t := tree a) in *.
  assert (Hcase :
            on_tree_open fs source_dir saved item_id t = t \/
            exists g n ps K,
              on_tree_open fs source_dir saved item_id t
              = replace_at g t (rev item_id) (Node n ps K) /\
              get_item t item_id = Some (Node n ps [Loading]) /\
              match K with Loading :: _ => False | _ => True end).
  { destruct (get_item t item_id) as [[n ps [|[| |] rest]| |]|] eqn:Hg;
      try (left; unfold on_tree_open; rewrite Hg; reflexivity).
    destruct (fullpath source_dir t item_id) as [p|] eqn:Hp;
      [|left; unfold on_tree_open; rewrite Hg, Hp; reflexivity].
    pose proof (well_formed_get_at _ _ _ _ _ _ Hwf Hg) as Hit.
    apply well_formed_Node in Hit as (Hcond & _ & _).
    assert (Hrest : rest = []).
    { destruct Hcond as [[E He] | [Hall _]].
      - now injection E as ->.
      - inversion Hall; discriminate. }
    subst rest. right.
    destruct (listdir fs source_dir p) as [ls|] eqn:Hl.
    - destruct (on_tree_open_eq fs source_dir saved item_id t n ps [] p ls Hg Hp Hl)
        as [g Eg].
      cbn [List.app] in Eg.
      eexists g, n, ps, _. split; [exact Eg|]. split; [reflexivity|].
      destruct (state_eqb ps Unchecked); destruct (sorted ls); exact I.
    - exists (fun s _ => s), n, ps, [ErrorEntry NoState].
      split; [|split; [reflexivity | exact I]].
      unfold on_tree_open. rewrite Hg, Hp, Hl. unfold set_item.
      apply set_at_replace_at. }
  destruct Hcase as [E | (g & n & ps & K & E & Hg & HK)].
  - now rewrite !E.
  - rewrite E.
    assert (Hg' : get_item (replace_at g t (rev item_id) (Node n ps K)) item_id
                  = Some (Node n ps K)).
    { unfold get_item in *. exact (get_at_replace_at_same g _ _ _ _ Hg). }
    unfold on_tree_open at 1. rewrite Hg'.
    destruct K as [|[| |] K']; try reflexivity. destruct HK.
Qed.

Lemma open_twice_is_open_once_witness :
  fs_is_dir demo_fs = true /\ reachable demo_fs demo_src demo_all /\
  on_tree_open demo_fs demo_src [] [3] (on_tree_open demo_fs demo_src [] [3] (tree demo_all))
  = on_tree_open demo_fs demo_src [] [3] (tree demo_all).
Proof.
  assert (H1 : fs_is_dir demo_fs = true) by reflexivity.
  assert (H2 : reachable demo_fs demo_src demo_all)
    by (exists [], [Click []]; reflexivity).
  split; [exact H1|]. split; [exact H2|].
  exact (open_twice_is_open_once demo_fs demo_src demo_all [] [3] H1 H2).
Defined.

Lemma path_to_id_root (source_dir : path) (t : item) :
  path_to_id source_dir t source_dir = Some [].
Proof.
  unfold path_to_id. rewrite <- (app_nil_r source_dir) at 2.
  now rewrite strip_prefix_app.
Qed.

(** X21.  After the root row is checked, a run collects every file of the
    snapshot below the source directory such that neither the file nor a
    directory on the way to it is ignored; after the root row is unchecked,
    a run collects no file and the listing of the selected tree is empty,
    whatever was loaded or stored before. *)
Theorem root_toggle_selects_all_or_nothing
        (lower : string -> string) (fs : fsnode) (source_dir : path) (cfg : filter_config) (t : item) :
  fs_distinct fs ->
  (forall f,
      In f (files_to_process lower fs source_dir cfg (toggle_check [] Checked t)) <->
      exists rel size probe data,
        rel <> [] /\ f = source_dir ++ rel /\
        fs_find fs rel = Some (File size probe data) /\
        forall r1 r2, rel = r1 ++ r2 -> r1 <> [] ->
                      _is_path_ignored lower cfg (source_dir ++ r1) = false) /\
  files_to_process lower fs source_dir cfg (toggle_check [] Unchecked t) = [] /\
  file_tree_entries lower fs source_dir cfg (toggle_check [] Unchecked t) false = [].
Proof.
  intro Hfs.
  assert (Hsel : forall st rest, explicit st ->
             _is_path_selected source_dir (toggle_check [] st t) (source_dir ++ rest)
             = state_eqb st Checked).
  { intros st rest Hst.
    apply (is_path_selected_toggle_check source_dir t source_dir rest [] st Hst).
    apply path_to_id_root. }
  split; [|split].
  - intro f. unfold files_to_process.
    rewrite (walk_exactly lower source_dir cfg (toggle_check [] Checked t) fs Hfs). split.
    + intros (rel & size & probe & data & Hne & E & Hf & Hpre & _).
      now exists rel, size, probe, data.
    + intros (rel & size & probe & data & Hne & E & Hf & Hpre).
      exists rel, size, probe, data. repeat split; auto.
      rewrite E. apply (Hsel Checked rel). now left.
  - destruct (files_to_process lower fs source_dir cfg (toggle_check [] Unchecked t))
      as [|f l] eqn:E; [reflexivity|].
    assert (Hin : In f (files_to_process lower fs source_dir cfg (toggle_check [] Unchecked t)))
      by (rewrite E; now left).
    unfold files_to_process in Hin.
    apply (walk_exactly lower source_dir cfg _ fs Hfs) in Hin
      as (rel & _ & _ & _ & _ & Ef & _ & _ & Hs).
    rewrite Ef, (Hsel Unchecked rel) in Hs; [discriminate | now right].
  - destruct (file_tree_entries lower fs source_dir cfg (toggle_check [] Unchecked t) false)
      as [|[p line] l] eqn:E; [reflexivity|].
    assert (Hex : exists line', In (p, line')
                    (recurse_tree lower source_dir cfg (toggle_check [] Unchecked t) false
                                  fs source_dir ""))
      by (exists line; unfold file_tree_entries in E; rewrite E; now left).
    apply (recurse_tree_exactly lower source_dir cfg _ false fs Hfs) in Hex
      as (rel & Hne & Ep & _ & Hpre).
    destruct (Hpre rel [] (eq_sym (app_nil_r rel)) Hne eq_refl) as [_ Hs].
    rewrite (Hsel Unchecked rel) in Hs; [discriminate | now right].
Qed.

Lemma root_toggle_selects_all_or_nothing_witness :
  fs_distinct demo_fs /\
  (forall f,
      In f (files_to_process ascii_lower demo_fs demo_src default_filter
                             (toggle_check [] Checked (tree demo_app))) <->
      exists rel size probe data,
        rel <> [] /\ f = demo_src ++ rel /\
        fs_find demo_fs rel = Some (File size probe data) /\
        forall r1 r2, rel = r1 ++ r2 -> r1 <> [] ->
                      _is_path_ignored ascii_lower default_filter (demo_src ++ r1) = false) /\
  files_to_process ascii_lower demo_fs demo_src default_filter
                   (toggle_check [] Unchecked (tree demo_app)) = [] /\
  file_tree_entries ascii_lower demo_fs demo_src default_filter
                    (toggle_check [] Unchecked (tree demo_app)) false = [].
Proof.
  assert (H : fs_distinct demo_fs).
  { simpl. repeat split; repeat constructor; simpl; intuition discriminate. }
  split; [exact H|].
  exact (root_toggle_selects_all_or_nothing ascii_lower demo_fs demo_src default_filter (tree demo_app) H).
Defined.


(** ** The two rules of the path filter *)

Lemma ignored_by_name (lower : string -> string) (cfg : filter_config) (p : path) :
  existsb (fun part => mem_string part (map lower (ignored_dirs cfg))) (map lower (parts p))
  = true ->
  _is_path_ignored lower cfg p = true.
Proof. unfold _is_path_ignored. now intros ->. Qed.

(** X22.  The filter compares through [str.lower], whatever that function
    does to a text, and has two rules.  A path with a component whose
    lower-case form is the lower-case form of a name of the ignored
    directories is ignored together with every path below it, whatever its
    extension.  A path of which no part has such a lower-case form is
    ignored exactly when the extension of its lower-case last component is
    the lower-case form of one of the ignored extensions, so that this rule
    says nothing about the paths below it. *)
Theorem ignore_rules (lower : string -> string) (cfg : filter_config) (p : path) :
  (forall d seg rest,
      In d (ignored_dirs cfg) -> In seg p -> lower seg = lower d ->
      _is_path_ignored lower cfg (p ++ rest) = true) /\
  ((forall d seg, In d (ignored_dirs cfg) -> In seg (parts p) -> lower seg <> lower d) ->
   _is_path_ignored lower cfg p
   = mem_string (splitext_ext (basename (map lower p))) (map lower (ignored_exts cfg))).
Proof.
  split.
  - intros d seg rest Hd Hseg E. apply ignored_by_name.
    apply existsb_exists. exists (lower seg). split.
    + apply in_map. right. apply in_app_iff. now left.
    + apply mem_string_In. rewrite E. now apply in_map.
  - intro Hno. unfold _is_path_ignored.
    destruct (existsb (fun part => mem_string part (map lower (ignored_dirs cfg)))
                      (map lower (parts p))) eqn:Ex.
    + exfalso. apply existsb_exists in Ex as (part & Hpart & Hm).
      apply mem_string_In in Hm. apply in_map_iff in Hm as (d & Ed & Hd).
      apply in_map_iff in Hpart as (seg & <- & Hseg).
      apply (Hno d seg Hd); [exact Hseg | now rewrite Ed].
    + now destruct (mem_string _ _).
Qed.

Lemma ignore_rules_witness :
  let p := ["home"; "proj"; "Node_Modules"] in
  let q := ["home"; "proj"; "Trace.LOG"] in
  (In "node_modules"%string (ignored_dirs default_filter) /\
   In "Node_Modules"%string p /\
   ascii_lower "Node_Modules" = ascii_lower "node_modules" /\
   _is_path_ignored ascii_lower default_filter (p ++ ["lib"; "index.js"]) = true) /\
  ((forall d seg, In d (ignored_dirs default_filter) -> In seg (parts q) ->
                  ascii_lower seg <> ascii_lower d) /\
   _is_path_ignored ascii_lower default_filter q = true).
Proof.
  intros p q.
  assert (H1 : In "node_modules"%string (ignored_dirs default_filter)) by (simpl; tauto).
  assert (H2 : In "Node_Modules"%string p) by (simpl; tauto).
  assert (H3 : ascii_lower "Node_Modules" = ascii_lower "node_modules") by reflexivity.
  assert (H4 : forall d seg, In d (ignored_dirs default_filter) -> In seg (parts q) ->
                             ascii_lower seg <> ascii_lower d).
  { intros d seg Hd Hs. simpl in Hd, Hs.
    repeat (destruct Hd as [<- | Hd]);
      try (repeat (destruct Hs as [<- | Hs]); (discriminate || contradiction)). }
  split.
  - split; [exact H1|]. split; [exact H2|]. split; [exact H3|].
    exact (proj1 (ignore_rules ascii_lower default_filter p)
                 "node_modules"%string "Node_Modules"%string ["lib"; "index.js"] H1 H2 H3).
  - split; [exact H4|].
    exact (proj2 (ignore_rules ascii_lower default_filter q) H4).
Defined.

(** ** The run of [process_files] *)

Section Run.

Variable lower : string -> string.
Variable decode : list byte -> option string.
Variable fs : fsnode.
Variable source_dir : path.
Variable cfg : filter_config.
Variable t : item.
Variable e : effects.
Variable output_file : path.

Local Abbreviation one := (process_one decode fs source_dir e output_file).
Local Abbreviation the_run :=
  (process_files lower decode fs source_dir cfg t e output_file).
Local Abbreviation files := (files_to_process lower fs source_dir cfg t).
Local Abbreviation snapshot := (opened fs source_dir e output_file).

Lemma critical_not_complete (errors : list log_entry) (doc : option (list string))
      (written : list path) (n : nat) :
  notified (critical e errors doc written) <> Some (Complete n).
Proof. unfold critical. cbn [notified]. destruct (post e ErrorBox); discriminate. Qed.

Lemma results_logged (max_size : Q) (l : list path) :
  flat_map (fun r => log_of (fst r) (snd r)) (map (fun f => (f, one max_size f)) l)
  = flat_map (fun f => log_of f (one max_size f)) l.
Proof. induction l as [|f l IH]; simpl; [reflexivity | now rewrite IH]. Qed.

Lemma results_pieces (max_size : Q) (l : list path) :
  flat_map (fun r => pieces_of source_dir (fst r) (snd r))
           (map (fun f => (f, one max_size f)) l)
  = flat_map (fun f => pieces_of source_dir f (one max_size f)) l.
Proof. induction l as [|f l IH]; simpl; [reflexivity | now rewrite IH]. Qed.

(** What a run that reports its completion has done. *)
Lemma completed_run (n : nat) :
  notified the_run = Some (Complete n) ->
  exists mb full,
    max_size_read e = Some mb /\
    post e Collecting = true /\
    files_collected e = true /\
    output_opens e = true /\
    include_full_tree_read e = Some full /\
    (full = true -> post e FullTreeStatus = true /\ full_tree_written e = true) /\
    post e SelectedTreeStatus = true /\
    selected_tree_written e = true /\
    forallb (fun f => post e (Processing f)) files = true /\
    output_closes e = true /\
    post e (GenerationComplete (List.length files)) = true /\
    n = List.length files /\
    logged the_run = flat_map (fun f => log_of f (one (mb * 1024 * 1024)%Q f)) files /\
    document the_run
    = Some (header lower snapshot source_dir cfg t full
            ++ flat_map (fun f => pieces_of source_dir f (one (mb * 1024 * 1024)%Q f)) files) /\
    written_files the_run = filter (fun f => is_written (one (mb * 1024 * 1024)%Q f)) files.
Proof.
  unfold process_files.
  destruct (max_size_read e) as [mb|];
    [|intro H; now apply critical_not_complete in H].
  destruct (post e Collecting && files_collected e) eqn:E1; cbn [negb];
    [|intro H; now apply critical_not_complete in H].
  apply andb_true_iff in E1 as [E1 E1'].
  destruct (output_opens e) eqn:E2; cbn [negb];
    [|intro H; now apply critical_not_complete in H].
  destruct (include_full_tree_read e) as [full|];
    [|intro H; now apply critical_not_complete in H].
  destruct (full && negb (post e FullTreeStatus && full_tree_written e)) eqn:E3;
    [intro H; now apply critical_not_complete in H|].
  destruct (post e SelectedTreeStatus && selected_tree_written e) eqn:E4; cbn [negb];
    [|intro H; now apply critical_not_complete in H].
  rewrite process_loop_eq.
  destruct (forallb (fun f => post e (Processing f)) files) eqn:E5; cbn [andb];
    [|intro H; now apply critical_not_complete in H].
  destruct (output_closes e) eqn:E6; cbn [andb];
    [|intro H; now apply critical_not_complete in H].
  destruct (post e (GenerationComplete (List.length files))) eqn:E7;
    [|intro H; now apply critical_not_complete in H].
  cbn [notified logged document written_files]. intro H. injection H as <-.
  rewrite (reached_all e _ E5), results_logged, results_pieces, written_of_results.
  apply andb_true_iff in E4 as [E4 E4'].
  exists mb, full.
  assert (H5 : full = true -> post e FullTreeStatus = true /\ full_tree_written e = true).
  { intros ->. cbn [andb] in E3. apply negb_false_iff, andb_true_iff in E3. exact E3. }
  repeat (split; [assumption || reflexivity|]). reflexivity.
Qed.

(** A run in which every step outside the [try] of one file returns reports
    its completion. *)
Lemma run_completes (mb : Q) (full : bool) :
  max_size_read e = Some mb ->
  post e Collecting = true ->
  files_collected e = true ->
  output_opens e = true ->
  include_full_tree_read e = Some full ->
  (full = true -> post e FullTreeStatus = true /\ full_tree_written e = true) ->
  post e SelectedTreeStatus = true ->
  selected_tree_written e = true ->
  (forall f, In f files -> post e (Processing f) = true) ->
  output_closes e = true ->
  post e (GenerationComplete (List.length files)) = true ->
  notified the_run = Some (Complete (List.length files)).
Proof.
  intros H1 H2 H2' H3 H4 H5 H6 H7 H8 H9 H10.
  unfold process_files. rewrite H1, H2, H2', H3, H4, H6, H7. cbn [negb andb].
  assert (E : full && negb (post e FullTreeStatus && full_tree_written e) = false).
  { destruct full; [|reflexivity]. destruct (H5 eq_refl) as [-> ->]. reflexivity. }
  rewrite E, process_loop_eq.
  assert (E' : forallb (fun f => post e (Processing f)) files = true)
    by (apply forallb_forall; exact H8).
  rewrite E', H9, H10. reflexivity.
Qed.

(** A run that does not report its completion ended in the handler. *)
Lemma aborted_run :
  (forall n, notified the_run <> Some (Complete n)) ->
  notified the_run = (if post e ErrorBox then Some Failure else None) /\
  In CriticalError (logged the_run).
Proof.
  unfold process_files.
  assert (Hc : forall errors doc written,
             notified (critical e errors doc written)
             = (if post e ErrorBox then Some Failure else None) /\
             In CriticalError (logged (critical e errors doc written))).
  { intros errors doc written. unfold critical. cbn [notified logged].
    split; [reflexivity|]. apply in_app_iff. right. now left. }
  destruct (max_size_read e) as [mb|]; [|intros _; apply Hc].
  destruct (negb (post e Collecting && files_collected e)); [intros _; apply Hc|].
  destruct (negb (output_opens e)); [intros _; apply Hc|].
  destruct (include_full_tree_read e) as [full|]; [|intros _; apply Hc].
  destruct (full && negb (post e FullTreeStatus && full_tree_written e));
    [intros _; apply Hc|].
  destruct (negb (post e SelectedTreeStatus && selected_tree_written e));
    [intros _; apply Hc|].
  destruct (process_loop decode fs source_dir e output_file (mb * 1024 * 1024) files)
    as [results finished].
  destruct (finished && output_closes e
            && post e (GenerationComplete (List.length files)));
    [|intros _; apply Hc].
  cbn [notified]. intro H. exfalso. now apply (H (List.length files)).
Qed.

(** A file is written exactly when every step of its turn returns and none
    of the three tests skips it. *)
Lemma is_written_iff (max_size : Q) (f : path) :
  is_written (one max_size f) = true <->
  exists size raw_data content,
    getsize snapshot source_dir f = Some size /\
    Qle_bool (inject_Z size) max_size = true /\
    _is_binary_file snapshot source_dir f = false /\
    read_all snapshot source_dir f = Some raw_data /\
    decode raw_data = Some content /\
    3 <= block_writes e f.
Proof.
  unfold process_one. split.
  - destruct (getsize snapshot source_dir f) as [size|]; [|discriminate].
    destruct (Qle_bool (inject_Z size) max_size) eqn:El; [|discriminate].
    destruct (_is_binary_file snapshot source_dir f); [discriminate|].
    destruct (read_all snapshot source_dir f) as [raw_data|]; [|discriminate].
    destruct (decode raw_data) as [content|] eqn:Ed; [|discriminate].
    destruct (3 <=? block_writes e f) eqn:Ew; [|discriminate].
    intros _. exists size, raw_data, content. apply Nat.leb_le in Ew.
    repeat (split; [reflexivity || assumption|]). exact Ew.
  - intros (size & raw_data & content & -> & -> & -> & -> & -> & Hw).
    apply Nat.leb_le in Hw. cbn [negb]. now rewrite Hw.
Qed.

(** A file is logged exactly when it passed the three tests and its content
    could not be read, or not be decoded, or its block not be written. *)
Lemma is_logged_iff (max_size : Q) (f : path) (entry : log_entry) :
  In entry (log_of f (one max_size f)) <->
  entry = FileError f /\
  exists size,
    getsize snapshot source_dir f = Some size /\
    Qle_bool (inject_Z size) max_size = true /\
    _is_binary_file snapshot source_dir f = false /\
    (read_all snapshot source_dir f = None \/
     exists raw_data,
       read_all snapshot source_dir f = Some raw_data /\
       (decode raw_data = None \/ block_writes e f < 3)).
Proof.
  unfold process_one. split.
  - destruct (getsize snapshot source_dir f) as [size|]; [|intros []].
    destruct (Qle_bool (inject_Z size) max_size) eqn:El; [|intros []].
    destruct (_is_binary_file snapshot source_dir f); [intros []|]. cbn [negb].
    destruct (read_all snapshot source_dir f) as [raw_data|].
    + destruct (decode raw_data) as [content|] eqn:Ed.
      * destruct (3 <=? block_writes e f) eqn:Ew; [intros []|].
        intros [<- | []]. split; [reflexivity|]. exists size.
        apply Nat.leb_gt in Ew.
        split; [reflexivity|]. split; [exact El|]. split; [reflexivity|].
        right. exists raw_data. split; [reflexivity|]. now right.
      * intros [<- | []]. split; [reflexivity|]. exists size.
        split; [reflexivity|]. split; [exact El|]. split; [reflexivity|].
        right. exists raw_data. split; [reflexivity|]. now left.
    + intros [<- | []]. split; [reflexivity|]. exists size.
      split; [reflexivity|]. split; [exact El|]. split; [reflexivity|]. now left.
  - intros (-> & size & -> & -> & -> & [-> | (raw_data & -> & [-> | Hw])]); cbn [negb].
    + now left.
    + now left.
    + destruct (decode raw_data); [|now left].
      apply Nat.leb_gt in Hw. rewrite Hw. now left.
Qed.

(** What a run whose output file was written to its end and closed has
    written, whether or not its completion could be posted. *)
Lemma closed_document (doc : list string) :
  document the_run = Some doc ->
  exists mb full,
    max_size_read e = Some mb /\
    include_full_tree_read e = Some full /\
    doc = header lower snapshot source_dir cfg t full
          ++ flat_map (fun f => pieces_of source_dir f (one (mb * 1024 * 1024)%Q f)) files /\
    written_files the_run = filter (fun f => is_written (one (mb * 1024 * 1024)%Q f)) files.
Proof.
  unfold process_files, critical.
  destruct (max_size_read e) as [mb|]; [|discriminate].
  destruct (negb (post e Collecting && files_collected e)); [discriminate|].
  destruct (negb (output_opens e)); [discriminate|].
  destruct (include_full_tree_read e) as [full|]; [|discriminate].
  destruct (full && negb (post e FullTreeStatus && full_tree_written e)); [discriminate|].
  destruct (negb (post e SelectedTreeStatus && selected_tree_written e)); [discriminate|].
  rewrite process_loop_eq.
  destruct (forallb (fun f => post e (Processing f)) files) eqn:E5;
    cbn [andb]; [|destruct (post e ErrorBox); discriminate].
  rewrite (reached_all e _ E5), results_pieces, written_of_results.
  destruct (output_closes e); cbn [andb]; [|destruct (post e ErrorBox); discriminate].
  intro Hdoc. exists mb, full. split; [reflexivity|]. split; [reflexivity|].
  destruct (post e (GenerationComplete (List.length files)));
    cbn [document written_files] in *; (split; [congruence | reflexivity]).
Qed.

End Run.

(** ** C1: the count reported when the run ends *)

(** A file that is selected and not ignored is not collected when it lies
    below an ignored directory: line 589 prunes the directory, here for its
    extension. *)
Example file_below_ignored_directory_not_collected :
  let fs := Dir [("assets.log", Dir [("a.txt", File (Some 1%Z) (Some [x61]) (Some [x61]))])] in
  let t := tree (run_events fs demo_src [Click []] (_set_source_directory fs demo_src [])) in
  let f := demo_src ++ ["assets.log"; "a.txt"] in
  _is_path_ignored ascii_lower default_filter f = false /\
  _is_path_selected demo_src t f = true /\
  files_to_process ascii_lower fs demo_src default_filter t = [] /\
  notified (process_files ascii_lower ascii_decode fs demo_src default_filter t
                          (all_well 5%Q true) demo_output) = Some (Complete 0).
Proof. vm_compute. repeat split. Qed.




(** ** C9: failures during the run *)

(** C9, counterexample.  The size of [gone.txt] cannot be read: the file is
    collected and skipped, the run completes, and nothing is logged.  And
    when the size limit cannot be read the run ends in the handler although
    the output file would open. *)
Lemma skipped_file_is_not_logged :
  let t := tree demo_all in
  let r := process_files ascii_lower ascii_decode demo_fs demo_src default_filter t
                         (all_well 5%Q true) demo_output in
  let no_limit :=
    {| max_size_read := None;
       post := fun _ => true;
       files_collected := true;
       output_opens := true;
       seen_output := File (Some 0%Z) (Some []) (Some []);
       include_full_tree_read := Some true;
       full_tree_written := true;
       selected_tree_written := true;
       block_writes := fun _ => 3;
       output_closes := true |} in
  let r' := process_files ascii_lower ascii_decode demo_fs demo_src default_filter t
                          no_limit demo_output in
  (In (demo_src ++ ["gone.txt"])
      (files_to_process ascii_lower demo_fs demo_src default_filter t) /\
   getsize (opened demo_fs demo_src (all_well 5%Q true) demo_output) demo_src
           (demo_src ++ ["gone.txt"]) = None /\
   ~ In (demo_src ++ ["gone.txt"]) (written_files r) /\
   notified r = Some (Complete 4) /\
   logged r = []) /\
  (output_opens no_limit = true /\
   notified r' = Some Failure /\
   logged r' = [CriticalError]).
Proof.
  vm_compute. repeat split; auto.
  intros [H|[H|[]]]; discriminate.
Qed.

(** C9, amended.  A run reports its completion exactly when every step
    outside the [try] of one file returns: the size limit and the check box
    are read, every status message is posted, the files are collected, the
    output file opens, the listings are made and written, the output file is
    closed and the completion is posted.  What happens to one file plays no part in this.  A run that
    does not report its completion ends in the handler: the failure is
    logged, and the error box is shown when it can be posted; this is so in
    particular when the output file does not open, and then nothing is
    written.  In a run that completes, a collected file is written exactly
    when its size is read and within the limit, its first bytes are read and
    hold no NUL byte, and its content is read, decoded and written; it is
    logged exactly when it passed these tests and its content could not be
    read, or decoded, or its block not be written; a file whose size or
    first bytes cannot be read is skipped and not logged. *)
Theorem per_file_errors_skip_and_open_failure_aborts
        (lower : string -> string) (decode : list byte -> option string)
        (fs : fsnode) (source_dir : path) (cfg : filter_config) (t : item)
        (e : effects) (output_file : path) :
  let r := process_files lower decode fs source_dir cfg t e output_file in
  let files := files_to_process lower fs source_dir cfg t in
  let snapshot := opened fs source_dir e output_file in
  (notified r = Some (Complete (List.length files)) <->
   max_size_read e <> None /\
   post e Collecting = true /\
   files_collected e = true /\
   output_opens e = true /\
   (exists full,
       include_full_tree_read e = Some full /\
       (full = true -> post e FullTreeStatus = true /\ full_tree_written e = true)) /\
   post e SelectedTreeStatus = true /\
   selected_tree_written e = true /\
   (forall f, In f files -> post e (Processing f) = true) /\
   output_closes e = true /\
   post e (GenerationComplete (List.length files)) = true) /\
  (notified r <> Some (Complete (List.length files)) ->
   notified r = (if post e ErrorBox then Some Failure else None) /\
   In CriticalError (logged r)) /\
  (output_opens e = false ->
   notified r = (if post e ErrorBox then Some Failure else None) /\
   logged r = [CriticalError] /\ document r = None /\ written_files r = []) /\
  (forall mb,
      max_size_read e = Some mb ->
      notified r = Some (Complete (List.length files)) ->
      (forall f,
          In f (written_files r) <->
          In f files /\
          exists size raw_data content,
            getsize snapshot source_dir f = Some size /\
            Qle_bool (inject_Z size) (mb * 1024 * 1024)%Q = true /\
            _is_binary_file snapshot source_dir f = false /\
            read_all snapshot source_dir f = Some raw_data /\
            decode raw_data = Some content /\
            3 <= block_writes e f) /\
      (forall entry,
          In entry (logged r) <->
          exists f,
            entry = FileError f /\ In f files /\
            exists size,
              getsize snapshot source_dir f = Some size /\
              Qle_bool (inject_Z size) (mb * 1024 * 1024)%Q = true /\
              _is_binary_file snapshot source_dir f = false /\
              (read_all snapshot source_dir f = None \/
               exists raw_data,
                 read_all snapshot source_dir f = Some raw_data /\
                 (decode raw_data = None \/ block_writes e f < 3)))).
Proof.
  intros r files snapshot. split; [|split; [|split]].
  - split.
    + intro H. apply completed_run in H
        as (mb & full & H1 & H2 & H2' & H3 & H4 & H5 & H6 & H7 & H8 & H9 & H10 & _).
      split; [congruence|]. split; [exact H2|]. split; [exact H2'|]. split; [exact H3|].
      split; [now exists full|]. split; [exact H6|]. split; [exact H7|].
      split; [|now split].
      intros f Hf. rewrite forallb_forall in H8. now apply H8.
    + intros (H1 & H2 & H2' & H3 & (full & H4 & H5) & H6 & H7 & H8 & H9 & H10).
      destruct (max_size_read e) as [mb|] eqn:Em; [|congruence].
      now apply (run_completes lower decode fs source_dir cfg t e output_file mb full).
  - intro H. apply aborted_run. intros n Hn. apply H. fold r in Hn. rewrite Hn.
    apply completed_run in Hn
      as (_ & _ & _ & _ & _ & _ & _ & _ & _ & _ & _ & _ & _ & -> & _).
    reflexivity.
  - intro Ho. unfold r, process_files, critical.
    destruct (max_size_read e); [|now repeat split].
    destruct (negb (post e Collecting && files_collected e)); [now repeat split|].
    rewrite Ho. now repeat split.
  - intros mb Hmb Hn. apply completed_run in Hn
      as (mb' & full & Hmb' & _ & _ & _ & _ & _ & _ & _ & _ & _ & _ & _ & Hl & _ & Hw).
    assert (mb' = mb) by congruence. subst mb'.
    fold r in Hl, Hw. fold files in Hl, Hw. split.
    + intro f. rewrite Hw, filter_In.
      unfold snapshot. now rewrite is_written_iff.
    + intro entry. rewrite Hl, in_flat_map. unfold snapshot. split.
      * intros (f & Hf & Hin). apply is_logged_iff in Hin as [-> Hin].
        exists f. auto.
      * intros (f & -> & Hf & Hin). exists f. split; [exact Hf|].
        apply is_logged_iff. auto.
Qed.

Lemma per_file_errors_skip_and_open_failure_aborts_witness :
  let t := tree demo_all in
  let fails := {| max_size_read := Some 5%Q;
                  post := fun _ => true;
                  files_collected := true;
                  output_opens := false;
                  seen_output := Locked;
                  include_full_tree_read := Some true;
                  full_tree_written := true;
                  selected_tree_written := true;
                  block_writes := fun _ => 3;
                  output_closes := true |} in
  let r := process_files ascii_lower ascii_decode demo_fs demo_src default_filter t
                         (all_well 5%Q true) demo_output in
  let r' := process_files ascii_lower ascii_decode demo_fs demo_src default_filter t
                          fails demo_output in
  (output_opens fails = false /\
   notified r' = Some Failure /\ logged r' = [CriticalError] /\
   document r' = None /\ written_files r' = []) /\
  (max_size_read (all_well 5%Q true) = Some 5%Q /\
   notified r = Some (Complete 4) /\
   forall entry, ~ In entry (logged r)).
Proof.
  intros t fails r r'.
  pose proof (per_file_errors_skip_and_open_failure_aborts
                ascii_lower ascii_decode demo_fs demo_src default_filter t
                fails demo_output) as (_ & _ & Hf & _).
  pose proof (per_file_errors_skip_and_open_failure_aborts
                ascii_lower ascii_decode demo_fs demo_src default_filter t
                (all_well 5%Q true) demo_output) as (_ & _ & _ & Ht).
  assert (H1 : output_opens fails = false) by reflexivity.
  assert (H2 : max_size_read (all_well 5%Q true) = Some 5%Q) by reflexivity.
  assert (H3 : notified r = Some (Complete 4)) by (vm_compute; reflexivity).
  split.
  - split; [exact H1|]. exact (Hf H1).
  - split; [exact H2|]. split; [exact H3|].
    intros entry Hin. apply (proj2 (Ht 5%Q H2 H3)) in Hin
      as (f & _ & Hfiles & size & Hsize & Hle & Hbin & Hread).
    vm_compute in Hfiles.
    destruct Hfiles as [<- | [<- | [<- | [<- | []]]]];
      vm_compute in Hsize, Hbin, Hread; try discriminate.
    + destruct Hread as [Hread | (raw & _ & [Hd | Hw])]; try discriminate.
      apply Nat.lt_irrefl in Hw. exact Hw.
    + destruct Hread as [Hread | (raw & _ & [Hd | Hw])]; try discriminate.
      apply Nat.lt_irrefl in Hw. exact Hw.
Defined.

(** ** What the output file holds *)

(** X11.  When the output file is written to its end and closed and no
    write of a block fails, it holds the header, made of the listings of the
    snapshot found once the output file is open, followed, for each written
    file in the order of collection, by its start line, the text decoded
    from its content and its end line, both lines naming the path relative
    to the source directory; a file that is skipped or that cannot be read
    or decoded leaves nothing. *)
Theorem document_is_header_then_blocks
        (lower : string -> string) (decode : list byte -> option string)
        (fs : fsnode) (source_dir : path) (cfg : filter_config) (t : item)
        (e : effects) (output_file : path) (doc : list string) :
  let r := process_files lower decode fs source_dir cfg t e output_file in
  let snapshot := opened fs source_dir e output_file in
  document r = Some doc ->
  (forall f, 3 <= block_writes e f) ->
  exists full,
    include_full_tree_read e = Some full /\
    doc = header lower snapshot source_dir cfg t full
          ++ flat_map (fun f =>
                         match option_map decode (read_all snapshot source_dir f) with
                         | Some (Some content) =>
                             [("--- START OF FILE: " ++ relative_path source_dir f
                               ++ " ---" ++ newline ++ newline)%string;
                              content;
                              (newline ++ newline ++ "--- END OF FILE: "
                               ++ relative_path source_dir f ++ " ---"
                               ++ newline ++ newline)%string]
                         | _ => []
                         end)
                      (written_files r).
Proof.
  intros r snapshot Hdoc Hw.
  apply closed_document in Hdoc as (mb & full & _ & Hfull & -> & Ew).
  exists full. split; [exact Hfull|]. f_equal.
  unfold r. rewrite Ew. clear Ew.
  induction (files_to_process lower fs source_dir cfg t) as [|f l IH]; [reflexivity|].
  cbn [flat_map filter]. rewrite IH.
  unfold process_one at 1 3. fold snapshot.
  destruct (getsize snapshot source_dir f) as [size|]; [|reflexivity].
  destruct (negb (Qle_bool (inject_Z size) (mb * 1024 * 1024))); [reflexivity|].
  destruct (_is_binary_file snapshot source_dir f); [reflexivity|].
  destruct (read_all snapshot source_dir f) as [raw|] eqn:Er; [|reflexivity].
  destruct (decode raw) as [content|] eqn:Ed; [|reflexivity].
  specialize (Hw f). apply Nat.leb_le in Hw. rewrite Hw.
  cbn [is_written pieces_of flat_map List.app option_map]. rewrite Er.
  cbn [option_map]. rewrite Ed. reflexivity.
Qed.

Lemma document_is_header_then_blocks_witness :
  let fs := Dir [("a.txt", File (Some 2%Z) (Some [x68; x69]) (Some [x68; x69]));
                 ("big.txt", File (Some 9000000%Z) (Some [x61]) (Some [x61]))] in
  let t := tree (run_events fs demo_src [Click []] (_set_source_directory fs demo_src [])) in
  let e := all_well 5%Q false in
  let r := process_files ascii_lower ascii_decode fs demo_src default_filter t e demo_output in
  let doc :=
    [(times 40 "=" ++ " 已选文件结构概览 " ++ times 40 "=" ++ newline ++ newline)%string;
     String.concat newline ["proj"; "├─ a.txt"; "└─ big.txt"];
     (newline ++ newline ++ times 40 "=" ++ " 文件内容详情 " ++ times 40 "="
      ++ newline ++ newline)%string;
     ("--- START OF FILE: a.txt ---" ++ newline ++ newline)%string;
     "hi"%string;
     (newline ++ newline ++ "--- END OF FILE: a.txt ---" ++ newline ++ newline)%string] in
  document r = Some doc /\
  (forall f, 3 <= block_writes e f) /\
  written_files r = [demo_src ++ ["a.txt"]] /\
  exists full, include_full_tree_read e = Some full.
Proof.
  intros fs t e r doc.
  assert (H1 : document r = Some doc) by (vm_compute; reflexivity).
  assert (H2 : forall f, 3 <= block_writes e f) by (intro f; apply Nat.le_refl).
  destruct (document_is_header_then_blocks
              ascii_lower ascii_decode fs demo_src default_filter t e demo_output doc H1 H2)
    as (full & Hfull & _).
  split; [exact H1|]. split; [exact H2|]. split; [reflexivity|].
  now exists full.
Defined.

(** ** The order of the stored paths *)

Lemma mem_path_same (l l' : list path) (p : path) :
  (forall q, In q l <-> In q l') -> mem_path p l = mem_path p l'.
Proof.
  intro H. destruct (mem_path p l) eqn:E, (mem_path p l') eqn:E'; try reflexivity.
  - apply mem_path_In, H, mem_path_In in E. congruence.
  - apply mem_path_In, H, mem_path_In in E'. congruence.
Qed.

Lemma map_resolve_same (l l' : list path) :
  (forall q, In q l <-> In q l') ->
  forall q, In q (map resolve l) <-> In q (map resolve l').
Proof.
  intros H q. unfold resolve. now rewrite !map_id.
Qed.

Section StoredOrder.

Variable fs : fsnode.
Variable source_dir : path.

Lemma add_node_same (l l' : list path) (p : path) :
  (forall q, In q l <-> In q l') ->
  _add_node_to_tree fs source_dir l p = _add_node_to_tree fs source_dir l' p.
Proof.
  intro H. unfold _add_node_to_tree. now rewrite (mem_path_same l l' _ H).
Qed.

Lemma populate_tree_same (l l' : list path) :
  (forall q, In q l <-> In q l') ->
  populate_tree fs source_dir l = populate_tree fs source_dir l'.
Proof.
  intro H. pose proof (map_resolve_same l l' H) as Hr. unfold populate_tree.
  rewrite (mem_path_same _ _ (resolve source_dir) Hr).
  assert (E : forall names : list string,
             map (fun item => _add_node_to_tree fs source_dir (map resolve l)
                                                (join source_dir item)) names
             = map (fun item => _add_node_to_tree fs source_dir (map resolve l')
                                                  (join source_dir item)) names).
  { intro names. apply map_ext. intro item. now apply add_node_same. }
  destruct (listdir fs source_dir source_dir) as [names|]; [|reflexivity].
  now rewrite E.
Qed.

Lemma on_tree_open_same (l l' : list path) (i : iid) (t : item) :
  (forall q, In q l <-> In q l') ->
  on_tree_open fs source_dir l i t = on_tree_open fs source_dir l' i t.
Proof.
  intro H. pose proof (map_resolve_same l l' H) as Hr. unfold on_tree_open.
  destruct (get_item t i) as [[n st [|[| |] rest]| |]|]; try reflexivity.
  destruct (fullpath source_dir t i) as [p|]; [|reflexivity].
  destruct (listdir fs source_dir p) as [names|]; [|reflexivity].
  assert (E : map (fun item_name => _add_node_to_tree fs source_dir (map resolve l)
                                                      (join p item_name)) (sorted names)
              = map (fun item_name => _add_node_to_tree fs source_dir (map resolve l')
                                                        (join p item_name)) (sorted names)).
  { apply map_ext. intro item. now apply add_node_same. }
  now rewrite E.
Qed.

Lemma handle_same (ev : event) (a a' : app) :
  tree a = tree a' -> (forall q, In q (stored a) <-> In q (stored a')) ->
  tree (handle fs source_dir ev a) = tree (handle fs source_dir ev a') /\
  (forall q, In q (stored (handle fs source_dir ev a))
             <-> In q (stored (handle fs source_dir ev a'))).
Proof.
  intros Et Hs. destruct ev as [i|i| |]; cbn [handle].
  - cbn [tree stored]. rewrite Et. split; [now apply on_tree_open_same | exact Hs].
  - unfold on_single_click. rewrite Et.
    destruct (get_item (tree a') i); cbn [tree stored]; [|now split].
    split; [reflexivity | tauto].
  - cbn [tree stored]. rewrite Et. split; [reflexivity | tauto].
  - unfold _refresh_tree_view. rewrite Et. split; [reflexivity | tauto].
Qed.

Lemma run_events_same (es : list event) :
  forall a a',
    tree a = tree a' -> (forall q, In q (stored a) <-> In q (stored a')) ->
    tree (run_events fs source_dir es a) = tree (run_events fs source_dir es a') /\
    (forall q, In q (stored (run_events fs source_dir es a))
               <-> In q (stored (run_events fs source_dir es a'))).
Proof.
  induction es as [|ev es IH]; intros a a' Et Hs; [now split|].
  cbn [run_events fold_left].
  destruct (handle_same ev a a' Et Hs) as [Et' Hs'].
  exact (IH _ _ Et' Hs').
Qed.

End StoredOrder.

(** X23.  The rows depend on the stored checked paths only through the
    paths that are stored, not through their order or their repetitions:
    two lists with the same members give the same tree when the project is
    loaded, and after every sequence of expansions, clicks, saves and
    refreshes the same tree and stored lists with the same members.  The
    order in which [path_to_id_map] lists its entries when the settings are
    saved therefore plays no part in what the application shows or
    selects. *)
Theorem stored_order_plays_no_part
        (fs : fsnode) (source_dir : path) (l l' : list path) (es : list event) :
  (forall p, In p l <-> In p l') ->
  let a := run_events fs source_dir es (_set_source_directory fs source_dir l) in
  let a' := run_events fs source_dir es (_set_source_directory fs source_dir l') in
  populate_tree fs source_dir l = populate_tree fs source_dir l' /\
  tree a = tree a' /\
  (forall p, In p (stored a) <-> In p (stored a')) /\
  (forall p, _is_path_selected source_dir (tree a) p
             = _is_path_selected source_dir (tree a') p).
Proof.
  intros H a a'.
  pose proof (populate_tree_same fs source_dir l l' H) as Ep.
  destruct (run_events_same fs source_dir es
              (_set_source_directory fs source_dir l)
              (_set_source_directory fs source_dir l')) as [Et Hs].
  - exact Ep.
  - exact H.
  - split; [exact Ep|]. split; [exact Et|]. split; [exact Hs|].
    intro p. fold a a' in Et. now rewrite Et.
Qed.

Lemma stored_order_plays_no_part_witness :
  let l := [demo_src ++ ["a.txt"]; demo_src ++ ["sub"]] in
  let l' := [demo_src ++ ["sub"]; demo_src ++ ["a.txt"]; demo_src ++ ["sub"]] in
  let es := [Open [3]; Click [0; 3]; Refresh] in
  (forall p, In p l <-> In p l') /\
  tree (run_events demo_fs demo_src es (_set_source_directory demo_fs demo_src l))
  = tree (run_events demo_fs demo_src es (_set_source_directory demo_fs demo_src l')).
Proof.
  intros l l' es.
  assert (H : forall p, In p l <-> In p l') by (intro p; simpl; tauto).
  split; [exact H|].
  exact (proj1 (proj2 (stored_order_plays_no_part demo_fs demo_src l l' es H))).
Defined.
